(** * A shallow embedding of the uistate renderer (src/renderer.js)

    The renderer binds a path-addressed store to a tree of elements.  This
    development embeds its functions as Rocq functions over an explicit
    world (the heap of JavaScript objects, the store, the element tree, the
    mount's subscription registry and the per-container collection state)
    and proves the properties its specification states about them.

    Conventions.
    - JavaScript strings are Rocq strings holding their UTF-8 encoding; the
      separators the code searches for (':', '.', ')', ',') are ASCII, so
      searching and slicing by byte agree with searching and slicing by
      code unit.
    - JavaScript numbers are IEEE 754 binary64 values: Rocq's primitive
      floats.
    - Objects live in a heap and are referred to by location, so that
      aliasing and in-place mutation are visible. *)

From Stdlib Require Import ZArith String Ascii List Bool Lia.
From Stdlib Require Import PrimFloat FloatOps SpecFloat.
From Stdlib Require Import DecimalString DecimalZ DecimalPos.
From stdpp Require Import base option list gmap strings.

Local Open Scope string_scope.
Local Open Scope list_scope.

(** ** Strings: the methods of String.prototype the renderer calls *)

(** [s.indexOf(c)] for a one-character [c]; [None] stands for [-1]. *)
Fixpoint indexOf (c : ascii) (s : string) : option nat :=
  match s with
  | EmptyString => None
  | String a s' =>
      if Ascii.eqb a c then Some 0 else option_map S (indexOf c s')
  end.

(** [s.lastIndexOf(c)]; [None] stands for [-1]. *)
Fixpoint lastIndexOf (c : ascii) (s : string) : option nat :=
  match s with
  | EmptyString => None
  | String a s' =>
      match lastIndexOf c s' with
      | Some i => Some (S i)
      | None => if Ascii.eqb a c then Some 0 else None
      end
  end.

(** [s.slice(0, n)] and [s.slice(n)] for [0 <= n]. *)
Fixpoint slice_to (n : nat) (s : string) : string :=
  match n, s with
  | S n', String a s' => String a (slice_to n' s')
  | _, _ => EmptyString
  end.

Fixpoint slice_from (n : nat) (s : string) : string :=
  match n, s with
  | S n', String _ s' => slice_from n' s'
  | _, _ => s
  end.

Fixpoint str_rev_onto (s acc : string) : string :=
  match s with
  | EmptyString => acc
  | String a s' => str_rev_onto s' (String a acc)
  end.

Definition str_rev (s : string) : string := str_rev_onto s EmptyString.

(** White space and line terminators of ECMAScript, as UTF-8 sequences:
    U+0009..U+000D and U+0020 are one byte; U+00A0 is two; U+1680,
    U+2000..U+200A, U+2028, U+2029, U+202F, U+205F, U+3000 and U+FEFF are
    three. *)
Definition ws1 (a : ascii) : bool :=
  let n := nat_of_ascii a in
  (((9 <=? n) && (n <=? 13)) || (n =? 32))%nat.

Definition ws2 (a b : ascii) : bool :=
  ((nat_of_ascii a =? 194) && (nat_of_ascii b =? 160))%nat.

Definition ws3 (a b c : ascii) : bool :=
  let x := nat_of_ascii a in
  let y := nat_of_ascii b in
  let z := nat_of_ascii c in
  (((x =? 225) && (y =? 154) && (z =? 128))
   || ((x =? 226) && (y =? 128)
       && (((128 <=? z) && (z <=? 138)) || (z =? 168) || (z =? 169) || (z =? 175)))
   || ((x =? 226) && (y =? 129) && (z =? 159))
   || ((x =? 227) && (y =? 128) && (z =? 128))
   || ((x =? 239) && (y =? 187) && (z =? 191)))%nat.

(** [s.trimStart()]. *)
Fixpoint trimStart (s : string) : string :=
  match s with
  | String a s1 =>
      if ws1 a then trimStart s1
      else
        match s1 with
        | String b s2 =>
            if ws2 a b then trimStart s2
            else
              match s2 with
              | String c s3 => if ws3 a b c then trimStart s3 else s
              | EmptyString => s
              end
        | EmptyString => s
        end
  | EmptyString => s
  end.

(** The same scan over the reversed string: the bytes of a multi-byte
    white space character come last byte first. *)
Fixpoint trimStart_rev (s : string) : string :=
  match s with
  | String a s1 =>
      if ws1 a then trimStart_rev s1
      else
        match s1 with
        | String b s2 =>
            if ws2 b a then trimStart_rev s2
            else
              match s2 with
              | String c s3 => if ws3 c b a then trimStart_rev s3 else s
              | EmptyString => s
              end
        | EmptyString => s
        end
  | EmptyString => s
  end.

Definition trimEnd (s : string) : string := str_rev (trimStart_rev (str_rev s)).

(** [s.trim()]. *)
Definition trim (s : string) : string := trimEnd (trimStart s).

(** [s.startsWith(p)] together with [s.slice(p.length)]. *)
Fixpoint strip_prefix (p s : string) : option string :=
  match p, s with
  | EmptyString, _ => Some s
  | String a p', String b s' =>
      if Ascii.eqb a b then strip_prefix p' s' else None
  | String _ _, EmptyString => None
  end.

(** ** Pure helpers of the renderer *)

Record set_expr := mkSetExpr { path : string; expr : option string }.

(** [parseSetExpr(raw)]: split on the first colon, trim both sides; no
    colon gives [expr: null]. *)
Definition parseSetExpr (raw : string) : set_expr :=
  match indexOf ":" raw with
  | None => mkSetExpr (trim raw) None
  | Some i => mkSetExpr (trim (slice_to i raw)) (Some (trim (slice_from (i + 1) raw)))
  end.

(** The result of [parsePush] when it is not [null]: [source] is [None]
    for [{ source: null }]. *)
Record push_spec := mkPush { source : option string }.

(** The match of [/^push\(([^)]+)\)$/]: the text is ["push("], then one
    or more characters other than [")"], then [")"] and the end.  The
    result is the captured group. *)
Definition match_push (e : string) : option string :=
  match strip_prefix "push(" e with
  | None => None
  | Some rest =>
      match indexOf ")" rest with
      | Some (S i) =>
          if (String.length rest =? S (S i))%nat then Some (slice_to (S i) rest) else None
      | _ => None
      end
  end.

(** [parsePush(expr)]; the outer [None] is [null]. *)
Definition parsePush (e : option string) : option push_spec :=
  match e with
  | None => None
  | Some e =>
      if String.eqb e "" then None
      else if String.eqb e "push" then Some (mkPush None)
      else
        match match_push e with
        | Some g => Some (mkPush (Some (trim g)))
        | None => None
        end
  end.

(** ** Numbers *)

(** Decimal to binary64, correctly rounded (to nearest, ties to even):
    the value is [m * 10^e] with [0 <= m].  Out of the range where the
    exact computation is needed the result is known: at or above [2^1100]
    the value overflows to an infinity, below [2^-1080] it rounds to a
    zero. *)
Definition of_decimal (neg : bool) (m e : Z) : float :=
  if (m =? 0)%Z then (if neg then neg_zero else zero)
  else if (0 <=? e)%Z then
    if (1100 <? Z.log2 m + 3 * e)%Z then (if neg then neg_infinity else infinity)
    else SF2Prim (binary_normalize prec emax (if neg then - (m * 10 ^ e) else m * 10 ^ e)%Z 0 neg)
  else
    let k := (- e)%Z in
    if (Z.log2 m + 1 - 3 * k <? -1080)%Z then (if neg then neg_zero else zero)
    else
      let s := (1100 + 4 * k)%Z in
      let d := (10 ^ k)%Z in
      let n := (m * 2 ^ s)%Z in
      let q := (n / d)%Z in
      let r := (n mod d)%Z in
      let l := if (r =? 0)%Z then loc_Exact else loc_Inexact (2 * r ?= d)%Z in
      SF2Prim (binary_round_aux prec emax neg q (- s)%Z l).

Definition digit_of (base : Z) (a : ascii) : option Z :=
  let n := Z.of_nat (nat_of_ascii a) in
  let v :=
    if ((48 <=? n) && (n <=? 57))%Z then Some (n - 48)%Z
    else if ((97 <=? n) && (n <=? 102))%Z then Some (n - 87)%Z
    else if ((65 <=? n) && (n <=? 70))%Z then Some (n - 55)%Z
    else None in
  match v with
  | Some d => if (d <? base)%Z then Some d else None
  | None => None
  end.

(** Read the longest prefix of digits in [base]: the value, the number
    of digits read, the rest. *)
Fixpoint take_digits (base : Z) (s : string) (acc : Z) (cnt : nat) : Z * nat * string :=
  match s with
  | String a s' =>
      match digit_of base a with
      | Some d => take_digits base s' (acc * base + d)%Z (S cnt)
      | None => (acc, cnt, s)
      end
  | EmptyString => (acc, cnt, s)
  end.

(** ExponentPart, optional: [e] or [E], an optional sign, digits.  The
    outer [None] is a malformed exponent. *)
Definition take_exponent (s : string) : option (Z * string) :=
  match s with
  | String c s1 =>
      if Ascii.eqb c "e" || Ascii.eqb c "E" then
        let '(neg, s2) :=
          match s1 with
          | String "-" t => (true, t)
          | String "+" t => (false, t)
          | _ => (false, s1)
          end in
        let '(v, cnt, rest) := take_digits 10 s2 0%Z 0 in
        match cnt with
        | O => None
        | S _ => Some (if neg then (- v)%Z else v, rest)
        end
      else Some (0%Z, s)
  | EmptyString => Some (0%Z, s)
  end.

(** StrUnsignedDecimalLiteral without [Infinity]: digits with an optional
    fraction and exponent, at least one digit before the exponent. *)
Definition take_unsigned_decimal (neg : bool) (s : string) : option (float * string) :=
  let '(ip, n1, s1) := take_digits 10 s 0%Z 0 in
  let '(m, n2, s2) :=
    match s1 with
    | String "." t => take_digits 10 t ip 0
    | _ => (ip, 0, s1)
    end in
  match n1 + n2 with
  | O => None
  | S _ =>
      match take_exponent s2 with
      | Some (ex, rest) => Some (of_decimal neg m (ex - Z.of_nat n2), rest)
      | None => None
      end
  end.

Definition parse_radix (base : Z) (digits : string) : float :=
  let '(v, cnt, rest) := take_digits base digits 0%Z 0 in
  match cnt, rest with
  | S _, EmptyString => SF2Prim (binary_normalize prec emax v 0 false)
  | _, _ => nan
  end.

(** StringToNumber: the numeric value of a string, [Number(s)]. *)
Definition StringToNumber (s : string) : float :=
  match trim s with
  | EmptyString => zero
  | String "0" (String "x" d) | String "0" (String "X" d) => parse_radix 16 d
  | String "0" (String "o" d) | String "0" (String "O" d) => parse_radix 8 d
  | String "0" (String "b" d) | String "0" (String "B" d) => parse_radix 2 d
  | t =>
      let '(neg, u) :=
        match t with
        | String "-" u => (true, u)
        | String "+" u => (false, u)
        | _ => (false, t)
        end in
      if String.eqb u "Infinity" then (if neg then neg_infinity else infinity)
      else
        match take_unsigned_decimal neg u with
        | Some (x, EmptyString) => x
        | _ => nan
        end
  end.

Definition isNaN (x : float) : bool := is_nan x.

(** Truthiness of a number: every number but [0], [-0] and [NaN]. *)
Definition num_truthy (x : float) : bool := negb (is_nan x || is_zero x).

(** ** JSON text *)

(** The tree a JSON text denotes.  An object keeps its members in the
    order of the text, repeated names included. *)
#[local] Set Warnings "-register-all".

Inductive json :=
| JNull
| JBool (b : bool)
| JNum (x : float)
| JStr (s : string)
| JArr (items : list json)
| JObj (members : list (string * json)).

(** JSON white space: space, tab, line feed, carriage return. *)
Fixpoint skip_ws (s : string) : string :=
  match s with
  | String a s' =>
      let n := nat_of_ascii a in
      if ((n =? 32) || (n =? 9) || (n =? 10) || (n =? 13))%nat then skip_ws s' else s
  | EmptyString => s
  end.

(** The UTF-8 encoding of a code point (a lone surrogate is encoded like
    any other three-byte code point). *)
Definition utf8_encode (cp : Z) : string :=
  let b (z : Z) := ascii_of_nat (Z.to_nat z) in
  (if cp <? 128 then String (b cp) ""
   else if cp <? 2048 then
     String (b (192 + cp / 64)) (String (b (128 + cp mod 64)) "")
   else if cp <? 65536 then
     String (b (224 + cp / 4096))
       (String (b (128 + (cp / 64) mod 64)) (String (b (128 + cp mod 64)) ""))
   else
     String (b (240 + cp / 262144))
       (String (b (128 + (cp / 4096) mod 64))
          (String (b (128 + (cp / 64) mod 64)) (String (b (128 + cp mod 64)) ""))))%Z.

Definition hex4 (a b c d : ascii) : option Z :=
  match digit_of 16 a, digit_of 16 b, digit_of 16 c, digit_of 16 d with
  | Some x, Some y, Some z, Some w => Some (((x * 16 + y) * 16 + z) * 16 + w)%Z
  | _, _, _, _ => None
  end.

(** The characters of a JSON string after its opening quote, up to the
    closing one: the string and the rest of the text.  A [\uXXXX] escape
    of a high surrogate followed by one of a low surrogate is one code
    point. *)
Fixpoint json_string_body (s : string) (acc : string) : option (string * string) :=
  match s with
  | EmptyString => None
  | String "034" rest => Some (str_rev acc, rest)
  | String "\" (String e rest) =>
      let simple (c : ascii) := json_string_body rest (String c acc) in
      if Ascii.eqb e "034" then simple "034"%char
      else if Ascii.eqb e "\" then simple "\"%char
      else if Ascii.eqb e "/" then simple "/"%char
      else if Ascii.eqb e "b" then simple "008"%char
      else if Ascii.eqb e "f" then simple "012"%char
      else if Ascii.eqb e "n" then simple "010"%char
      else if Ascii.eqb e "r" then simple "013"%char
      else if Ascii.eqb e "t" then simple "009"%char
      else if Ascii.eqb e "u" then
        match rest with
        | String h1 (String h2 (String h3 (String h4 rest1))) =>
            match hex4 h1 h2 h3 h4 with
            | None => None
            | Some hi =>
                let single := json_string_body rest1 (str_rev_onto (utf8_encode hi) acc) in
                if ((55296 <=? hi) && (hi <=? 56319))%Z then
                  match rest1 with
                  | String "\" (String "u" (String l1 (String l2 (String l3 (String l4 rest2))))) =>
                      match hex4 l1 l2 l3 l4 with
                      | Some lo =>
                          if ((56320 <=? lo) && (lo <=? 57343))%Z then
                            json_string_body rest2
                              (str_rev_onto
                                 (utf8_encode (65536 + (hi - 55296) * 1024 + (lo - 56320))%Z) acc)
                          else single
                      | None => single
                      end
                  | _ => single
                  end
                else single
            end
        | _ => None
        end
      else None
  | String "\" EmptyString => None
  | String c rest =>
      if (nat_of_ascii c <? 32)%nat then None else json_string_body rest (String c acc)
  end.

(** A JSON number: an optional minus, an integer part without a leading
    zero, an optional fraction with at least one digit, an optional
    exponent. *)
Definition json_number (s : string) : option (float * string) :=
  let '(neg, s0) := match s with String "-" t => (true, t) | _ => (false, s) end in
  let '(ip, n1, s1) := take_digits 10 s0 0%Z 0 in
  let leading_ok :=
    match n1, s0 with
    | O, _ => false
    | 1, _ => true
    | _, String "0" _ => false
    | _, _ => true
    end in
  if negb leading_ok then None
  else
    let frac :=
      match s1 with
      | String "." t =>
          let '(m, n2, s2) := take_digits 10 t ip 0 in
          match n2 with O => None | S _ => Some (m, n2, s2) end
      | _ => Some (ip, 0, s1)
      end in
    match frac with
    | None => None
    | Some (m, n2, s2) =>
        match take_exponent s2 with
        | Some (ex, rest) => Some (of_decimal neg m (ex - Z.of_nat n2), rest)
        | None => None
        end
    end.

(** Recursive descent over the text; [fuel] bounds the depth of the
    calls, and twice the length of the text plus two is always enough
    ([JSON_parse_text] below). *)
Fixpoint json_value (fuel : nat) (s : string) : option (json * string) :=
  match fuel with
  | O => None
  | S fuel' =>
      match skip_ws s with
      | String "{" r =>
          match skip_ws r with
          | String "}" r' => Some (JObj [], r')
          | r1 => json_members fuel' r1 []
          end
      | String "[" r =>
          match skip_ws r with
          | String "]" r' => Some (JArr [], r')
          | r1 => json_elements fuel' r1 []
          end
      | String "034" r =>
          match json_string_body r "" with
          | Some (str, r') => Some (JStr str, r')
          | None => None
          end
      | t =>
          match strip_prefix "true" t, strip_prefix "false" t, strip_prefix "null" t with
          | Some r, _, _ => Some (JBool true, r)
          | _, Some r, _ => Some (JBool false, r)
          | _, _, Some r => Some (JNull, r)
          | None, None, None =>
              match json_number t with
              | Some (x, r) => Some (JNum x, r)
              | None => None
              end
          end
      end
  end
with json_elements (fuel : nat) (s : string) (acc : list json) : option (json * string) :=
  match fuel with
  | O => None
  | S fuel' =>
      match json_value fuel' s with
      | Some (v, r) =>
          match skip_ws r with
          | String "," r' => json_elements fuel' r' (v :: acc)
          | String "]" r' => Some (JArr (rev (v :: acc)), r')
          | _ => None
          end
      | None => None
      end
  end
with json_members (fuel : nat) (s : string) (acc : list (string * json)) : option (json * string) :=
  match fuel with
  | O => None
  | S fuel' =>
      match skip_ws s with
      | String "034" r =>
          match json_string_body r "" with
          | Some (k, r1) =>
              match skip_ws r1 with
              | String ":" r2 =>
                  match json_value fuel' r2 with
                  | Some (v, r3) =>
                      match skip_ws r3 with
                      | String "," r4 => json_members fuel' r4 ((k, v) :: acc)
                      | String "}" r4 => Some (JObj (rev ((k, v) :: acc)), r4)
                      | _ => None
                      end
                  | None => None
                  end
              | _ => None
              end
          | None => None
          end
      | _ => None
      end
  end.

(** The tree of a JSON text; [None] when [JSON.parse] throws a
    SyntaxError. *)
Definition JSON_parse_text (s : string) : option json :=
  match json_value (2 * String.length s + 2) s with
  | Some (v, rest) =>
      match skip_ws rest with
      | EmptyString => Some v
      | _ => None
      end
  | None => None
  end.

(** ** Values and the heap of objects *)

Definition loc := positive.

Inductive value :=
| VUndef
| VNull
| VBool (b : bool)
| VNum (x : float)
| VStr (s : string)
| VRef (l : loc).

(** An ordinary object or an array.  [o_props] are its own enumerable
    properties in the order [Object.keys] lists them; for an array they
    are the properties that are no index, and [o_elems] are its elements
    by index, [None] where the array has a hole.  An ordinary object has
    no [o_elems].  Every object has the prototype of its kind
    ([Object.prototype], or [Array.prototype] for an array), and no value
    is a function. *)
Record object := mkObject {
  o_elems : option (list (option value));
  o_props : list (string * value)
}.

Abbreviation heap := (gmap loc object).

(** An array index: the canonical decimal form of an integer below
    [2^32 - 1]. *)
Definition array_index (k : string) : option Z :=
  let '(v, cnt, rest) := take_digits 10 k 0%Z 0 in
  match cnt, rest, k with
  | O, _, _ => None
  | _, String _ _, _ => None
  | 1, EmptyString, _ => Some v
  | _, EmptyString, String "0" _ => None
  | _, EmptyString, _ => if (v <? 4294967295)%Z then Some v else None
  end.

Section Props.

Context {V : Type}.

Fixpoint prop_get (k : string) (props : list (string * V)) : option V :=
  match props with
  | [] => None
  | (k', v) :: rest => if String.eqb k' k then Some v else prop_get k rest
  end.

Fixpoint prop_replace (k : string) (v : V) (props : list (string * V))
  : list (string * V) :=
  match props with
  | [] => []
  | (k', v') :: rest =>
      if String.eqb k' k then (k, v) :: rest else (k', v') :: prop_replace k v rest
  end.

(** A new index key goes before the first key that is a larger index or
    no index at all. *)
Fixpoint prop_insert_index (i : Z) (k : string) (v : V) (props : list (string * V))
  : list (string * V) :=
  match props with
  | [] => [(k, v)]
  | (k', v') :: rest =>
      match array_index k' with
      | Some j =>
          if (i <? j)%Z then (k, v) :: props else (k', v') :: prop_insert_index i k v rest
      | None => (k, v) :: props
      end
  end.

(** [o[k] = v] on the property list: an existing key keeps its place; a
    new one is placed as the property order of ECMAScript has it (array
    indices ascending, then the other keys in creation order). *)
Definition prop_set (k : string) (v : V) (props : list (string * V))
  : list (string * V) :=
  match prop_get k props with
  | Some _ => prop_replace k v props
  | None =>
      match array_index k with
      | Some i => prop_insert_index i k v props
      | None => props ++ [(k, v)]
      end
  end.

End Props.

(** The code units of a string, each as a string of its own: a character
    outside the basic plane is two code units (its surrogates). *)
Fixpoint code_units (s : string) : list string :=
  match s with
  | EmptyString => []
  | String a s1 =>
      let n := nat_of_ascii a in
      if (n <? 192)%nat then String a "" :: code_units s1
      else
        match s1 with
        | String b s2 =>
            if (n <? 224)%nat then String a (String b "") :: code_units s2
            else
              match s2 with
              | String c s3 =>
                  if (n <? 240)%nat then String a (String b (String c "")) :: code_units s3
                  else
                    match s3 with
                    | String d s4 =>
                        let z (x : ascii) := Z.of_nat (nat_of_ascii x) in
                        let cp := ((((z a mod 8) * 64 + z b mod 64) * 64 + z c mod 64) * 64
                                   + z d mod 64)%Z in
                        utf8_encode (55296 + (cp - 65536) / 1024)%Z
                          :: utf8_encode (56320 + (cp - 65536) mod 1024)%Z
                          :: code_units s4
                    | EmptyString => [s]
                    end
              | EmptyString => [s]
              end
        | EmptyString => [s]
        end
  end.

Definition Z_to_string (z : Z) : string := NilZero.string_of_int (Z.to_int z).

(** The keys of the elements an array has, from index [i] on. *)
Fixpoint elems_keys (i : nat) (es : list (option value)) : list string :=
  match es with
  | [] => []
  | Some _ :: rest => Z_to_string (Z.of_nat i) :: elems_keys (S i) rest
  | None :: rest => elems_keys (S i) rest
  end.

Definition elems_get (es : list (option value)) (i : nat) : option value :=
  match nth_error es i with
  | Some e => e
  | None => None
  end.

(** [a[i] = v]: an index past the end lengthens the array, leaving
    holes. *)
Fixpoint elems_set (i : nat) (v : value) (es : list (option value)) : list (option value) :=
  match i, es with
  | O, [] => [Some v]
  | O, _ :: rest => Some v :: rest
  | S i', [] => None :: elems_set i' v []
  | S i', e :: rest => e :: elems_set i' v rest
  end.

(** [Object.keys(o)] *)
Definition obj_keys (o : object) : list string :=
  match o_elems o with
  | Some es => elems_keys 0 es
  | None => []
  end ++ map fst (o_props o).

(** The own property [k] of [o], if it has one. *)
Definition obj_lookup (o : object) (k : string) : option value :=
  match o_elems o, array_index k with
  | Some es, Some i => elems_get es (Z.to_nat i)
  | _, _ => prop_get k (o_props o)
  end.

(** [o[k] = v] *)
Definition obj_set (k : string) (v : value) (o : object) : object :=
  match o_elems o, array_index k with
  | Some es, Some i => mkObject (Some (elems_set (Z.to_nat i) v es)) (o_props o)
  | _, _ => mkObject (o_elems o) (prop_set k v (o_props o))
  end.

Definition index_keys (n : nat) : list string :=
  map (fun i => Z_to_string (Z.of_nat i)) (seq 0 n).

(** [Object.keys(v)] for a value that is neither [null] nor [undefined]. *)
Definition js_keys (h : heap) (v : value) : list string :=
  match v with
  | VRef l =>
      match h !! l with
      | Some o => obj_keys o
      | None => []
      end
  | VStr s => index_keys (length (code_units s))
  | _ => []
  end.

(** [v[k]] for an own enumerable key. *)
Definition js_get (h : heap) (v : value) (k : string) : value :=
  match v with
  | VRef l =>
      match h !! l with
      | Some o => default VUndef (obj_lookup o k)
      | None => VUndef
      end
  | VStr s =>
      match array_index k with
      | Some i => default VUndef (VStr <$> nth_error (code_units s) (Z.to_nat i))
      | None => VUndef
      end
  | _ => VUndef
  end.

Definition truthy (v : value) : bool :=
  match v with
  | VUndef | VNull => false
  | VBool b => b
  | VNum x => num_truthy x
  | VStr s => negb (String.eqb s "")
  | VRef _ => true
  end.

Inductive js_type := TUndefined | TObject | TBoolean | TNumber | TString.

Definition typeof (v : value) : js_type :=
  match v with
  | VUndef => TUndefined
  | VNull | VRef _ => TObject
  | VBool _ => TBoolean
  | VNum _ => TNumber
  | VStr _ => TString
  end.

(** [v == null]. *)
Definition is_nullish (v : value) : bool :=
  match v with
  | VUndef | VNull => true
  | _ => false
  end.

(** Whether an object has an own property of this name (a name that is
    no index). *)
Definition has_own (k : string) (o : object) : bool :=
  match prop_get k (o_props o) with
  | Some _ => true
  | None => false
  end.

(** Whether the conversion of [v] to a primitive, with which [String(v)]
    and [Number(v)] begin, returns.  For an object it calls [toString]
    (the inherited [valueOf] gives the object back, and an own [valueOf]
    is no function).  No value of the heap is a function, so an object
    with an own property [toString] has nothing to call, and the
    conversion throws a TypeError.  The inherited [toString] of an
    ordinary object returns.  The one of an array is [join], unless the
    array has an own property [join] (no function either: the array is
    then written as an ordinary object is), and [join] converts to a
    string, in turn, every element that is neither [null] nor
    [undefined] nor a hole.  An array met again while its own elements
    are joined is written as the empty string: [seen] are the arrays
    being joined, and [fuel] bounds their number (the size of the heap is
    enough). *)
Fixpoint converts (fuel : nat) (seen : list loc) (h : heap) (v : value) : bool :=
  match v with
  | VRef l =>
      match h !! l with
      | Some o =>
          if has_own "toString" o then false
          else
            match o_elems o with
            | None => true
            | Some es =>
                if has_own "join" o then true
                else if existsb (Pos.eqb l) seen then true
                else
                  match fuel with
                  | O => true
                  | S f =>
                      forallb (fun e => match e with
                                        | Some x => is_nullish x || converts f (l :: seen) h x
                                        | None => true
                                        end) es
                  end
            end
      | None => true
      end
  | _ => true
  end.

(** The number of the string form of an array that converts.  An array
    of two or more elements has a comma in its string form, which no
    number has; the empty array gives [Number("")]; an array of one
    element gives the number of that element's string form, which for a
    number [x] is [x] again (the string form of a number denotes that
    number; the sign of a zero is lost), for [null], [undefined] and a
    hole is [""], for an ordinary object is ["[object Object]"], and for
    a nested array is found the same way.  [fuel] bounds the nesting
    followed; a nesting that never ends has the empty string form. *)
Fixpoint array_to_number (fuel : nat) (h : heap) (es : list (option value)) : float :=
  match es with
  | [] => zero
  | [e] =>
      match e with
      | None | Some VUndef | Some VNull => zero
      | Some (VBool _) => nan
      | Some (VNum x) => if is_zero x then zero else x
      | Some (VStr s) => StringToNumber s
      | Some (VRef l) =>
          match fuel, h !! l with
          | S f, Some o =>
              match o_elems o with
              | Some es' => if has_own "join" o then nan else array_to_number f h es'
              | None => nan
              end
          | _, _ => zero
          end
      end
  | _ :: _ :: _ => nan
  end.

(** [Number(v)]; [None] where it throws (the TypeError of a conversion
    that does not return). *)
Definition Number (h : heap) (v : value) : option float :=
  match v with
  | VUndef => Some nan
  | VNull => Some zero
  | VBool b => Some (if b then one else zero)
  | VNum x => Some x
  | VStr s => Some (StringToNumber s)
  | VRef l =>
      if converts (size h) [] h v then
        Some match h !! l with
             | Some o =>
                 match o_elems o with
                 | Some es =>
                     if has_own "join" o then nan else array_to_number (size h) h es
                 | None => nan
                 end
             | None => nan
             end
      else None
  end.

Fixpoint all_some {A : Type} (l : list (option A)) : option (list A) :=
  match l with
  | [] => Some []
  | None :: _ => None
  | Some x :: r =>
      match all_some r with
      | Some xs => Some (x :: xs)
      | None => None
      end
  end.

(** What [JSON.stringify(v)] serialises, as a tree.  The outer [None] is
    the TypeError for a cyclic structure ([fuel] counts the objects
    entered one inside another, and a structure without a cycle enters
    at most as many as the heap holds); the inner [None] is [undefined],
    which has no JSON text.  A property whose value is [undefined] is
    left out of an object and is [null] in an array; a number that is not
    finite is [null]; a negative zero is written ["0"]. *)
Fixpoint json_of (fuel : nat) (h : heap) (v : value) : option (option json) :=
  match v with
  | VUndef => Some None
  | VNull => Some (Some JNull)
  | VBool b => Some (Some (JBool b))
  | VNum x =>
      Some (Some (if is_finite x then JNum (if is_zero x then zero else x) else JNull))
  | VStr s => Some (Some (JStr s))
  | VRef l =>
      match fuel, h !! l with
      | S f, Some o =>
          match o_elems o with
          | Some es =>
              match all_some (map (fun e => match e with
                                            | Some v => json_of f h v
                                            | None => Some None
                                            end) es) with
              | Some ts => Some (Some (JArr (map (default JNull) ts)))
              | None => None
              end
          | None =>
              match all_some (map (fun kv => json_of f h (snd kv)) (o_props o)) with
              | Some ts =>
                  Some (Some (JObj (omap (fun kt => pair (fst kt) <$> snd kt)
                                         (combine (map fst (o_props o)) ts))))
              | None => None
              end
          end
      | _, _ => None
      end
  end.

Definition JSON_stringify (h : heap) (v : value) : option (option json) :=
  json_of (S (size h)) h v.

(** The value [JSON.parse] builds for a tree: every array and object is a
    new object of the heap.  A repeated member name keeps its first place
    and its last value. *)
Fixpoint alloc_json (t : json) (h : heap) : value * heap :=
  match t with
  | JNull => (VNull, h)
  | JBool b => (VBool b, h)
  | JNum x => (VNum x, h)
  | JStr s => (VStr s, h)
  | JArr items =>
      let '(vs, h1) :=
        (fix go (ts : list json) (h : heap) {struct ts} : list value * heap :=
           match ts with
           | [] => ([], h)
           | t :: ts' =>
               let '(v, h1) := alloc_json t h in
               let '(vs, h2) := go ts' h1 in
               (v :: vs, h2)
           end) items h in
      let l := fresh (dom h1) in
      (VRef l, <[l := mkObject (Some (map Some vs)) []]> h1)
  | JObj members =>
      let '(props, h1) :=
        (fix go (ms : list (string * json)) (props : list (string * value)) (h : heap)
             {struct ms} : list (string * value) * heap :=
           match ms with
           | [] => (props, h)
           | (k, t) :: ms' =>
               let '(v, h1) := alloc_json t h in
               go ms' (prop_set k v props) h1
           end) members [] h in
      let l := fresh (dom h1) in
      (VRef l, <[l := mkObject None props]> h1)
  end.

(** [JSON.parse(text)]: [None] when it throws. *)
Definition JSON_parse (text : string) (h : heap) : option (value * heap) :=
  match JSON_parse_text text with
  | Some t => Some (alloc_json t h)
  | None => None
  end.

(** [JSON.parse(JSON.stringify(v))], the text between the two left out:
    the tree [JSON.stringify] serialises is the tree [JSON.parse] reads
    back.  [None] when either throws ([JSON.parse(undefined)] does). *)
Definition json_clone (v : value) (h : heap) : option (value * heap) :=
  match JSON_stringify h v with
  | Some (Some t) => Some (alloc_json t h)
  | _ => None
  end.

(** [evalExpr(expr, current)]; [None] where it throws, which it does
    where [Number(current)] does.  The heap is read by [Number(current)]
    and grows when [JSON.parse] builds an object. *)
Definition evalExpr (expr : option string) (current : value) (h : heap)
  : option (value * heap) :=
  match expr with
  | None => Some (current, h)
  | Some e =>
      if String.eqb e "increment" then
        match Number h current with
        | Some n => Some (VNum ((if num_truthy n then n else zero) + 1)%float, h)
        | None => None
        end
      else if String.eqb e "decrement" then
        match Number h current with
        | Some n => Some (VNum ((if num_truthy n then n else zero) - 1)%float, h)
        | None => None
        end
      else if String.eqb e "toggle" then Some (VBool (negb (truthy current)), h)
      else if String.eqb e "true" then Some (VBool true, h)
      else if String.eqb e "false" then Some (VBool false, h)
      else if String.eqb e "null" then Some (VNull, h)
      else
        let n := StringToNumber e in
        if negb (isNaN n) && negb (String.eqb (trim e) "") then Some (VNum n, h)
        else
          match JSON_parse e h with
          | Some r => Some r
          | None => Some (VStr e, h)
          end
  end.

(** ** The world: heap, store, element tree, registry, collections *)

Definition node := nat.
Definition subid := nat.

(** A node of the tree.  [el_children] are its element children in
    document order; [el_text] is the text last assigned to it;
    [el_bound] is the [BOUND] marker; [el_type], [el_value] and
    [el_checked] are the properties of a form control; [el_inner] is the
    markup [innerHTML] yields (read from template elements only);
    [el_input] lists the paths of the [input] listeners attached to
    it. *)
Record element := mkElement {
  el_element : bool;
  el_tag : string;
  el_attrs : list (string * string);
  el_children : list node;
  el_text : string;
  el_bound : bool;
  el_type : string;
  el_value : string;
  el_checked : bool;
  el_inner : string;
  el_input : list string
}.

(** The update function a binding closes over: the node and what it
    writes on it. *)
Inductive binding :=
| BText (n : node)
| BValue (n : node)
| BFocus (n : node)
| BData (n : node) (dName : string)
| BAttr (n : node) (aName : string).

(** What a subscription calls: the update function of a binding, or the
    [reconcile] of a collection container. *)
Inductive listener :=
| LUpdate (b : binding)
| LReconcile (container : node).

(** The calls on the store the renderer makes and the listener calls the
    store makes, kept most recent first. *)
Inductive event :=
| ESet (p : string) (v : value)
| EBatchEnter
| EBatchLeave
| ENotify (id : subid) (p : string)
| ESubscribe (id : subid) (p : string)
| EUnsub (id : subid).

(** Modelled from the spec: the store's own state (the store is an
    external collaborator, consumed through get, set, subscribe and batch;
    its code is not among the sources).  [st_root] is the object holding
    the hierarchical mapping; [st_listeners] are the live subscriptions in
    the order they were made, each with the path it was made on;
    [st_depth] counts the batches entered and not left; [st_pending] are
    the paths written inside the outermost batch, first write first. *)
Record store := mkStore {
  st_root : loc;
  st_listeners : list (subid * string * listener);
  st_next : subid;
  st_depth : nat;
  st_pending : list string
}.

(** The closure state of one [setupCollection]: the collection path, the
    template markup, the [rendered] map in insertion order and
    [lastKeyStr]. *)
Record coll := mkColl {
  c_path : string;
  c_template : string;
  c_rendered : list (string * node);
  c_lastKeyStr : string
}.

Record world := mkWorld {
  w_heap : heap;
  w_store : store;
  w_dom : gmap node element;
  w_next_node : node;
  w_subs : list (node * subid);
  w_colls : gmap node coll;
  w_frames : list node;
  w_focus : option node;
  w_log : list event
}.

Definition set_heap (h : heap) (w : world) : world :=
  mkWorld h (w_store w) (w_dom w) (w_next_node w) (w_subs w) (w_colls w)
          (w_frames w) (w_focus w) (w_log w).

Definition set_store (s : store) (w : world) : world :=
  mkWorld (w_heap w) s (w_dom w) (w_next_node w) (w_subs w) (w_colls w)
          (w_frames w) (w_focus w) (w_log w).

Definition set_dom (d : gmap node element) (w : world) : world :=
  mkWorld (w_heap w) (w_store w) d (w_next_node w) (w_subs w) (w_colls w)
          (w_frames w) (w_focus w) (w_log w).

Definition set_next_node (n : node) (w : world) : world :=
  mkWorld (w_heap w) (w_store w) (w_dom w) n (w_subs w) (w_colls w)
          (w_frames w) (w_focus w) (w_log w).

Definition set_subs (s : list (node * subid)) (w : world) : world :=
  mkWorld (w_heap w) (w_store w) (w_dom w) (w_next_node w) s (w_colls w)
          (w_frames w) (w_focus w) (w_log w).

Definition set_colls (c : gmap node coll) (w : world) : world :=
  mkWorld (w_heap w) (w_store w) (w_dom w) (w_next_node w) (w_subs w) c
          (w_frames w) (w_focus w) (w_log w).

Definition set_frames (f : list node) (w : world) : world :=
  mkWorld (w_heap w) (w_store w) (w_dom w) (w_next_node w) (w_subs w) (w_colls w)
          f (w_focus w) (w_log w).

Definition set_focus (f : option node) (w : world) : world :=
  mkWorld (w_heap w) (w_store w) (w_dom w) (w_next_node w) (w_subs w) (w_colls w)
          (w_frames w) f (w_log w).

Definition log_event (e : event) (w : world) : world :=
  mkWorld (w_heap w) (w_store w) (w_dom w) (w_next_node w) (w_subs w) (w_colls w)
          (w_frames w) (w_focus w) (e :: w_log w).

(** How a call ends: it returns, or an exception leaves it.  Either way
    the world is as the call left it. *)
Inductive outcome :=
| Returns (w : world)
| Throws (w : world).

Definition state_of (r : outcome) : world :=
  match r with
  | Returns w | Throws w => w
  end.

(** Whether the call returned. *)
Definition returns (r : outcome) : bool :=
  match r with
  | Returns _ => true
  | Throws _ => false
  end.

(** One statement after another: the second runs if the first
    returns. *)
Definition and_then (r : outcome) (k : world -> outcome) : outcome :=
  match r with
  | Returns w => k w
  | Throws w => Throws w
  end.

(** A loop over a list: an exception in the body leaves the loop. *)
Fixpoint for_each {A : Type} (body : world -> A -> outcome) (l : list A) (w : world)
  : outcome :=
  match l with
  | [] => Returns w
  | a :: l' => and_then (body w a) (for_each body l')
  end.

(** *** The store *)

(** [s.split(c)]. *)
Fixpoint split_on (c : ascii) (s : string) (cur : string) : list string :=
  match s with
  | EmptyString => [str_rev cur]
  | String a s' =>
      if Ascii.eqb a c then str_rev cur :: split_on c s' ""
      else split_on c s' (String a cur)
  end.

Definition split_path (p : string) : list string := split_on "." p "".

(** Modelled from the spec: [get(path) -> value|absent].  The path is
    followed segment by segment from the root object; a segment missing
    from an object, or looked up in something that is no object, gives
    absent ([undefined]). *)
Definition read_path (h : heap) (root : loc) (segs : list string) : value :=
  fold_left (fun v k =>
               match v with
               | VRef _ => js_get h v k
               | _ => VUndef
               end) segs (VRef root).

Definition store_get (p : string) (w : world) : value :=
  read_path (w_heap w) (st_root (w_store w)) (split_path p).

Definition heap_set_prop (l : loc) (k : string) (v : value) (h : heap) : heap :=
  match h !! l with
  | Some o => <[l := obj_set k v o]> h
  | None => <[l := mkObject None [(k, v)]]> h
  end.

(** Modelled from the spec: the write of [set(path, value)].  The path is
    followed from the root object; where a segment before the last one
    does not hold an object, a new empty object is put there; the last
    segment is assigned on the object reached. *)
Fixpoint write_path (l : loc) (segs : list string) (v : value) (h : heap) : heap :=
  match segs with
  | [] => h
  | [k] => heap_set_prop l k v h
  | k :: rest =>
      match js_get h (VRef l) k with
      | VRef l' => write_path l' rest v h
      | _ =>
          let l' := fresh (dom h) in
          write_path l' rest v
            (heap_set_prop l k (VRef l') (<[l' := mkObject None []]> h))
      end
  end.

(** The parent of a path: the text before its last dot. *)
Definition parent_path (p : string) : option string :=
  match lastIndexOf "." p with
  | Some i => Some (slice_to i p)
  | None => None
  end.

(** Modelled from the spec: a write to path P notifies the subscribers of
    P and of every wildcard subscription matching P's parent (the
    subscription path is the parent followed by [".*"]). *)
Definition listens_to (sub_path p : string) : bool :=
  String.eqb sub_path p
  || match parent_path p with
     | Some q => String.eqb sub_path (q ++ ".*")
     | None => false
     end.

(** Modelled from the spec: [subscribe(path, listener) -> revoke()].  The
    handle the renderer keeps is the subscription's number. *)
Definition store_subscribe (p : string) (f : listener) (w : world) : subid * world :=
  let s := w_store w in
  let id := st_next s in
  (id,
   log_event (ESubscribe id p)
     (set_store (mkStore (st_root s) (st_listeners s ++ [(id, p, f)]) (S id)
                         (st_depth s) (st_pending s)) w)).

(** Calling the handle [subscribe] returned. *)
Definition store_unsub (id : subid) (w : world) : world :=
  let s := w_store w in
  log_event (EUnsub id)
    (set_store (mkStore (st_root s)
                        (List.filter (fun e => negb (Nat.eqb (fst (fst e)) id))
                                     (st_listeners s))
                        (st_next s) (st_depth s) (st_pending s)) w).

(** *** The element tree *)

Definition blank_element : element :=
  mkElement true "" [] [] "" false "" "" false "" [].

Definition el_at (d : gmap node element) (n : node) : element :=
  default blank_element (d !! n).

Definition dom_update (n : node) (f : element -> element) (w : world) : world :=
  set_dom (<[n := f (el_at (w_dom w) n)]> (w_dom w)) w.

Definition with_attrs (a : list (string * string)) (e : element) : element :=
  mkElement (el_element e) (el_tag e) a (el_children e) (el_text e) (el_bound e)
            (el_type e) (el_value e) (el_checked e) (el_inner e) (el_input e).

Definition with_children (c : list node) (e : element) : element :=
  mkElement (el_element e) (el_tag e) (el_attrs e) c (el_text e) (el_bound e)
            (el_type e) (el_value e) (el_checked e) (el_inner e) (el_input e).

(** [node.textContent = s]: the children go, the text is [s]. *)
Definition with_textContent (s : string) (e : element) : element :=
  mkElement (el_element e) (el_tag e) (el_attrs e) [] s (el_bound e)
            (el_type e) (el_value e) (el_checked e) (el_inner e) (el_input e).

Definition with_bound (b : bool) (e : element) : element :=
  mkElement (el_element e) (el_tag e) (el_attrs e) (el_children e) (el_text e) b
            (el_type e) (el_value e) (el_checked e) (el_inner e) (el_input e).

Definition with_value (s : string) (e : element) : element :=
  mkElement (el_element e) (el_tag e) (el_attrs e) (el_children e) (el_text e) (el_bound e)
            (el_type e) s (el_checked e) (el_inner e) (el_input e).

Definition with_checked (b : bool) (e : element) : element :=
  mkElement (el_element e) (el_tag e) (el_attrs e) (el_children e) (el_text e) (el_bound e)
            (el_type e) (el_value e) b (el_inner e) (el_input e).

Definition with_type (t : string) (e : element) : element :=
  mkElement (el_element e) (el_tag e) (el_attrs e) (el_children e) (el_text e) (el_bound e)
            t (el_value e) (el_checked e) (el_inner e) (el_input e).

Definition with_input (l : list string) (e : element) : element :=
  mkElement (el_element e) (el_tag e) (el_attrs e) (el_children e) (el_text e) (el_bound e)
            (el_type e) (el_value e) (el_checked e) (el_inner e) l.

(** [getAttribute]; [None] is [null], and [hasAttribute] is [is_Some]. *)
Fixpoint attr_get (name : string) (attrs : list (string * string)) : option string :=
  match attrs with
  | [] => None
  | (k, v) :: rest => if String.eqb k name then Some v else attr_get name rest
  end.

Definition hasAttribute (w : world) (n : node) (name : string) : bool :=
  match attr_get name (el_attrs (el_at (w_dom w) n)) with
  | Some _ => true
  | None => false
  end.

(** [setAttribute]: an attribute that is there keeps its place. *)
Fixpoint attr_set (name v : string) (attrs : list (string * string)) : list (string * string) :=
  match attrs with
  | [] => [(name, v)]
  | (k, v') :: rest =>
      if String.eqb k name then (k, v) :: rest else (k, v') :: attr_set name v rest
  end.

Definition attr_remove (name : string) (attrs : list (string * string))
  : list (string * string) :=
  List.filter (fun kv => negb (String.eqb (fst kv) name)) attrs.

(** ASCII lower case, and the test for an ASCII letter of either case. *)
Definition is_upper (a : ascii) : bool :=
  let n := nat_of_ascii a in ((65 <=? n) && (n <=? 90))%nat.

Definition is_lower (a : ascii) : bool :=
  let n := nat_of_ascii a in ((97 <=? n) && (n <=? 122))%nat.

Definition to_lower (a : ascii) : ascii :=
  if is_upper a then ascii_of_nat (nat_of_ascii a + 32) else a.

Fixpoint lower_case (s : string) : string :=
  match s with
  | EmptyString => ""
  | String a t => String (to_lower a) (lower_case t)
  end.

(** The names [node.dataset[name] = s] refuses with a SyntaxError: those
    with a hyphen before an ASCII lower-case letter. *)
Fixpoint hyphen_lower (s : string) : bool :=
  match s with
  | String a t =>
      (Ascii.eqb a "-" && match t with String c _ => is_lower c | EmptyString => false end)
      || hyphen_lower t
  | EmptyString => false
  end.

(** The attribute [node.dataset[name]] stands for: [data-], then the
    name with every ASCII upper-case letter replaced by a hyphen and the
    letter in lower case. *)
Fixpoint dashed (s : string) : string :=
  match s with
  | EmptyString => ""
  | String a t =>
      if is_upper a then String "-" (String (to_lower a) (dashed t)) else String a (dashed t)
  end.

Definition dataset_attr (name : string) : string := "data-" ++ dashed name.

(** [node.dataset[name] = s] for a name the setter accepts.  No [type]
    property depends on a [data-] attribute. *)
Definition dataset_set (n : node) (name s : string) (w : world) : world :=
  dom_update n (fun e => with_attrs (attr_set (dataset_attr name) s (el_attrs e)) e) w.

(** The descendants of a node in document order; [fuel] bounds the depth
    followed.  Nodes are numbered below [w_next_node], so that number is
    enough for any depth of a tree ([descendants_fuel] below). *)
Fixpoint descendants (fuel : nat) (d : gmap node element) (n : node) : list node :=
  match fuel with
  | O => []
  | S f => flat_map (fun c => c :: descendants f d c) (el_children (el_at d n))
  end.

(** [n.querySelectorAll('*')]. *)
Definition all_descendants (w : world) (n : node) : list node :=
  descendants (w_next_node w) (w_dom w) n.

(** [container.contains(n)]: [n] is the container or one of its
    descendants. *)
Definition contains (w : world) (container n : node) : bool :=
  existsb (Nat.eqb n) (container :: all_descendants w container).

(** [n.remove()]: [n] is taken out of its parent's children. *)
Definition remove_node (n : node) (w : world) : world :=
  set_dom ((fun e => with_children (List.filter (fun c => negb (Nat.eqb c n)) (el_children e)) e)
             <$> w_dom w) w.

(** [parent.appendChild(n)]: [n] leaves the parent it has and becomes the
    last child of [parent]. *)
Definition appendChild (parent n : node) (w : world) : world :=
  dom_update parent (fun e => with_children (el_children e ++ [n]) e) (remove_node n w).

(** What the markup parser yields for an element: the element as parsed
    (its children left empty) and the trees of its element children. *)
Inductive markup := Markup (e : element) (kids : list markup).

(** New nodes for a parsed tree, numbered in document order from [next]:
    the root's node, the next free number, the tree with the nodes in. *)
Fixpoint instantiate (m : markup) (next : node) (d : gmap node element)
  : node * node * gmap node element :=
  match m with
  | Markup e kids =>
      let '(ids, next', d') :=
        (fix go (ks : list markup) (next : node) (d : gmap node element) {struct ks}
           : list node * node * gmap node element :=
           match ks with
           | [] => ([], next, d)
           | k :: ks' =>
               let '(i, n1, d1) := instantiate k next d in
               let '(rest, n2, d2) := go ks' n1 d1 in
               (i :: rest, n2, d2)
           end) kids (S next) d in
      (next, next', <[next := with_children ids e]> d')
  end.

Fixpoint instantiate_all (ms : list markup) (next : node) (d : gmap node element)
  : list node * node * gmap node element :=
  match ms with
  | [] => ([], next, d)
  | m :: ms' =>
      let '(i, n1, d1) := instantiate m next d in
      let '(rest, n2, d2) := instantiate_all ms' n1 d1 in
      (i :: rest, n2, d2)
  end.

(** [document.createElement(tag)]. *)
Definition createElement (tag : string) (w : world) : node * world :=
  let n := w_next_node w in
  (n, set_next_node (S n)
        (set_dom (<[n := mkElement true tag [] [] "" false "" "" false "" []]> (w_dom w)) w)).

(** [a.join(sep)] on strings. *)
Fixpoint join (sep : string) (l : list string) : string :=
  match l with
  | [] => ""
  | [x] => x
  | x :: rest => x ++ sep ++ join sep rest
  end.

(** ** A host and a document for the examples *)

(** A stand-in for the host's number formatting: whole numbers are
    written in decimal, as [Number::toString] writes them below [1e21];
    no fraction is written. *)
Definition sample_number_to_string (x : float) : string :=
  match Prim2SF x with
  | S754_zero _ => "0"
  | S754_nan => "NaN"
  | S754_infinity s => if s then "-Infinity" else "Infinity"
  | S754_finite s m e =>
      let n := if (0 <=? e)%Z then (Zpos m * 2 ^ e)%Z else (Zpos m / 2 ^ (- e))%Z in
      Z_to_string (if s then (- n)%Z else n)
  end.

(** A stand-in for the host's markup parser: the root elements are
    separated by semicolons, each one a tag name followed by
    [name=value] attributes separated by spaces; no element has
    children. *)
Definition sample_attr (s : string) : string * string :=
  match indexOf "=" s with
  | Some i => (slice_to i s, slice_from (i + 1) s)
  | None => (s, "")
  end.

Definition sample_element (s : string) : list markup :=
  match split_on " " s "" with
  | tag :: attrs =>
      if String.eqb tag "" then []
      else [Markup (mkElement true tag (map sample_attr attrs) [] "" false "" "" false "" []) []]
  | [] => []
  end.

Definition sample_parser (s : string) : list markup :=
  flat_map sample_element (split_on ";" s "").

(** A stand-in for the host's check of attribute names: one character
    or more, none of them ASCII white space, NUL, [/], [=] or [>]. *)
Fixpoint name_chars (s : string) : bool :=
  match s with
  | EmptyString => true
  | String a t =>
      let n := nat_of_ascii a in
      negb ((n =? 0) || (n =? 9) || (n =? 10) || (n =? 12) || (n =? 13) || (n =? 32)
            || (n =? 47) || (n =? 61) || (n =? 62))%nat
      && name_chars t
  end.

Definition sample_valid_attribute_name (s : string) : bool :=
  negb (String.eqb s "") && name_chars s.

(** A stand-in for the host's [type] property: an [input] has the type
    its attribute names, and [text] without one. *)
Definition sample_type_property (tag : string) (attrs : list (string * string))
  : option string :=
  if String.eqb tag "input" then Some (default "text" (attr_get "type" attrs)) else None.

Definition sample_el (tag : string) (attrs : list (string * string)) (kids : list node)
           (inner : string) : element :=
  mkElement true tag attrs kids "" false "" "" false inner [].

(** A body holding a list container with its template, and a span bound
    to the draft's text. *)
Definition sample_dom (template : string) : gmap node element :=
  <[0 := sample_el "body" [] [1; 3] ""]>
  (<[1 := sample_el "ul" [("each", "todos")] [2] ""]>
  (<[2 := sample_el "template" [] [] template]>
  (<[3 := sample_el "span" [("bind-text", "draft.text")] [] ""]> ∅))).

Definition sample_item : string := "li bind-text={_path}.text bind-data-done={_path}.done".

(** A store holding a draft and three todos. *)
Definition sample_heap : heap :=
  <[1%positive := mkObject None [("draft", VRef 2%positive); ("todos", VRef 3%positive)]]>
  (<[2%positive := mkObject None [("text", VStr "X"); ("done", VBool true)]]>
  (<[3%positive := mkObject None [("t1", VRef 4%positive); ("t2", VRef 5%positive);
                                   ("t3", VRef 6%positive)]]>
  (<[4%positive := mkObject None [("text", VStr "one"); ("done", VBool false)]]>
  (<[5%positive := mkObject None [("text", VStr "two"); ("done", VBool true)]]>
  (<[6%positive := mkObject None [("text", VStr "three"); ("done", VBool false)]]> ∅))))).

Definition sample_world : world :=
  mkWorld sample_heap (mkStore 1%positive [] 0 0 []) (sample_dom sample_item) 4 [] ∅ [] None [].

(** A store whose collection is [{a: 1, b: 2}]. *)
Definition sample_heap_ab : heap :=
  <[1%positive := mkObject None [("todos", VRef 2%positive)]]>
  (<[2%positive := mkObject None [("a", VNum 1); ("b", VNum 2)]]> ∅).

Definition sample_world_ab (template : string) : world :=
  mkWorld sample_heap_ab (mkStore 1%positive [] 0 0 []) (sample_dom template) 4 [] ∅ [] None [].

(** ** The mount *)

Section Renderer.

(** The host's part: the string form of a number ([Number::toString]);
    the markup parser behind [innerHTML], which yields the trees of the
    root elements of a fragment in order; the names the host accepts for
    an attribute ([setAttribute] and the setter of [dataset] throw an
    InvalidCharacterError for any other, the empty name among them); and
    the [type] property of the elements that take it from their tag and
    attributes (an [input], a [button], a [link]), [None] for an element
    whose [type] does not follow them. *)
Variable number_to_string : float -> string.
Variable parseFragment : string -> list markup.
Variable valid_attribute_name : string -> bool.
Variable type_property : string -> list (string * string) -> option string.

(** [String(v)] for a value of the heap; [None] where it throws (the
    conversion to a primitive does not return, see [converts]).  An
    array is its elements joined by commas, [null], [undefined] and the
    holes among them empty; an array met again while its own elements
    are joined is empty; [fuel] bounds the nesting followed. *)
Fixpoint to_string (fuel : nat) (seen : list loc) (h : heap) (v : value) : option string :=
  match v with
  | VUndef => Some "undefined"
  | VNull => Some "null"
  | VBool true => Some "true"
  | VBool false => Some "false"
  | VNum x => Some (number_to_string x)
  | VStr s => Some s
  | VRef l =>
      match h !! l with
      | Some o =>
          if has_own "toString" o then None
          else
            match o_elems o with
            | None => Some "[object Object]"
            | Some es =>
                if has_own "join" o then Some "[object Array]"
                else if existsb (Pos.eqb l) seen then Some ""
                else
                  match fuel with
                  | O => Some ""
                  | S f =>
                      join "," <$>
                        all_some
                          (map (fun e => match e with
                                         | Some x =>
                                             if is_nullish x then Some ""
                                             else to_string f (l :: seen) h x
                                         | None => Some ""
                                         end) es)
                  end
            end
      | None => Some ""
      end
  end.

Definition String_ (h : heap) (v : value) : option string := to_string (size h) [] h v.

(** [v != null ? String(v) : ''] *)
Definition text_of (h : heap) (v : value) : option string :=
  if is_nullish v then Some "" else String_ h v.

(** *** Attributes *)

(** What the host makes of the [type] property when the attributes of
    an element have changed.  [el_value] and [el_checked] are the value
    and the checkedness as last written or typed: what the host derives
    for them from the attributes [value] and [checked] of a control
    that was never written or typed into is outside the model. *)
Definition reflect_type (e : element) : element :=
  match type_property (el_tag e) (el_attrs e) with
  | Some t => with_type t e
  | None => e
  end.

(** [setAttribute] and [removeAttribute] with a name the host accepts,
    on an element of an HTML document: the name is put in ASCII lower
    case; an attribute that is there keeps its place. *)
Definition setAttribute (n : node) (name v : string) (w : world) : world :=
  dom_update n
    (fun e => reflect_type (with_attrs (attr_set (lower_case name) v (el_attrs e)) e)) w.

Definition removeAttribute (n : node) (name : string) (w : world) : world :=
  dom_update n
    (fun e => reflect_type (with_attrs (attr_remove (lower_case name) (el_attrs e)) e)) w.

(** *** Binding helpers *)

(** The update functions of [scanBindings], applied to a value.  Each
    one but the one of [bind-focus] begins with [String(v)] for a value
    that is neither [null] nor [undefined], which can throw.  The
    setter of [dataset] throws for a name with a hyphen before a
    lower-case letter and for one that gives no attribute name the host
    accepts, and [setAttribute] throws for a name the host does not
    accept; [removeAttribute] checks no name.  An update function that
    throws has changed nothing. *)
Definition updateFn (b : binding) (v : value) (w : world) : outcome :=
  match b with
  | BText n =>
      match text_of (w_heap w) v with
      | Some s => Returns (dom_update n (with_textContent s) w)
      | None => Throws w
      end
  | BValue n =>
      match text_of (w_heap w) v with
      | Some s =>
          let e := el_at (w_dom w) n in
          Returns
            (if String.eqb (el_type e) "checkbox" then
               if negb (Bool.eqb (el_checked e) (truthy v))
               then dom_update n (with_checked (truthy v)) w else w
             else
               if negb (String.eqb (el_value e) s)
               then dom_update n (with_value s) w else w)
      | None => Throws w
      end
  | BFocus n =>
      Returns (if truthy v then set_frames (w_frames w ++ [n]) w else w)
  | BData n dName =>
      match text_of (w_heap w) v with
      | Some s =>
          if hyphen_lower dName || negb (valid_attribute_name (dataset_attr dName))
          then Throws w
          else Returns (dataset_set n dName s w)
      | None => Throws w
      end
  | BAttr n aName =>
      if negb (is_nullish v) then
        match String_ (w_heap w) v with
        | Some s =>
            if valid_attribute_name aName
            then Returns (setAttribute n aName s w) else Throws w
        | None => Throws w
        end
      else Returns (removeAttribute n aName w)
  end.

(** The callback [bind-focus] hands to [requestAnimationFrame], run for
    the first queued request: the node is focused when it is laid out
    ([offsetParent] is not [null]). *)
Definition run_frame (laid_out : world -> node -> bool) (w : world) : world :=
  match w_frames w with
  | [] => w
  | n :: rest =>
      let w1 := set_frames rest w in
      if laid_out w1 n then set_focus (Some n) w1 else w1
  end.

(** [addBinding(path, node, updateFn)]: the update function is called
    first, and a call that throws leaves no subscription behind. *)
Definition addBinding (p : string) (n : node) (b : binding) (w : world) : outcome :=
  and_then (updateFn b (store_get p w) w)
    (fun w1 =>
       let '(unsub, w2) := store_subscribe p (LUpdate b) w1 in
       Returns (set_subs (w_subs w2 ++ [(n, unsub)]) w2)).

(** [subs.splice(i, 1)] *)
Definition splice1 {A : Type} (i : nat) (l : list A) : list A :=
  firstn i l ++ skipn (S i) l.

(** The loop of [cleanupWithin]: [i] is one more than the index the next
    iteration looks at. *)
Fixpoint cleanup_loop (container : node) (i : nat) (w : world) : world :=
  match i with
  | O => w
  | S i' =>
      cleanup_loop container i'
        match nth_error (w_subs w) i' with
        | Some (n, unsub) =>
            if contains w container n then
              let w1 := store_unsub unsub w in
              set_subs (splice1 i' (w_subs w1)) w1
            else w
        | None => w
        end
  end.

(** [cleanupWithin(container)] *)
Definition cleanupWithin (container : node) (w : world) : world :=
  cleanup_loop container (length (w_subs w)) w.

(** *** Scan for bind-* attributes *)

(** The body of the loop over [Array.from(node.attributes)].  [name] and
    [v0] are an attribute as the loop began; its value is read when its
    turn comes, from the node if it is still on it. *)
Definition scan_attr (n : node) (w : world) (attr : string * string) : outcome :=
  let name := fst attr in
  let v := default (snd attr) (attr_get name (el_attrs (el_at (w_dom w) n))) in
  match strip_prefix "bind-data-" name with
  | Some dName => addBinding v n (BData n dName) w
  | None =>
      match strip_prefix "bind-attr-" name with
      | Some aName => addBinding v n (BAttr n aName) w
      | None => Returns w
      end
  end.

Definition attr_or_empty (w : world) (n : node) (name : string) : string :=
  default "" (attr_get name (el_attrs (el_at (w_dom w) n))).

(** The four blocks of the loop over [nodes], in the order of the source:
    [bind-text], [bind-value] (with its [input] listener), [bind-focus],
    and the loop over the attributes for [bind-data-*] and
    [bind-attr-*]. *)
Definition scan_text (n : node) (w : world) : outcome :=
  if hasAttribute w n "bind-text"
  then addBinding (attr_or_empty w n "bind-text") n (BText n) w else Returns w.

Definition scan_value (n : node) (w : world) : outcome :=
  if hasAttribute w n "bind-value" then
    let p := attr_or_empty w n "bind-value" in
    and_then (addBinding p n (BValue n) w)
      (fun w => Returns (dom_update n (fun e => with_input (el_input e ++ [p]) e) w))
  else Returns w.

Definition scan_focus (n : node) (w : world) : outcome :=
  if hasAttribute w n "bind-focus"
  then addBinding (attr_or_empty w n "bind-focus") n (BFocus n) w else Returns w.

Definition scan_family (n : node) (w : world) : outcome :=
  for_each (scan_attr n) (el_attrs (el_at (w_dom w) n)) w.

(** The body of the loop over [nodes]: a node that carries the marker is
    passed over; any other gets the marker, and then its bindings. *)
Definition scan_node (w : world) (n : node) : outcome :=
  if el_bound (el_at (w_dom w) n) then Returns w
  else
    and_then (scan_text n (dom_update n (with_bound true) w))
      (fun w => and_then (scan_value n w)
                  (fun w => and_then (scan_focus n w) (scan_family n))).

(** [scanBindings(el)] *)
Definition scanBindings (el : node) (w : world) : outcome :=
  let nodes :=
    if el_element (el_at (w_dom w) el) then el :: all_descendants w el else [] in
  for_each scan_node nodes w.

(** *** Keyed collections *)

(** The replacement text of [String.prototype.replace] for one match:
    [$$] is a dollar, [$&] the matched text, [$`] the text before the
    match and [$'] the text after it; the patterns here capture nothing,
    so every other dollar stands for itself. *)
Fixpoint expand_replacement (r matched before after : string) : string :=
  match r with
  | EmptyString => ""
  | String "$" (String c r' as t) =>
      if Ascii.eqb c "$" then String "$" (expand_replacement r' matched before after)
      else if Ascii.eqb c "&" then matched ++ expand_replacement r' matched before after
      else if Ascii.eqb c "`" then before ++ expand_replacement r' matched before after
      else if Ascii.eqb c "'" then after ++ expand_replacement r' matched before after
      else String "$" (expand_replacement t matched before after)
  | String a r' => String a (expand_replacement r' matched before after)
  end.

(** [s.replace(/pat/g, repl)] for a pattern that is a fixed text of one
    character or more.  [before] is the text already passed, reversed;
    [skip] counts the characters of the current match still to pass. *)
Fixpoint replace_all (pat repl : string) (before : string) (skip : nat) (s : string) : string :=
  match s with
  | EmptyString => ""
  | String a s' =>
      match skip with
      | S k => replace_all pat repl (String a before) k s'
      | O =>
          match strip_prefix pat s with
          | Some after =>
              expand_replacement repl pat (str_rev before) after
              ++ replace_all pat repl (String a before) (String.length pat - 1) s'
          | None => String a (replace_all pat repl (String a before) 0 s')
          end
      end
  end.

(** [resolve(html, key)] *)
Definition resolve (collPath html key : string) : string :=
  replace_all "{_path}" (collPath ++ "." ++ key) "" 0
    (replace_all "{_key}" key "" 0 html).

Definition rendered_has (k : string) (r : list (string * node)) : bool :=
  existsb (fun e => String.eqb (fst e) k) r.

(** [rendered.set(k, el)]: a key that is there keeps its place. *)
Fixpoint rendered_set (k : string) (el : node) (r : list (string * node))
  : list (string * node) :=
  match r with
  | [] => [(k, el)]
  | (k', el') :: rest =>
      if String.eqb k' k then (k', el) :: rest else (k', el') :: rendered_set k el rest
  end.

Definition rendered_delete (k : string) (r : list (string * node)) : list (string * node) :=
  List.filter (fun e => negb (String.eqb (fst e) k)) r.

Definition with_rendered (r : list (string * node)) (c : coll) : coll :=
  mkColl (c_path c) (c_template c) r (c_lastKeyStr c).

Definition with_lastKeyStr (s : string) (c : coll) : coll :=
  mkColl (c_path c) (c_template c) (c_rendered c) s.

Definition coll_update (container : node) (f : coll -> coll) (w : world) : world :=
  match w_colls w !! container with
  | Some st => set_colls (<[container := f st]> (w_colls w)) w
  | None => w
  end.

(** [tmp.innerHTML = html]: the children of [tmp] are the new nodes of
    the parsed root elements. *)
Definition set_innerHTML (tmp : node) (html : string) (w : world) : world :=
  let '(ids, next, d) := instantiate_all (parseFragment html) (w_next_node w) (w_dom w) in
  dom_update tmp (with_children ids) (set_next_node next (set_dom d w)).

(** [n.firstElementChild] *)
Definition firstElementChild (w : world) (n : node) : option node :=
  head (el_children (el_at (w_dom w) n)).

(** The keys [reconcile] works with:
    [Object.keys(coll).filter(k => coll[k] != null)] for
    [coll = store.get(collPath) || {}]. *)
Definition present_keys (collPath : string) (w : world) : list string :=
  let v := store_get collPath w in
  if truthy v
  then List.filter (fun k => negb (is_nullish (js_get (w_heap w) v k))) (js_keys (w_heap w) v)
  else [].

(** The body of the loop "Remove deleted items", for one entry of
    [rendered]. *)
Definition remove_step (container : node) (keys : list string) (w : world)
           (entry : string * node) : world :=
  let '(k, el) := entry in
  if existsb (String.eqb k) keys then w
  else
    let w := cleanupWithin el w in
    let w := remove_node el w in
    coll_update container (fun c => with_rendered (rendered_delete k (c_rendered c)) c) w.

(** The body of the loop "Add new items", for one key.  ([key] is a name
    the setter of [dataset] accepts in every host.)  The scan of the new
    element comes last: when it throws, the element is in the tree and
    in the mapping. *)
Definition add_step (container : node) (w : world) (k : string) : outcome :=
  match w_colls w !! container with
  | None => Returns w
  | Some st =>
      if rendered_has k (c_rendered st) then Returns w
      else
        let html := resolve (c_path st) (c_template st) k in
        let '(tmp, w) := createElement "div" w in
        let w := set_innerHTML tmp html w in
        match firstElementChild w tmp with
        | None => Returns w
        | Some el =>
            let w := dataset_set el "key" k w in
            let w := appendChild container el w in
            let w :=
              coll_update container
                (fun c => with_rendered (rendered_set k el (c_rendered c)) c) w in
            scanBindings el w
        end
  end.

(** [reconcile()] of the collection set up on [container].  The
    signature is kept before the loops run: a pass that throws is not
    taken up again by the next call. *)
Definition reconcile (container : node) (w : world) : outcome :=
  match w_colls w !! container with
  | None => Returns w
  | Some st =>
      let keys := present_keys (c_path st) w in
      let keyStr := join "," keys in
      if String.eqb keyStr (c_lastKeyStr st) then Returns w
      else
        let w := coll_update container (with_lastKeyStr keyStr) w in
        let w := fold_left (remove_step container keys) (c_rendered st) w in
        for_each (add_step container) keys w
  end.

(** *** Notification *)

Definition run_listener (f : listener) (v : value) (w : world) : outcome :=
  match f with
  | LUpdate b => updateFn b v w
  | LReconcile container => reconcile container w
  end.

Definition subscribed (id : subid) (w : world) : bool :=
  existsb (fun e => Nat.eqb (fst (fst e)) id) (st_listeners (w_store w)).

(** Modelled from the spec: one notification of a write to [p].  The
    listeners subscribed when it starts are called in subscription order
    with the value now at [p], each one only if it is still subscribed
    when its turn comes.  The spec does not say what the store does with
    a listener that throws: here the exception leaves the notification,
    and with it the call of the store that made it. *)
Definition notify (p : string) (w : world) : outcome :=
  for_each
    (fun w e =>
       let '(id, _, f) := e in
       if subscribed id w
       then run_listener f (store_get p w) (log_event (ENotify id p) w)
       else Returns w)
    (List.filter (fun e => listens_to (snd (fst e)) p) (st_listeners (w_store w))) w.

Definition with_batch (depth : nat) (pending : list string) (s : store) : store :=
  mkStore (st_root s) (st_listeners s) (st_next s) depth pending.

(** Modelled from the spec: [set(path, value)] writes and triggers the
    notification; inside a batch the notification waits for the flush. *)
Definition store_set (p : string) (v : value) (w : world) : outcome :=
  let s := w_store w in
  let w := set_heap (write_path (st_root s) (split_path p) v (w_heap w)) w in
  let w := log_event (ESet p v) w in
  match st_depth s with
  | O => notify p w
  | S _ =>
      Returns (if existsb (String.eqb p) (st_pending s) then w
               else set_store (with_batch (st_depth s) (st_pending s ++ [p]) s) w)
  end.

(** Modelled from the spec: [batch(fn)] runs [fn] synchronously, then
    flushes exactly one notification pass: one notification for each path
    written, in the order of the first writes.  A batch inside a batch
    leaves the flush to the outer one.  When [fn] throws, the exception
    leaves the batch and nothing is flushed. *)
Definition store_batch (fn : world -> outcome) (w : world) : outcome :=
  let s := w_store w in
  let w := log_event EBatchEnter (set_store (with_batch (S (st_depth s)) (st_pending s) s) w) in
  and_then (fn w)
    (fun w =>
       let s := w_store w in
       let w := log_event EBatchLeave w in
       match st_depth s with
       | 1 =>
           for_each (fun w p => notify p w) (st_pending s)
                    (set_store (with_batch 0 [] s) w)
       | d => Returns (set_store (with_batch (pred d) (st_pending s) s) w)
       end).

(** *** Delegated action execution *)

(** The value a pushed source's field is reset to. *)
Definition zero_value (v : value) : value :=
  match typeof v with
  | TString => VStr ""
  | TBoolean => VBool false
  | TNumber => VNum zero
  | _ => VNull
  end.

(** The key of a pushed entry: [`t_${Date.now()}`], for the integer
    [now] the clock gives. *)
Definition push_key (now : Z) : string := "t_" ++ Z_to_string now.

(** The function [executeSet] hands to [store.batch] for a push; it
    throws where the copy cannot be made. *)
Definition push_body (now : Z) (path sourcePath : string) (src : value) (w : world)
  : outcome :=
  match json_clone src (w_heap w) with
  | None => Throws w
  | Some (copy, h) =>
      and_then (store_set (path ++ "." ++ push_key now) copy (set_heap h w))
        (fun w =>
           for_each
             (fun w k =>
                store_set (sourcePath ++ "." ++ k)
                          (zero_value (js_get (w_heap w) src k)) w)
             (js_keys (w_heap w) src) w)
  end.

(** The object [updated] of the delete branch: the keys of [parent] but
    [key], each with the value [parent] has for it.  ([parent] is
    [store.get(parentPath) || {}]: a value that is not truthy has no
    keys.)  The assignment [updated[k] = parent[k]] makes an own
    property for every key but [__proto__]: for that key it calls the
    setter [updated] inherits, which makes no property. *)
Definition without_key (h : heap) (parent : value) (key : string) : list (string * value) :=
  fold_left
    (fun props k =>
       if negb (String.eqb k key) then
         if String.eqb k "__proto__" then props else prop_set k (js_get h parent k) props
       else props)
    (if truthy parent then js_keys h parent else []) [].

(** [executeSet(raw)], run when the clock reads [now]. *)
Definition executeSet (now : Z) (raw : string) (w : world) : outcome :=
  let path := path (parseSetExpr raw) in
  let expr := expr (parseSetExpr raw) in
  if match expr with Some e => String.eqb e "delete" | None => false end then
    match lastIndexOf "." path with
    | None => Returns w
    | Some dot =>
        let parentPath := slice_to dot path in
        let key := slice_from (dot + 1) path in
        let parent := store_get parentPath w in
        let updated := fresh (dom (w_heap w)) in
        let w :=
          set_heap (<[updated := mkObject None (without_key (w_heap w) parent key)]> (w_heap w))
                   w in
        store_set parentPath (VRef updated) w
    end
  else
    match parsePush expr with
    | Some push =>
        match source push with
        | None => Returns w
        | Some sourcePath =>
            if String.eqb sourcePath "" then Returns w
            else
              let src := store_get sourcePath w in
              match negb (truthy src), typeof src with
              | false, TObject => store_batch (push_body now path sourcePath src) w
              | _, _ => Returns w
              end
        end
    | None =>
        match evalExpr expr (store_get path w) (w_heap w) with
        | Some (v, h) => store_set path v (set_heap h w)
        | None => Throws w
        end
    end.

(** *** Event delegation *)

Definition parent_of (w : world) (n : node) : option node :=
  fst <$> head (List.filter (fun kv => existsb (Nat.eqb n) (el_children (snd kv)))
                            (map_to_list (w_dom w))).

(** [n.closest('[attr]')]: the nearest of [n] and its ancestors that has
    the attribute. *)
Fixpoint closest (fuel : nat) (w : world) (n : node) (attr : string) : option node :=
  if hasAttribute w n attr then Some n
  else
    match fuel with
    | O => None
    | S f =>
        match parent_of w n with
        | Some p => closest f w p attr
        | None => None
        end
    end.

(** The three listeners [mount] puts on [root], as functions of the
    event's target: click, focusout, and keydown with its key. *)
Definition delegate (attr : string) (root target : node) (now : Z) (w : world) : outcome :=
  match closest (w_next_node w) w target attr with
  | Some t =>
      if contains w root t then executeSet now (attr_or_empty w t attr) w else Returns w
  | None => Returns w
  end.

Definition on_click := delegate "set".
Definition on_focusout := delegate "set-blur".


(** The [input] listeners [bind-value] puts on a node. *)
Definition on_input (n : node) (w : world) : outcome :=
  for_each
    (fun w p =>
       let e := el_at (w_dom w) n in
       store_set p (if String.eqb (el_type e) "checkbox"
                    then VBool (el_checked e) else VStr (el_value e)) w)
    (el_input (el_at (w_dom w) n)) w.

(** *** Setting up *)

(** [setupCollection(container)] *)
Definition setupCollection (w : world) (container : node) : outcome :=
  let collPath := attr_get "each" (el_attrs (el_at (w_dom w) container)) in
  let tpl := head (List.filter (fun n => String.eqb (el_tag (el_at (w_dom w) n)) "template")
                               (all_descendants w container)) in
  match collPath, tpl with
  | Some collPath, Some tpl =>
      if String.eqb collPath "" then Returns w
      else
        let templateHTML := trim (el_inner (el_at (w_dom w) tpl)) in
        let w := set_colls (<[container := mkColl collPath templateHTML [] ""]> (w_colls w)) w in
        let '(u1, w) := store_subscribe collPath (LReconcile container) w in
        let '(u2, w) := store_subscribe (collPath ++ ".*") (LReconcile container) w in
        let w := set_subs (w_subs w ++ [(container, u1)]) w in
        let w := set_subs (w_subs w ++ [(container, u2)]) w in
        reconcile container w
  | _, _ => Returns w
  end.

(** [mount(store, root)], the listeners apart.  The cleanup function is
    returned last: a mount that throws hands none out. *)
Definition mount (root : node) (w : world) : outcome :=
  and_then
    (for_each setupCollection
              (List.filter (fun n => hasAttribute w n "each") (all_descendants w root)) w)
    (scanBindings root).

(** The cleanup function [mount] returns. *)
Definition teardown (w : world) : world :=
  fold_left (fun w s => store_unsub (snd s) w) (w_subs w) w.

(** ** Properties *)

(** *** Calls that can throw *)

Lemma and_then_returns (r : outcome) (k : world -> outcome) (w' : world) :
  and_then r k = Returns w' -> exists w1, r = Returns w1 /\ k w1 = Returns w'.
Proof. destruct r as [w1|w1]; cbn; [eauto | discriminate]. Qed.

Lemma for_each_cons_returns {A : Type} (body : world -> A -> outcome) (a : A) (l : list A)
      (w w' : world) :
  for_each body (a :: l) w = Returns w' ->
  exists w1, body w a = Returns w1 /\ for_each body l w1 = Returns w'.
Proof. apply and_then_returns. Qed.

Lemma for_each_app {A : Type} (body : world -> A -> outcome) (l1 l2 : list A) (w : world) :
  for_each body (l1 ++ l2) w = and_then (for_each body l1 w) (for_each body l2).
Proof.
  revert w. induction l1 as [|a l1 IH]; intros w; cbn [app for_each]; [reflexivity|].
  destruct (body w a) as [w1|w1]; cbn [and_then]; [apply IH | reflexivity].
Qed.

(** A loop whose body returns the world as it is, whatever the element,
    returns the world as it is. *)
Lemma for_each_skip {A : Type} (body : world -> A -> outcome) (l : list A) (w : world) :
  (forall a, In a l -> body w a = Returns w) -> for_each body l w = Returns w.
Proof.
  induction l as [|a l IH]; intros H; cbn [for_each]; [reflexivity|].
  rewrite (H a (or_introl eq_refl)). cbn [and_then]. apply IH. intros; apply H; now right.
Qed.

(** What every step keeps, in the sense of a relation between the world
    before and the world after that is reflexive and transitive, the
    whole run keeps, whether it returns or throws. *)
Section Preserved.

Variable R : world -> world -> Prop.
Hypothesis R_refl : forall w, R w w.
Hypothesis R_trans : forall w1 w2 w3, R w1 w2 -> R w2 w3 -> R w1 w3.

Lemma and_then_preserves (r : outcome) (k : world -> outcome) (w0 : world) :
  R w0 (state_of r) ->
  (forall w, R w (state_of (k w))) ->
  R w0 (state_of (and_then r k)).
Proof.
  intros Hr Hk. destruct r as [w1|w1]; cbn in *; [|assumption].
  eapply R_trans; [exact Hr | apply Hk].
Qed.

Lemma for_each_preserves_in {A : Type} (body : world -> A -> outcome) (l : list A) :
  (forall w a, In a l -> R w (state_of (body w a))) ->
  forall w, R w (state_of (for_each body l w)).
Proof.
  induction l as [|a l IH]; intros Hb w; cbn [for_each]; [apply R_refl|].
  destruct (body w a) as [w1|w1] eqn:E; cbn [and_then].
  - eapply R_trans; [|apply IH; intros; apply Hb; now right].
    specialize (Hb w a (or_introl eq_refl)). now rewrite E in Hb.
  - specialize (Hb w a (or_introl eq_refl)). now rewrite E in Hb.
Qed.

Lemma for_each_preserves {A : Type} (body : world -> A -> outcome) (l : list A) :
  (forall w a, R w (state_of (body w a))) ->
  forall w, R w (state_of (for_each body l w)).
Proof. intros Hb. apply for_each_preserves_in. auto. Qed.

Lemma fold_left_preserves {A : Type} (f : world -> A -> world) (l : list A) :
  (forall w a, R w (f w a)) -> forall w, R w (fold_left f l w).
Proof.
  intros Hf. induction l as [|a l IH]; intros w; cbn [fold_left]; [apply R_refl|].
  eapply R_trans; [apply Hf | apply IH].
Qed.

End Preserved.

(** *** Strings *)

Lemma indexOf_app (c : ascii) (p s : string) :
  indexOf c p = None ->
  indexOf c (p ++ String c s) = Some (String.length p).
Proof.
  induction p as [|a p IH]; simpl.
  - intros _. now rewrite Ascii.eqb_refl.
  - destruct (Ascii.eqb a c); [discriminate|].
    destruct (indexOf c p); [discriminate|].
    intros _. now rewrite IH.
Qed.

Lemma indexOf_none_app (c : ascii) (p s : string) :
  indexOf c (p ++ s) = None -> indexOf c p = None.
Proof.
  induction p as [|a p IH]; simpl; [reflexivity|].
  destruct (Ascii.eqb a c); [discriminate|].
  destruct (indexOf c (p ++ s)); [discriminate|].
  intros _. now rewrite IH.
Qed.

Lemma slice_to_app (p s : string) : slice_to (String.length p) (p ++ s) = p.
Proof.
  induction p as [|a p IH]; simpl.
  - now destruct s.
  - now rewrite IH.
Qed.

Lemma slice_from_app (p s : string) : slice_from (String.length p) (p ++ s) = s.
Proof. induction p as [|a p IH]; simpl; [now destruct s | exact IH]. Qed.

Lemma slice_from_succ_app (c : ascii) (p s : string) :
  slice_from (String.length p + 1) (p ++ String c s) = s.
Proof.
  induction p as [|a p IH]; simpl; [now destruct s | exact IH].
Qed.

Lemma lastIndexOf_app (c : ascii) (p s : string) :
  lastIndexOf c s = None ->
  lastIndexOf c (p ++ String c s) = Some (String.length p).
Proof.
  intros Hs. induction p as [|a p IH]; simpl.
  - now rewrite Hs, Ascii.eqb_refl.
  - now rewrite IH.
Qed.

Lemma set_heap_same (w : world) : set_heap (w_heap w) w = w.
Proof. now destruct w. Qed.

(** *** The evaluator *)




Lemma parseSetExpr_no_colon (raw : string) :
  expr (parseSetExpr raw) = None <-> indexOf ":" raw = None.
Proof.
  unfold parseSetExpr. destruct (indexOf ":" raw); simpl; split; congruence.
Qed.

Lemma parseSetExpr_app (p s : string) :
  indexOf ":" p = None ->
  parseSetExpr (p ++ String ":" s) = mkSetExpr (trim p) (Some (trim s)).
Proof.
  intros Hp. unfold parseSetExpr. rewrite indexOf_app by assumption.
  now rewrite slice_to_app, slice_from_succ_app.
Qed.

(** C10, as amended.  [parseSetExpr] gives an absent expression exactly
    when the raw string has no colon.  A raw string whose first colon is
    its last character parses to the empty expression, [evalExpr] of the
    empty expression is the empty string, and [executeSet] of such a raw
    string writes the empty string at the path. *)
Theorem trailing_separator_sets_empty :
  (forall raw, expr (parseSetExpr raw) = None <-> indexOf ":" raw = None)
  /\ (forall p, indexOf ":" p = None ->
                parseSetExpr (p ++ ":") = mkSetExpr (trim p) (Some ""))
  /\ (forall cur h, evalExpr (Some "") cur h = Some (VStr "", h))
  /\ (forall now p w,
         indexOf ":" p = None ->
         executeSet now (p ++ ":") w = store_set (trim p) (VStr "") w).
Proof.
  split; [exact parseSetExpr_no_colon|].
  split; [intros p Hp; now rewrite parseSetExpr_app|].
  split; [reflexivity|].
  intros now p w Hp. unfold executeSet. rewrite parseSetExpr_app by assumption.
  cbn. now rewrite set_heap_same.
Qed.

(** *** The registry: revoking within a container *)

(** The registry entry's node lies within the container. *)
Definition inside (w : world) (container : node) (s : node * subid) : bool :=
  contains w container (fst s).

(** Calling the handles of the entries, last entry first. *)
Definition revoke_all (gone : list (node * subid)) (w : world) : world :=
  fold_right (fun s w => store_unsub (snd s) w) w gone.

Lemma contains_ext (w1 w2 : world) :
  w_dom w1 = w_dom w2 -> w_next_node w1 = w_next_node w2 ->
  forall c n, contains w1 c n = contains w2 c n.
Proof. intros Hd Hn c n. unfold contains, all_descendants. now rewrite Hd, Hn. Qed.

Lemma revoke_all_set_subs (gone s : list (node * subid)) (w : world) :
  revoke_all gone (set_subs s w) = set_subs s (revoke_all gone w).
Proof.
  induction gone as [|g gone IH]; simpl; [reflexivity|].
  unfold revoke_all in *. now rewrite IH.
Qed.

Lemma revoke_all_dom (gone : list (node * subid)) (w : world) :
  w_dom (revoke_all gone w) = w_dom w /\ w_next_node (revoke_all gone w) = w_next_node w.
Proof. induction gone as [|g gone IH]; simpl; [easy|exact IH]. Qed.

Lemma filter_snoc {A : Type} (f : A -> bool) (l : list A) (x : A) :
  List.filter f (l ++ [x]) = List.filter f l ++ (if f x then [x] else []).
Proof. rewrite List.filter_app. reflexivity. Qed.

Lemma nth_error_middle {A : Type} (l1 l2 : list A) (x : A) :
  nth_error (l1 ++ x :: l2) (length l1) = Some x.
Proof. induction l1; simpl; auto. Qed.

Lemma splice1_middle {A : Type} (l1 l2 : list A) (x : A) :
  splice1 (length l1) (l1 ++ x :: l2) = l1 ++ l2.
Proof.
  unfold splice1. induction l1 as [|a l1 IH]; simpl; [reflexivity|].
  simpl in IH. now rewrite IH.
Qed.

(** The loop, from any index down: the entries below the index are
    filtered, the entries from it on are left as they are. *)
Lemma cleanup_loop_spec (c : node) (pre : list (node * subid)) :
  forall (post : list (node * subid)) (w : world),
    w_subs w = pre ++ post ->
    cleanup_loop c (length pre) w
    = set_subs (List.filter (fun s => negb (inside w c s)) pre ++ post)
               (revoke_all (List.filter (inside w c) pre) w).
Proof.
  induction pre as [|x pre IH] using rev_ind; intros post w Hw.
  - simpl in *. rewrite <- Hw. now destruct w.
  - rewrite length_app, Nat.add_1_r. cbn [cleanup_loop].
    rewrite <- app_assoc in Hw. cbn [app] in Hw.
    rewrite Hw, nth_error_middle.
    destruct x as [n id]. rewrite !filter_snoc. unfold inside at 2 4. cbn [fst].
    destruct (contains w c n) eqn:Hc; cbn [negb].
    + set (w1 := store_unsub id w).
      change (w_subs w1) with (w_subs w). rewrite Hw, splice1_middle.
      rewrite (IH post (set_subs (pre ++ post) w1)) by reflexivity.
      assert (Hin : forall s, inside (set_subs (pre ++ post) w1) c s = inside w c s).
      { intros s. unfold inside. now apply contains_ext. }
      rewrite (List.filter_ext _ _ Hin).
      rewrite (List.filter_ext (fun s => negb (inside (set_subs (pre ++ post) w1) c s))
                 (fun s => negb (inside w c s))) by (intros s; now rewrite Hin).
      rewrite revoke_all_set_subs, app_nil_r.
      unfold revoke_all at 2. rewrite fold_right_app. cbn [fold_right snd].
      fold w1. fold (revoke_all (List.filter (inside w c) pre) w1).
      reflexivity.
    + rewrite (IH ((n, id) :: post) w) by exact Hw.
      now rewrite !app_nil_r, <- app_assoc.
Qed.

Lemma filter_filter {A : Type} (f g : A -> bool) (l : list A) :
  List.filter f (List.filter g l) = List.filter (fun x => g x && f x) l.
Proof.
  induction l as [|a l IH]; simpl; [reflexivity|].
  destruct (g a); simpl; [destruct (f a)|]; now rewrite IH.
Qed.

Lemma filter_all {A : Type} (f : A -> bool) (l : list A) :
  (forall x, f x = true) -> List.filter f l = l.
Proof.
  intros Hf. induction l as [|a l IH]; simpl; [reflexivity|].
  now rewrite Hf, IH.
Qed.

Lemma revoke_all_store (gone : list (node * subid)) (w : world) :
  st_listeners (w_store (revoke_all gone w))
  = List.filter (fun e => negb (existsb (Nat.eqb (fst (fst e))) (map snd gone)))
                (st_listeners (w_store w))
  /\ w_log (revoke_all gone w) = map (fun s => EUnsub (snd s)) gone ++ w_log w
  /\ st_root (w_store (revoke_all gone w)) = st_root (w_store w)
  /\ st_next (w_store (revoke_all gone w)) = st_next (w_store w)
  /\ st_depth (w_store (revoke_all gone w)) = st_depth (w_store w)
  /\ st_pending (w_store (revoke_all gone w)) = st_pending (w_store w)
  /\ w_heap (revoke_all gone w) = w_heap w
  /\ w_colls (revoke_all gone w) = w_colls w
  /\ w_subs (revoke_all gone w) = w_subs w
  /\ w_frames (revoke_all gone w) = w_frames w
  /\ w_focus (revoke_all gone w) = w_focus w.
Proof.
  induction gone as [|g gone IH]; cbn [revoke_all fold_right map existsb negb].
  - repeat split. now rewrite filter_all.
  - fold (revoke_all gone w). destruct IH as (H1 & H2 & IH).
    cbn. rewrite H1, H2, filter_filter. split; [|split; [reflexivity|exact IH]].
    apply List.filter_ext. intros e.
    destruct (fst (fst e) =? snd g)%nat eqn:E; cbn;
      destruct (existsb (Nat.eqb (fst (fst e))) (map snd gone)); reflexivity.
Qed.

Lemma cleanupWithin_eq (c : node) (w : world) :
  cleanupWithin c w
  = set_subs (List.filter (fun s => negb (inside w c s)) (w_subs w))
             (revoke_all (List.filter (inside w c) (w_subs w)) w).
Proof.
  unfold cleanupWithin.
  rewrite (cleanup_loop_spec c (w_subs w) [] w) by now rewrite app_nil_r.
  now rewrite app_nil_r.
Qed.

(** What [cleanupWithin] keeps and what it logs. *)
Lemma cleanupWithin_effect (c : node) (w : world) :
  let w' := cleanupWithin c w in
  w_subs w' = List.filter (fun s => negb (inside w c s)) (w_subs w)
  /\ w_log w' = map (fun s => EUnsub (snd s)) (List.filter (inside w c) (w_subs w)) ++ w_log w
  /\ w_dom w' = w_dom w
  /\ w_next_node w' = w_next_node w
  /\ w_colls w' = w_colls w
  /\ st_next (w_store w') = st_next (w_store w).
Proof.
  intros w'. subst w'. rewrite cleanupWithin_eq.
  set (gone := List.filter (inside w c) (w_subs w)).
  destruct (revoke_all_store gone w)
    as (Hl & Hlog & Hr & Hn & Hd & Hp & Hh & Hc & _ & _ & _).
  destruct (revoke_all_dom gone w) as [Hdom Hnext].
  cbn [w_subs set_subs w_log w_store w_dom w_next_node w_heap w_colls].
  repeat split; assumption.
Qed.

(** C4.  [cleanupWithin(container)] leaves in the registry exactly the
    entries whose node is not within the container, in their order; the
    handle of every entry removed is called (last entry first), which
    takes its listener, and no other, out of the store; nothing else of
    the world changes.  No entry is skipped by the removals made while
    the loop runs: the result is the filter of the whole registry. *)
Theorem cleanupWithin_exact (c : node) (w : world) :
  let gone := List.filter (inside w c) (w_subs w) in
  let w' := cleanupWithin c w in
  w_subs w' = List.filter (fun s => negb (inside w c s)) (w_subs w)
  /\ (forall s, In s (w_subs w') <-> In s (w_subs w) /\ contains w c (fst s) = false)
  /\ w_log w' = map (fun s => EUnsub (snd s)) gone ++ w_log w
  /\ st_listeners (w_store w')
     = List.filter (fun e => negb (existsb (Nat.eqb (fst (fst e))) (map snd gone)))
                   (st_listeners (w_store w))
  /\ w_dom w' = w_dom w
  /\ w_next_node w' = w_next_node w
  /\ w_heap w' = w_heap w
  /\ w_colls w' = w_colls w
  /\ st_root (w_store w') = st_root (w_store w)
  /\ st_next (w_store w') = st_next (w_store w)
  /\ st_depth (w_store w') = st_depth (w_store w)
  /\ st_pending (w_store w') = st_pending (w_store w).
Proof.
  intros gone w'. subst w'. rewrite cleanupWithin_eq. fold gone.
  destruct (revoke_all_store gone w)
    as (Hl & Hlog & Hr & Hn & Hd & Hp & Hh & Hc & _ & _ & _).
  destruct (revoke_all_dom gone w) as [Hdom Hnext].
  cbn [w_subs set_subs w_log w_store w_dom w_next_node w_heap w_colls].
  split; [reflexivity|]. split; [|tauto].
  intros s. rewrite List.filter_In. unfold inside.
  now rewrite negb_true_iff.
Qed.

(** *** Scanning *)

(** What a scan can do to the tree: the nodes stay the kind of node they
    are, children may go but none comes, a marker set stays set. *)
Definition dom_le (d d' : gmap node element) : Prop :=
  forall x,
    el_element (el_at d' x) = el_element (el_at d x)
    /\ incl (el_children (el_at d' x)) (el_children (el_at d x))
    /\ (el_bound (el_at d x) = true -> el_bound (el_at d' x) = true).

Definition scan_le (w w' : world) : Prop :=
  dom_le (w_dom w) (w_dom w') /\ w_next_node w' = w_next_node w.

Lemma dom_le_refl (d : gmap node element) : dom_le d d.
Proof. intros x. repeat split; auto using incl_refl. Qed.

Lemma dom_le_trans (d1 d2 d3 : gmap node element) :
  dom_le d1 d2 -> dom_le d2 d3 -> dom_le d1 d3.
Proof.
  intros H12 H23 x. destruct (H12 x) as (E1 & C1 & B1), (H23 x) as (E2 & C2 & B2).
  repeat split; [congruence | eauto using incl_tran | auto].
Qed.

Lemma scan_le_refl (w : world) : scan_le w w.
Proof. split; [apply dom_le_refl | reflexivity]. Qed.

Lemma scan_le_trans (w1 w2 w3 : world) :
  scan_le w1 w2 -> scan_le w2 w3 -> scan_le w1 w3.
Proof.
  intros [D12 N12] [D23 N23]. split; [eauto using dom_le_trans | congruence].
Qed.

Lemma el_at_insert (d : gmap node element) (n x : node) (e : element) :
  el_at (<[n := e]> d) x = if decide (n = x) then e else el_at d x.
Proof.
  unfold el_at. destruct (decide (n = x)) as [->|Hne].
  - now rewrite lookup_insert_eq.
  - now rewrite lookup_insert_ne.
Qed.

(** An update of one node that keeps its kind, adds no child and clears
    no marker. *)
Definition shrinking (f : element -> element) : Prop :=
  forall e,
    el_element (f e) = el_element e
    /\ incl (el_children (f e)) (el_children e)
    /\ (el_bound e = true -> el_bound (f e) = true).

Lemma dom_update_le (n : node) (f : element -> element) (w : world) :
  shrinking f -> scan_le w (dom_update n f w).
Proof.
  intros Hf. split; [|reflexivity]. intros x. cbn. rewrite el_at_insert.
  destruct (decide (n = x)) as [->|_]; [apply Hf | repeat split; auto using incl_refl].
Qed.

Lemma shrinking_attrs (g : list (string * string) -> list (string * string)) :
  shrinking (fun e => with_attrs (g (el_attrs e)) e).
Proof. intros e. cbn. repeat split; auto using incl_refl. Qed.

Lemma shrinking_simple (f : element -> element) :
  (forall e, el_element (f e) = el_element e) ->
  (forall e, el_children (f e) = el_children e \/ el_children (f e) = []) ->
  (forall e, el_bound (f e) = el_bound e \/ el_bound (f e) = true) ->
  shrinking f.
Proof.
  intros He Hc Hb e. split; [apply He|]. split.
  - destruct (Hc e) as [-> | ->]; [apply incl_refl | apply incl_nil_l].
  - destruct (Hb e) as [-> | ->]; auto.
Qed.

(** The node an update function writes on. *)
Definition binding_node (b : binding) : node :=
  match b with
  | BText n | BValue n | BFocus n | BData n _ | BAttr n _ => n
  end.

(** What an update function does to the element of its node: it keeps
    the kind of node, the marker, the tag and the [input] listeners, and
    the children unless it takes them all away. *)
Definition gentle (f : element -> element) : Prop :=
  forall e,
    el_element (f e) = el_element e
    /\ (el_children (f e) = el_children e \/ el_children (f e) = [])
    /\ el_bound (f e) = el_bound e
    /\ el_tag (f e) = el_tag e
    /\ el_input (f e) = el_input e.

(** What the scan itself does to the element of a node: it sets the
    marker, or attaches an [input] listener. *)
Definition marking (f : element -> element) : Prop :=
  forall e,
    el_element (f e) = el_element e
    /\ el_children (f e) = el_children e
    /\ (el_bound e = true -> el_bound (f e) = true)
    /\ el_tag (f e) = el_tag e
    /\ el_attrs (f e) = el_attrs e.

(** What a call of an update function leaves, whether it returns or
    throws: the world as it was, or its node's element updated, or a
    frame requested. *)
Inductive update_effect (n : node) (w : world) : world -> Prop :=
| effect_none : update_effect n w w
| effect_node (f : element -> element) : gentle f -> update_effect n w (dom_update n f w)
| effect_frame : update_effect n w (set_frames (w_frames w ++ [n]) w).

Lemma gentle_reflect (g : element -> element) :
  gentle g -> gentle (fun e => reflect_type (g e)).
Proof.
  intros Hg e. unfold reflect_type.
  destruct (type_property _ _); [cbn|]; apply Hg.
Qed.

Lemma gentle_attrs (g : list (string * string) -> list (string * string)) :
  gentle (fun e => with_attrs (g (el_attrs e)) e).
Proof. intros e. cbn. auto 6. Qed.

Lemma updateFn_effect (b : binding) (v : value) (w : world) :
  update_effect (binding_node b) w (state_of (updateFn b v w)).
Proof.
  destruct b as [n|n|n|n d|n a]; cbn [updateFn binding_node].
  - destruct (text_of _ _); cbn [state_of]; [|constructor].
    constructor. intros e. cbn. auto 6.
  - destruct (text_of _ _); cbn [state_of]; [|constructor].
    destruct (String.eqb _ _); destruct (negb _); try constructor; intros e; cbn; auto 6.
  - cbn [state_of]. destruct (truthy v); constructor.
  - destruct (text_of _ _); cbn [state_of]; [|constructor].
    destruct (_ || _); cbn [state_of]; [constructor|].
    unfold dataset_set. constructor. apply gentle_attrs.
  - destruct (negb _).
    + destruct (String_ _ _); cbn [state_of]; [|constructor].
      destruct (valid_attribute_name a); cbn [state_of]; [|constructor].
      unfold setAttribute. constructor.
      apply (gentle_reflect (fun e => with_attrs (attr_set (lower_case a) s (el_attrs e)) e)).
      apply gentle_attrs.
    + cbn [state_of]. unfold removeAttribute. constructor.
      apply (gentle_reflect (fun e => with_attrs (attr_remove (lower_case a) (el_attrs e)) e)).
      apply gentle_attrs.
Qed.

(** An update function that throws has changed nothing. *)
Lemma updateFn_throws (b : binding) (v : value) (w w' : world) :
  updateFn b v w = Throws w' -> w' = w.
Proof.
  destruct b as [n|n|n|n d|n a]; cbn [updateFn].
  - destruct (text_of _ _); congruence.
  - destruct (text_of _ _); congruence.
  - discriminate.
  - destruct (text_of _ _); [destruct (_ || _)|]; congruence.
  - destruct (negb _); [|discriminate].
    destruct (String_ _ _); [destruct (valid_attribute_name a)|]; congruence.
Qed.

Lemma gentle_shrinking (f : element -> element) : gentle f -> shrinking f.
Proof.
  intros Hf. apply shrinking_simple; intros e; destruct (Hf e) as (He & Hc & Hb & _); auto.
Qed.

Lemma update_effect_le (n : node) (w w' : world) : update_effect n w w' -> scan_le w w'.
Proof.
  intros [|f Hf|].
  - apply scan_le_refl.
  - now apply dom_update_le, gentle_shrinking.
  - split; [apply dom_le_refl | reflexivity].
Qed.

Lemma updateFn_le (b : binding) (v : value) (w : world) :
  scan_le w (state_of (updateFn b v w)).
Proof. eapply update_effect_le, updateFn_effect. Qed.

(** The scan of one node, for any relation its steps keep. *)
Section ScanPreserved.

Variable R : world -> world -> Prop.
Hypothesis R_refl : forall w, R w w.
Hypothesis R_trans : forall w1 w2 w3, R w1 w2 -> R w2 w3 -> R w1 w3.
Variable n : node.
Hypothesis R_update : forall w w', update_effect n w w' -> R w w'.
Hypothesis R_subscribe :
  forall p f w, R w (let '(u, w2) := store_subscribe p f w in
                     set_subs (w_subs w2 ++ [(n, u)]) w2).
Hypothesis R_node : forall f w, marking f -> R w (dom_update n f w).

Lemma addBinding_preserves (p : string) (b : binding) (w : world) :
  binding_node b = n -> R w (state_of (addBinding p n b w)).
Proof.
  intros Hb. unfold addBinding. apply (and_then_preserves R R_trans).
  - apply R_update. rewrite <- Hb. apply updateFn_effect.
  - intros w1. pose proof (R_subscribe p (LUpdate b) w1) as H.
    destruct (store_subscribe p (LUpdate b) w1) as [u w2]. exact H.
Qed.

Lemma scan_attr_preserves (w : world) (a : string * string) :
  R w (state_of (scan_attr n w a)).
Proof.
  unfold scan_attr. destruct (strip_prefix "bind-data-" _); [now apply addBinding_preserves|].
  destruct (strip_prefix "bind-attr-" _); [now apply addBinding_preserves | apply R_refl].
Qed.

Lemma scan_blocks_preserve (w : world) :
  R w (state_of (and_then (scan_text n w)
                   (fun w => and_then (scan_value n w)
                               (fun w => and_then (scan_focus n w) (scan_family n))))).
Proof.
  apply (and_then_preserves R R_trans).
  { unfold scan_text. destruct (hasAttribute _ _ _);
      [now apply addBinding_preserves | apply R_refl]. }
  intros w1. apply (and_then_preserves R R_trans).
  { unfold scan_value. destruct (hasAttribute _ _ _); [|apply R_refl].
    apply (and_then_preserves R R_trans); [now apply addBinding_preserves|].
    intros w2. cbn [state_of]. apply R_node. intros e. cbn. auto 6. }
  intros w2. apply (and_then_preserves R R_trans).
  { unfold scan_focus. destruct (hasAttribute _ _ _);
      [now apply addBinding_preserves | apply R_refl]. }
  intros w3. unfold scan_family.
  apply (for_each_preserves R R_refl R_trans). apply scan_attr_preserves.
Qed.

Lemma scan_node_preserves (w : world) : R w (state_of (scan_node w n)).
Proof.
  unfold scan_node. destruct (el_bound _); [apply R_refl|].
  eapply R_trans; [apply (R_node (with_bound true)) | apply scan_blocks_preserve].
  intros e. cbn. auto 6.
Qed.

End ScanPreserved.

Lemma marking_shrinking (f : element -> element) : marking f -> shrinking f.
Proof.
  intros Hf e. destruct (Hf e) as (He & Hc & Hb & _).
  split; [exact He|]. split; [rewrite Hc; apply incl_refl | exact Hb].
Qed.

Lemma scan_blocks_le (n : node) (w : world) :
  scan_le w (state_of (and_then (scan_text n w)
                         (fun w => and_then (scan_value n w)
                                     (fun w => and_then (scan_focus n w) (scan_family n))))).
Proof.
  apply (scan_blocks_preserve scan_le scan_le_refl scan_le_trans n).
  - apply update_effect_le.
  - intros p f w0. cbn. split; [apply dom_le_refl | reflexivity].
  - intros f w0 Hf. now apply dom_update_le, marking_shrinking.
Qed.

Lemma mark_le (n : node) (w : world) : scan_le w (dom_update n (with_bound true) w).
Proof. apply dom_update_le, shrinking_simple; cbn; auto. Qed.

Lemma scan_node_le (w : world) (n : node) : scan_le w (state_of (scan_node w n)).
Proof.
  unfold scan_node. destruct (el_bound _); [apply scan_le_refl|].
  eapply scan_le_trans; [apply mark_le | apply scan_blocks_le].
Qed.

(** The marker is set before the bindings are made: the node carries it
    whether the scan of the node returns or throws. *)
Lemma scan_node_marks (w : world) (n : node) :
  el_bound (el_at (w_dom (state_of (scan_node w n))) n) = true.
Proof.
  unfold scan_node. destruct (el_bound (el_at (w_dom w) n)) eqn:Hb; [exact Hb|].
  destruct (scan_blocks_le n (dom_update n (with_bound true) w)) as [Hd _].
  apply (Hd n). cbn. rewrite el_at_insert. now destruct (decide (n = n)).
Qed.

(** A node that carries the marker is passed over. *)
Lemma scan_node_marked (w : world) (n : node) :
  el_bound (el_at (w_dom w) n) = true -> scan_node w n = Returns w.
Proof. intros Hb. unfold scan_node. now rewrite Hb. Qed.

Lemma descendants_incl (d d' : gmap node element) (fuel : nat) :
  dom_le d d' -> forall n, incl (descendants fuel d' n) (descendants fuel d n).
Proof.
  intros Hd. induction fuel as [|f IH]; intros n; cbn; [apply incl_refl|].
  destruct (Hd n) as (_ & Hc & _). intros x Hx.
  apply in_flat_map in Hx. destruct Hx as (c & Hc' & Hx).
  apply in_flat_map. exists c. split; [now apply Hc|].
  destruct Hx as [->|Hx]; [now left | right; now apply IH].
Qed.

Lemma scan_nodes_le (l : list node) (w : world) :
  scan_le w (state_of (for_each scan_node l w)).
Proof. apply (for_each_preserves scan_le scan_le_refl scan_le_trans), scan_node_le. Qed.

(** The loop over the nodes: when it returns, every node of the list
    carries the marker. *)
Lemma scan_nodes_mark (l : list node) :
  forall w w', for_each scan_node l w = Returns w' ->
               forall n, In n l -> el_bound (el_at (w_dom w') n) = true.
Proof.
  induction l as [|a l IH]; intros w w' E n Hn; [destruct Hn|].
  apply for_each_cons_returns in E. destruct E as (w1 & E1 & E2).
  destruct Hn as [<-|Hn]; [|now apply (IH w1)].
  pose proof (scan_nodes_le l w1) as [Hd _]. rewrite E2 in Hd. cbn [state_of] in Hd.
  apply (Hd a). pose proof (scan_node_marks w a) as Hm. now rewrite E1 in Hm.
Qed.

(** A list of nodes that all carry the marker is passed over. *)
Lemma scan_nodes_marked (l : list node) (w : world) :
  (forall n, In n l -> el_bound (el_at (w_dom w) n) = true) ->
  for_each scan_node l w = Returns w.
Proof. intros Hb. apply for_each_skip. intros a Ha. now apply scan_node_marked, Hb. Qed.

(** The loop makes bindings for the nodes without the marker only. *)
Lemma scan_nodes_unmarked (l : list node) :
  forall w0 w,
    (forall n, el_bound (el_at (w_dom w0) n) = true -> el_bound (el_at (w_dom w) n) = true) ->
    for_each scan_node l w
    = for_each scan_node (List.filter (fun n => negb (el_bound (el_at (w_dom w0) n))) l) w.
Proof.
  induction l as [|a l IH]; intros w0 w Hm; cbn [List.filter for_each]; [reflexivity|].
  destruct (el_bound (el_at (w_dom w0) a)) eqn:Ha; cbn [negb].
  - rewrite (scan_node_marked w a) by now apply Hm. cbn [and_then]. now apply IH.
  - cbn [for_each]. destruct (scan_node w a) as [w1|w1] eqn:E; cbn [and_then]; [|reflexivity].
    apply IH. intros n Hn. pose proof (scan_node_le w a) as [Hd _]. rewrite E in Hd.
    apply (Hd n). now apply Hm.
Qed.

Lemma scanBindings_le (el : node) (w : world) : scan_le w (state_of (scanBindings el w)).
Proof. unfold scanBindings. apply scan_nodes_le. Qed.

(** A scan that returns leaves the marker on every node it visited. *)
Lemma scanBindings_marks (el : node) (w w1 : world) (n : node) :
  scanBindings el w = Returns w1 ->
  el_element (el_at (w_dom w) el) = true ->
  In n (el :: all_descendants w el) ->
  el_bound (el_at (w_dom w1) n) = true.
Proof.
  intros E He Hn. unfold scanBindings in E. rewrite He in E.
  now apply (scan_nodes_mark _ _ _ E).
Qed.

(** A scan of a subtree whose nodes all carry the marker does nothing. *)
Lemma scanBindings_marked (el : node) (w : world) :
  (forall n, In n (el :: all_descendants w el) -> el_bound (el_at (w_dom w) n) = true) ->
  scanBindings el w = Returns w.
Proof.
  intros Hb. unfold scanBindings. destruct (el_element _); [|reflexivity].
  now apply scan_nodes_marked.
Qed.

Lemma scanBindings_rescan (el : node) (w w1 : world) :
  scanBindings el w = Returns w1 -> scanBindings el w1 = Returns w1.
Proof.
  intros E. pose proof (scanBindings_le el w) as [Hd Hn]. rewrite E in Hd, Hn.
  cbn [state_of] in Hd, Hn. unfold scanBindings at 1.
  destruct (Hd el) as (He & _ & _). rewrite He.
  destruct (el_element (el_at (w_dom w) el)) eqn:Eel; [|reflexivity].
  apply scan_nodes_marked. intros n Hin.
  apply (scanBindings_marks el w w1 n E Eel).
  destruct Hin as [<-|Hin]; [now left | right].
  unfold all_descendants in *. rewrite Hn in Hin.
  now apply (descendants_incl (w_dom w) (w_dom w1)).
Qed.

(** C3 (as amended).  When a scan has returned, a second scan of the
    same subtree changes nothing: it returns the world the first one
    left, with its registry, the store's subscriptions and the log of
    the calls made on the store.  Node by node, and whether the scan
    that went before returned or threw: a node gets the marker before
    any of its bindings is made, no scan clears a marker, the loop body
    passes over a node that carries it, and so a scan makes bindings for
    the nodes without the marker only (after a scan that threw: the
    nodes it had not come to), and does nothing to a subtree whose nodes
    all carry it. *)
Theorem scanBindings_idempotent (el : node) (w : world) :
  (forall w1,
      scanBindings el w = Returns w1 ->
      scanBindings el w1 = Returns w1
      /\ (forall n, el_element (el_at (w_dom w) el) = true ->
                    In n (el :: all_descendants w el) ->
                    el_bound (el_at (w_dom w1) n) = true /\ scan_node w1 n = Returns w1))
  /\ (forall n, el_bound (el_at (w_dom w) n) = true -> scan_node w n = Returns w)
  /\ (forall n, el_bound (el_at (w_dom (state_of (scan_node w n))) n) = true)
  /\ (forall n, el_bound (el_at (w_dom w) n) = true ->
                el_bound (el_at (w_dom (state_of (scanBindings el w))) n) = true)
  /\ scanBindings el w
     = for_each scan_node
         (List.filter (fun n => negb (el_bound (el_at (w_dom w) n)))
                      (if el_element (el_at (w_dom w) el)
                       then el :: all_descendants w el else [])) w
  /\ ((forall n, In n (el :: all_descendants w el) ->
                 el_bound (el_at (w_dom w) n) = true) ->
      scanBindings el w = Returns w).
Proof.
  split; [|split; [|split; [|split; [|split]]]].
  - intros w1 E. split; [now apply (scanBindings_rescan el w)|].
    intros n He Hn. pose proof (scanBindings_marks el w w1 n E He Hn) as Hb.
    split; [exact Hb | now apply scan_node_marked].
  - intros n. apply scan_node_marked.
  - intros n. apply scan_node_marks.
  - intros n Hb. destruct (scanBindings_le el w) as [Hd _]. now apply (Hd n).
  - unfold scanBindings. now apply scan_nodes_unmarked.
  - apply scanBindings_marked.
Qed.

(** *** Objects *)






Lemma existsb_eqb_In (k : string) (keys : list string) :
  existsb (String.eqb k) keys = true <-> In k keys.
Proof.
  rewrite existsb_exists. split.
  - intros (x & Hx & E). apply String.eqb_eq in E. now subst.
  - intros H. exists k. split; [assumption | apply String.eqb_refl].
Qed.


(** *** Actions: delete *)

Lemma executeSet_delete_eq (now : Z) (raw pp key : string) (w : world) :
  parseSetExpr raw = mkSetExpr (pp ++ "." ++ key) (Some "delete") ->
  lastIndexOf "." key = None ->
  executeSet now raw w
  = store_set pp (VRef (fresh (dom (w_heap w))))
      (set_heap (<[fresh (dom (w_heap w))
                   := mkObject None (without_key (w_heap w) (store_get pp w) key)]>
                   (w_heap w)) w).
Proof.
  intros Hp Hk. unfold executeSet. rewrite Hp. cbn [path expr].
  change (String.eqb "delete" "delete") with true. cbv iota.
  change (pp ++ "." ++ key)%string with (pp ++ String "." key)%string.
  rewrite lastIndexOf_app by assumption.
  now rewrite slice_to_app, slice_from_succ_app.
Qed.


(** C6, as amended.  A delete whose path has no dot, a push without a
    source (bare ["push"], or an empty source), and a push whose source
    value is not truthy or is no object, each return with the world as it
    was: no call is made on the store.  A delete whose parent path holds
    nothing truthy (an absent parent among them) is no such case: it
    writes a new empty object to the parent path. *)
Theorem executeSet_noops (now : Z) (w : world) :
  (forall raw,
      expr (parseSetExpr raw) = Some "delete" ->
      lastIndexOf "." (path (parseSetExpr raw)) = None ->
      executeSet now raw w = Returns w)
  /\ (forall raw,
         expr (parseSetExpr raw) = Some "push" ->
         executeSet now raw w = Returns w)
  /\ (forall raw e sp,
         expr (parseSetExpr raw) = Some e ->
         e <> "delete" ->
         parsePush (Some e) = Some (mkPush (Some sp)) ->
         sp = "" \/ truthy (store_get sp w) = false \/ typeof (store_get sp w) <> TObject ->
         executeSet now raw w = Returns w)
  /\ (forall raw pp key,
         parseSetExpr raw = mkSetExpr (pp ++ "." ++ key) (Some "delete") ->
         lastIndexOf "." key = None ->
         truthy (store_get pp w) = false ->
         executeSet now raw w
         = store_set pp (VRef (fresh (dom (w_heap w))))
             (set_heap (<[fresh (dom (w_heap w)) := mkObject None []]> (w_heap w)) w)).
Proof.
  repeat split.
  - intros raw He Hp. unfold executeSet. rewrite He, Hp. reflexivity.
  - intros raw He. unfold executeSet. rewrite He. reflexivity.
  - intros raw e sp He Hd Hpush Hsrc. unfold executeSet. rewrite He.
    destruct (String.eqb_spec e "delete"); [contradiction|].
    rewrite Hpush. cbn [source].
    destruct (String.eqb_spec sp ""); [reflexivity|].
    destruct Hsrc as [?|[Ht|Hty]]; [contradiction| |].
    + now rewrite Ht.
    + destruct (truthy (store_get sp w)); [|reflexivity].
      cbn [negb]. now destruct (typeof (store_get sp w)).
  - intros raw pp key Hp Hk Ht.
    rewrite (executeSet_delete_eq now raw pp key w Hp Hk).
    unfold without_key. now rewrite Ht.
Qed.

(** *** Actions: the key of a push *)

Lemma Z_to_string_inj (a b : Z) : Z_to_string a = Z_to_string b -> a = b.
Proof.
  unfold Z_to_string. intros H.
  assert (Hn : forall z, Z.to_int z <> Decimal.Pos Decimal.Nil
                         /\ Z.to_int z <> Decimal.Neg Decimal.Nil).
  { intros [|q|q]; cbn; split; try discriminate;
      intros [= E]; now apply (DecimalPos.Unsigned.to_uint_nonnil q). }
  apply DecimalZ.to_int_inj.
  assert (E : Some (Z.to_int a) = Some (Z.to_int b)).
  { rewrite <- (NilZero.isi (Z.to_int a)), <- (NilZero.isi (Z.to_int b));
      try apply Hn. now rewrite H. }
  now injection E.
Qed.

(** The push branch of [executeSet]: a source that holds an object is
    pushed inside a batch. *)
Lemma executeSet_push_eq (now : Z) (raw e sp : string) (w : world) :
  expr (parseSetExpr raw) = Some e ->
  e <> "delete" ->
  parsePush (Some e) = Some (mkPush (Some sp)) ->
  sp <> "" ->
  truthy (store_get sp w) = true ->
  typeof (store_get sp w) = TObject ->
  executeSet now raw w
  = store_batch (push_body now (path (parseSetExpr raw)) sp (store_get sp w)) w.
Proof.
  intros He Hd Hpush Hsp Ht Hty. unfold executeSet. rewrite He.
  destruct (String.eqb_spec e "delete"); [contradiction|].
  rewrite Hpush. cbn [source].
  destruct (String.eqb_spec sp ""); [contradiction|].
  now rewrite Ht, Hty.
Qed.

(** C9, as amended.  The key of a pushed entry is ["t_"] followed by the
    clock's reading in decimal, so the keys of two pushes differ exactly
    when their clock readings differ; a push whose source holds an object
    runs the batch whose first call on the store writes the copy at the
    target path, a dot and that key. *)
Theorem push_key_by_clock :
  (forall a b : Z, push_key a = push_key b <-> a = b)
  /\ (forall now raw e sp w,
         expr (parseSetExpr raw) = Some e ->
         e <> "delete" ->
         parsePush (Some e) = Some (mkPush (Some sp)) ->
         sp <> "" ->
         truthy (store_get sp w) = true ->
         typeof (store_get sp w) = TObject ->
         executeSet now raw w
         = store_batch (push_body now (path (parseSetExpr raw)) sp (store_get sp w)) w)
  /\ (forall now p sp src w copy h,
         json_clone src (w_heap w) = Some (copy, h) ->
         push_body now p sp src w
         = and_then (store_set (p ++ "." ++ "t_" ++ Z_to_string now) copy (set_heap h w))
             (fun w1 =>
                for_each
                  (fun w k =>
                     store_set (sp ++ "." ++ k) (zero_value (js_get (w_heap w) src k)) w)
                  (js_keys (w_heap w1) src) w1)).
Proof.
  split; [|split].
  - intros a b. split; [|now intros ->]. unfold push_key. intros H.
    apply Z_to_string_inj. now injection H.
  - intros now raw e sp w. apply executeSet_push_eq.
  - intros now p sp src w copy h Hc. unfold push_body. now rewrite Hc.
Qed.

(** *** Copies made through JSON *)

Section JsonInduction.

Variable P : json -> Prop.
Hypothesis Hnull : P JNull.
Hypothesis Hbool : forall b, P (JBool b).
Hypothesis Hnum : forall x, P (JNum x).
Hypothesis Hstr : forall s, P (JStr s).
Hypothesis Harr : forall items, Forall P items -> P (JArr items).
Hypothesis Hobj : forall ms, Forall (fun kt => P (snd kt)) ms -> P (JObj ms).

Fixpoint json_ind' (t : json) : P t :=
  match t with
  | JNull => Hnull
  | JBool b => Hbool b
  | JNum x => Hnum x
  | JStr s => Hstr s
  | JArr items =>
      Harr items
        ((fix go (l : list json) : Forall P l :=
            match l with
            | [] => List.Forall_nil P
            | x :: r => @List.Forall_cons _ P x r (json_ind' x) (go r)
            end) items)
  | JObj ms =>
      Hobj ms
        ((fix go (l : list (string * json)) : Forall (fun kt => P (snd kt)) l :=
            match l with
            | [] => List.Forall_nil _
            | x :: r => @List.Forall_cons _ (fun kt => P (snd kt)) x r (json_ind' (snd x)) (go r)
            end) ms)
  end.

End JsonInduction.

(** How many objects deep a tree goes. *)
Fixpoint json_depth (t : json) : nat :=
  match t with
  | JArr items => S (fold_right (fun t n => Nat.max (json_depth t) n) 0 items)
  | JObj ms => S (fold_right (fun kt n => Nat.max (json_depth (snd kt)) n) 0 ms)
  | _ => 0
  end.

(** The tree as an object of the heap holds it and [JSON.stringify]
    writes it again: the members of an object in the property order of
    an object, a repeated name once with its last value; a number that
    is not finite as [null], a negative zero as zero.  The tree of a
    value of the heap is its own canonical form whenever the objects
    keep their properties as objects do. *)
Fixpoint canon (t : json) : json :=
  match t with
  | JNum x => if is_finite x then JNum (if is_zero x then zero else x) else JNull
  | JArr items => JArr (map canon items)
  | JObj ms => JObj (fold_left (fun acc kt => prop_set (fst kt) (canon (snd kt)) acc) ms [])
  | _ => t
  end.

(** The two loops inside [alloc_json], by name. *)
Fixpoint alloc_list (ts : list json) (h : heap) : list value * heap :=
  match ts with
  | [] => ([], h)
  | t :: ts' =>
      let '(v, h1) := alloc_json t h in
      let '(vs, h2) := alloc_list ts' h1 in
      (v :: vs, h2)
  end.

Fixpoint alloc_members (ms : list (string * json)) (props : list (string * value)) (h : heap)
  : list (string * value) * heap :=
  match ms with
  | [] => (props, h)
  | (k, t) :: ms' =>
      let '(v, h1) := alloc_json t h in
      alloc_members ms' (prop_set k v props) h1
  end.

Lemma alloc_json_arr (items : list json) (h : heap) :
  alloc_json (JArr items) h
  = let '(vs, h1) := alloc_list items h in
    (VRef (fresh (dom h1)), <[fresh (dom h1) := mkObject (Some (map Some vs)) []]> h1).
Proof. reflexivity. Qed.

Lemma alloc_json_obj (ms : list (string * json)) (h : heap) :
  alloc_json (JObj ms) h
  = let '(props, h1) := alloc_members ms [] h in
    (VRef (fresh (dom h1)), <[fresh (dom h1) := mkObject None props]> h1).
Proof. reflexivity. Qed.

(** [h2] holds the objects made between [h] and [h'] as [h'] has them. *)
Definition agrees_new (h h' h2 : heap) : Prop :=
  forall l, h !! l = None -> is_Some (h' !! l) -> h2 !! l = h' !! l.

Lemma agrees_new_left (h hm h' h2 : heap) :
  hm ⊆ h' -> agrees_new h h' h2 -> agrees_new h hm h2.
Proof.
  intros Hsub Ha l Hl [o Ho]. rewrite Ho.
  pose proof (lookup_weaken _ _ _ _ Ho Hsub) as Ho'.
  rewrite <- Ho'. apply Ha; [assumption | eauto].
Qed.

Lemma agrees_new_right (h hm h' h2 : heap) :
  h ⊆ hm -> agrees_new h h' h2 -> agrees_new hm h' h2.
Proof.
  intros Hsub Ha l Hl Hs. apply Ha; [|assumption].
  destruct (h !! l) eqn:E; [|reflexivity].
  pose proof (lookup_weaken _ _ _ _ E Hsub). congruence.
Qed.

Lemma insert_fresh_subseteq (h : heap) (o : object) : h ⊆ <[fresh (dom h) := o]> h.
Proof. apply insert_subseteq, not_elem_of_dom, is_fresh. Qed.

(** Two property lists with the same keys, related value by value. *)
Definition props_rel {V W : Type} (R : V -> W -> Prop)
           (l : list (string * V)) (l' : list (string * W)) : Prop :=
  Forall2 (fun a b => fst a = fst b /\ R (snd a) (snd b)) l l'.

Lemma props_rel_get {V W : Type} (R : V -> W -> Prop) (k : string)
      (l : list (string * V)) (l' : list (string * W)) :
  props_rel R l l' ->
  match prop_get k l, prop_get k l' with
  | Some v, Some w => R v w
  | None, None => True
  | _, _ => False
  end.
Proof.
  induction 1 as [|[a v] [b w] l l' [Hk Hr] _ IH]; cbn in *; [exact I|].
  subst b. now destruct (String.eqb a k).
Qed.

Lemma props_rel_set {V W : Type} (R : V -> W -> Prop) (k : string) (v : V) (w : W)
      (l : list (string * V)) (l' : list (string * W)) :
  props_rel R l l' -> R v w -> props_rel R (prop_set k v l) (prop_set k w l').
Proof.
  intros Hl Hvw. unfold prop_set.
  pose proof (props_rel_get R k l l' Hl) as Hg.
  destruct (prop_get k l), (prop_get k l'); try contradiction.
  - clear Hg. induction Hl as [|[a x] [b y] l l' [Hk Hr] Hl IH]; cbn in *; [constructor|].
    subst b. destruct (String.eqb a k); constructor; cbn; auto.
  - clear Hg. destruct (array_index k) as [i|].
    + induction Hl as [|[a x] [b y] l l' [Hk Hr] Hl IH]; cbn in *.
      * constructor; [now split | constructor].
      * subst b. destruct (array_index a); [destruct (i <? z)%Z|];
          repeat (constructor; cbn; auto).
    + apply Forall2_app; [assumption|]. constructor; [now split | constructor].
Qed.

(** The tree of a value in a heap, for enough fuel. *)
Definition has_tree (h : heap) (fuel : nat) (v : value) (t : json) : Prop :=
  json_of fuel h v = Some (Some t).

Lemma json_of_members (h : heap) (fuel : nat) (props : list (string * value))
      (tprops : list (string * json)) :
  props_rel (has_tree h fuel) props tprops ->
  all_some (map (fun kv => json_of fuel h (snd kv)) props)
  = Some (map (fun kt => Some (snd kt)) tprops)
  /\ omap (fun kt => pair (fst kt) <$> snd kt)
          (combine (map fst props) (map (fun kt => Some (snd kt)) tprops))
     = tprops.
Proof.
  induction 1 as [|[a v] [b t] l l' [Hk Hr] _ [IH1 IH2]]; cbn in *; [easy|].
  subst b. unfold has_tree in Hr. rewrite Hr, IH1. split; [reflexivity|].
  now rewrite IH2.
Qed.

Lemma json_of_items (h : heap) (fuel : nat) (vs : list value) (ts : list json) :
  Forall2 (has_tree h fuel) vs ts ->
  all_some (map (fun e : option value =>
                   match e with
                   | Some v => json_of fuel h v
                   | None => Some None
                   end) (map Some vs))
  = Some (map Some ts).
Proof.
  induction 1 as [|v t vs ts Hr _ IH]; cbn in *; [reflexivity|].
  unfold has_tree in Hr. now rewrite Hr, IH.
Qed.

Lemma fold_max_le {A : Type} (f : A -> nat) (l : list A) (n : nat) :
  fold_right (fun x m => Nat.max (f x) m) 0 l <= n -> Forall (fun x => f x <= n) l.
Proof.
  induction l as [|a l IH]; cbn; intros H; constructor; [lia | apply IH; lia].
Qed.

(** What [alloc_json] promises for a tree: the heap only grows, and the
    value made has the canonical form of the tree in every heap that
    holds the new objects as they were made. *)
Definition alloc_ok (t : json) : Prop :=
  forall h v h',
    alloc_json t h = (v, h') ->
    h ⊆ h'
    /\ forall h2 fuel,
        agrees_new h h' h2 -> json_depth t <= fuel -> has_tree h2 fuel v (canon t).

Lemma alloc_list_ok (items : list json) :
  Forall alloc_ok items ->
  forall h vs h1,
    alloc_list items h = (vs, h1) ->
    h ⊆ h1
    /\ forall h2 fuel,
        agrees_new h h1 h2 ->
        Forall (fun t => json_depth t <= fuel) items ->
        Forall2 (has_tree h2 fuel) vs (map canon items).
Proof.
  induction 1 as [|t items Ht _ IH]; intros h vs h1 E; cbn in E.
  - injection E as <- <-. split; [reflexivity|]. constructor.
  - destruct (alloc_json t h) as [v hm] eqn:Et.
    destruct (alloc_list items hm) as [vs' hl] eqn:El.
    injection E as <- <-.
    destruct (Ht _ _ _ Et) as [S1 T1]. destruct (IH _ _ _ El) as [S2 T2].
    split; [now transitivity hm|].
    intros h2 fuel Ha Hd. inversion Hd; subst. cbn. constructor.
    + apply T1; [eapply agrees_new_left; eauto | assumption].
    + apply T2; [eapply agrees_new_right; eauto | assumption].
Qed.

Lemma alloc_members_ok (ms : list (string * json)) :
  Forall (fun kt => alloc_ok (snd kt)) ms ->
  forall h props props' h1,
    alloc_members ms props h = (props', h1) ->
    h ⊆ h1
    /\ forall h2 fuel tprops,
        agrees_new h h1 h2 ->
        Forall (fun kt => json_depth (snd kt) <= fuel) ms ->
        props_rel (has_tree h2 fuel) props tprops ->
        props_rel (has_tree h2 fuel) props'
          (fold_left (fun acc kt => prop_set (fst kt) (canon (snd kt)) acc) ms tprops).
Proof.
  induction 1 as [|[k t] ms Ht _ IH]; intros h props props' h1 E; cbn in E.
  - injection E as <- <-. split; [reflexivity|]. intros; assumption.
  - destruct (alloc_json t h) as [v hm] eqn:Et.
    destruct (Ht _ _ _ Et) as [S1 T1]. destruct (IH _ _ _ _ E) as [S2 T2].
    split; [now transitivity hm|].
    intros h2 fuel tprops Ha Hd Hr. inversion Hd; subst. cbn [fold_left fst snd].
    apply T2; [eapply agrees_new_right; eauto | assumption|].
    apply props_rel_set; [assumption|].
    apply T1; [eapply agrees_new_left; eauto | assumption].
Qed.

Lemma agrees_new_fresh (h h1 h2 : heap) (o : object) :
  h ⊆ h1 ->
  agrees_new h (<[fresh (dom h1) := o]> h1) h2 ->
  h2 !! fresh (dom h1) = Some o /\ agrees_new h h1 h2.
Proof.
  intros Hsub Ha.
  assert (Hf : h1 !! fresh (dom h1) = None) by apply not_elem_of_dom, is_fresh.
  split.
  - rewrite Ha; [apply lookup_insert_eq| |rewrite lookup_insert_eq; eauto].
    destruct (h !! fresh (dom h1)) eqn:E; [|reflexivity].
    pose proof (lookup_weaken _ _ _ _ E Hsub). congruence.
  - intros l Hl [o' Ho']. rewrite Ho'.
    assert (l <> fresh (dom h1)) by congruence.
    rewrite Ha; [now rewrite lookup_insert_ne | assumption |].
    rewrite lookup_insert_ne by congruence. eauto.
Qed.

(** The copy [alloc_json] makes of a tree. *)
Lemma alloc_json_ok (t : json) : alloc_ok t.
Proof.
  induction t as [| b | x | s | items IH | ms IH] using json_ind'; intros h v h' E.
  1-4: cbn in E; injection E as <- <-; (split; [reflexivity|]);
       intros h2 fuel _ _; unfold has_tree; destruct fuel; reflexivity.
  - rewrite alloc_json_arr in E. destruct (alloc_list items h) as [vs h1] eqn:El.
    injection E as <- <-. destruct (alloc_list_ok items IH _ _ _ El) as [S1 T1].
    split; [transitivity h1; [assumption | apply insert_fresh_subseteq]|].
    intros h2 fuel Ha Hd. destruct (agrees_new_fresh _ _ _ _ S1 Ha) as [Hl Ha1].
    destruct fuel as [|f]; [cbn in Hd; lia|]. cbn in Hd.
    unfold has_tree. cbn [json_of]. rewrite Hl. cbn [o_elems].
    rewrite (json_of_items h2 f vs (map canon items)).
    + cbn [canon]. rewrite map_map. cbn [default]. now rewrite map_id.
    + apply T1; [assumption|]. apply fold_max_le. lia.
  - rewrite alloc_json_obj in E. destruct (alloc_members ms [] h) as [props h1] eqn:El.
    injection E as <- <-. destruct (alloc_members_ok ms IH _ _ _ _ El) as [S1 T1].
    split; [transitivity h1; [assumption | apply insert_fresh_subseteq]|].
    intros h2 fuel Ha Hd. destruct (agrees_new_fresh _ _ _ _ S1 Ha) as [Hl Ha1].
    destruct fuel as [|f]; [cbn in Hd; lia|]. cbn in Hd.
    unfold has_tree. cbn [json_of]. rewrite Hl. cbn [o_elems o_props].
    specialize (T1 h2 f [] Ha1).
    destruct (json_of_members h2 f props _ (T1 ltac:(apply (fold_max_le (fun kt => json_depth (snd kt))); lia)
                                                ltac:(constructor))) as [E1 E2].
    rewrite E1, E2. reflexivity.
Qed.

(** *** Listeners only read the store *)

Definition is_write (e : event) : bool :=
  match e with
  | ESet _ _ => true
  | _ => false
  end.

(** From [w] to [w'] the store's data is not written: the heap is the
    same, no [set] is logged, and the batch in progress is as it was. *)
Definition reads_only (w w' : world) : Prop :=
  w_heap w' = w_heap w
  /\ st_root (w_store w') = st_root (w_store w)
  /\ st_depth (w_store w') = st_depth (w_store w)
  /\ st_pending (w_store w') = st_pending (w_store w)
  /\ exists l, w_log w' = l ++ w_log w /\ Forall (fun e => is_write e = false) l.

Lemma reads_only_refl (w : world) : reads_only w w.
Proof. repeat split. exists []. split; [reflexivity | constructor]. Qed.

Lemma reads_only_trans (w1 w2 w3 : world) :
  reads_only w1 w2 -> reads_only w2 w3 -> reads_only w1 w3.
Proof.
  intros (H1 & R1 & D1 & P1 & l1 & L1 & F1) (H2 & R2 & D2 & P2 & l2 & L2 & F2).
  repeat split; try congruence.
  exists (l2 ++ l1). split; [now rewrite L2, L1, app_assoc | now apply Forall_app].
Qed.

(** A step that leaves heap, store and log alone. *)
Lemma reads_only_same (w w' : world) :
  w_heap w' = w_heap w -> w_store w' = w_store w -> w_log w' = w_log w -> reads_only w w'.
Proof.
  intros Hh Hs Hl. unfold reads_only. rewrite Hh, Hs, Hl. repeat split.
  exists []. split; [reflexivity | constructor].
Qed.

Lemma reads_only_fold {A : Type} (f : world -> A -> world) (l : list A) :
  (forall w a, reads_only w (f w a)) -> forall w, reads_only w (fold_left f l w).
Proof.
  intros Hf. induction l as [|a l IH]; intros w; cbn; [apply reads_only_refl|].
  eapply reads_only_trans; [apply Hf | apply IH].
Qed.

Lemma store_subscribe_reads (p : string) (f : listener) (w : world) :
  reads_only w (snd (store_subscribe p f w)).
Proof.
  repeat split. exists [ESubscribe (st_next (w_store w)) p].
  split; [reflexivity | repeat constructor].
Qed.

Lemma store_unsub_reads (id : subid) (w : world) : reads_only w (store_unsub id w).
Proof. repeat split. exists [EUnsub id]. split; [reflexivity | repeat constructor]. Qed.

Lemma dom_update_reads (n : node) (f : element -> element) (w : world) :
  reads_only w (dom_update n f w).
Proof. now apply reads_only_same. Qed.

Lemma update_effect_reads (n : node) (w w' : world) :
  update_effect n w w' -> reads_only w w'.
Proof.
  intros [|f Hf|]; [apply reads_only_refl | apply dom_update_reads | now apply reads_only_same].
Qed.

Lemma updateFn_reads (b : binding) (v : value) (w : world) :
  reads_only w (state_of (updateFn b v w)).
Proof. eapply update_effect_reads, updateFn_effect. Qed.

Lemma subscribe_push_reads (p : string) (f : listener) (n : node) (w : world) :
  reads_only w (let '(u, w2) := store_subscribe p f w in
                set_subs (w_subs w2 ++ [(n, u)]) w2).
Proof.
  cbn. repeat split. exists [ESubscribe (st_next (w_store w)) p].
  split; [reflexivity | repeat constructor].
Qed.

Lemma addBinding_reads (p : string) (n : node) (b : binding) (w : world) :
  reads_only w (state_of (addBinding p n b w)).
Proof.
  unfold addBinding. apply (and_then_preserves reads_only reads_only_trans).
  - apply updateFn_reads.
  - intros w1. pose proof (subscribe_push_reads p (LUpdate b) n w1) as H.
    now destruct (store_subscribe p (LUpdate b) w1).
Qed.

Lemma cleanupWithin_reads (c : node) (w : world) : reads_only w (cleanupWithin c w).
Proof.
  rewrite cleanupWithin_eq.
  set (gone := List.filter (inside w c) (w_subs w)).
  destruct (revoke_all_store gone w) as (_ & Hlog & Hr & _ & Hd & Hp & Hh & _).
  repeat split; cbn; try assumption.
  exists (map (fun s => EUnsub (snd s)) gone). split; [assumption|].
  apply List.Forall_forall. intros e He. apply in_map_iff in He.
  now destruct He as (s & <- & _).
Qed.

Lemma scan_node_reads (w : world) (n : node) : reads_only w (state_of (scan_node w n)).
Proof.
  apply (scan_node_preserves reads_only reads_only_refl reads_only_trans n).
  - apply update_effect_reads.
  - intros p f w0. apply subscribe_push_reads.
  - intros f w0 _. apply dom_update_reads.
Qed.

Lemma scanBindings_reads (el : node) (w : world) :
  reads_only w (state_of (scanBindings el w)).
Proof.
  unfold scanBindings.
  apply (for_each_preserves reads_only reads_only_refl reads_only_trans), scan_node_reads.
Qed.

Lemma coll_update_reads (c : node) (f : coll -> coll) (w : world) :
  reads_only w (coll_update c f w).
Proof.
  unfold coll_update. destruct (w_colls w !! c); [now apply reads_only_same | apply reads_only_refl].
Qed.

Lemma remove_step_reads (c : node) (keys : list string) (w : world) (e : string * node) :
  reads_only w (remove_step c keys w e).
Proof.
  unfold remove_step. destruct e as [k el]. destruct (existsb _ _); [apply reads_only_refl|].
  eapply reads_only_trans; [apply cleanupWithin_reads|].
  eapply reads_only_trans; [|apply coll_update_reads]. now apply reads_only_same.
Qed.

Lemma set_innerHTML_reads (tmp : node) (html : string) (w : world) :
  reads_only w (set_innerHTML tmp html w).
Proof.
  unfold set_innerHTML.
  destruct (instantiate_all (parseFragment html) (w_next_node w) (w_dom w)) as [[ids nx] d].
  now apply reads_only_same.
Qed.

Lemma add_step_reads (c : node) (w : world) (k : string) :
  reads_only w (state_of (add_step c w k)).
Proof.
  unfold add_step. destruct (w_colls w !! c) as [st|]; [|apply reads_only_refl].
  destruct (rendered_has k (c_rendered st)); [apply reads_only_refl|].
  cbn [createElement].
  set (w1 := set_next_node _ _).
  assert (H1 : reads_only w w1) by now apply reads_only_same.
  eapply reads_only_trans; [exact H1|].
  eapply reads_only_trans; [apply set_innerHTML_reads|].
  destruct (firstElementChild _ _) as [el|]; [|apply reads_only_refl].
  eapply reads_only_trans; [|apply scanBindings_reads].
  eapply reads_only_trans; [|apply coll_update_reads].
  now apply reads_only_same.
Qed.

Lemma reconcile_reads (c : node) (w : world) : reads_only w (state_of (reconcile c w)).
Proof.
  unfold reconcile. destruct (w_colls w !! c) as [st|]; [|apply reads_only_refl].
  destruct (String.eqb _ _); [apply reads_only_refl|].
  cbv zeta.
  eapply reads_only_trans;
    [|apply (for_each_preserves reads_only reads_only_refl reads_only_trans), add_step_reads].
  eapply reads_only_trans; [|apply reads_only_fold, remove_step_reads].
  apply coll_update_reads.
Qed.

Lemma run_listener_reads (f : listener) (v : value) (w : world) :
  reads_only w (state_of (run_listener f v w)).
Proof. destruct f; cbn [run_listener]; [apply updateFn_reads | apply reconcile_reads]. Qed.

(** A notification logs the listener calls and writes nothing. *)
Lemma notify_reads (p : string) (w : world) : reads_only w (state_of (notify p w)).
Proof.
  unfold notify. apply (for_each_preserves reads_only reads_only_refl reads_only_trans).
  intros w0 [[id sp] f].
  destruct (subscribed id w0); [|apply reads_only_refl].
  eapply reads_only_trans with (w2 := log_event (ENotify id p) w0).
  - repeat split. exists [ENotify id p]. split; [reflexivity | repeat constructor].
  - apply run_listener_reads.
Qed.

(** *** The element tree *)

Lemma flat_map_ext_in {A B : Type} (f g : A -> list B) (l : list A) :
  (forall x, In x l -> f x = g x) -> flat_map f l = flat_map g l.
Proof.
  induction l as [|a l IH]; cbn; intros H; [reflexivity|].
  rewrite (H a) by now left. rewrite IH; [reflexivity|]. intros x Hx. apply H. now right.
Qed.

(** The fuel of [descendants] is enough as soon as it exceeds the rank
    of the node, for any ranking that decreases from a node to its
    children: more fuel finds the same descendants.  In a tree whose
    nodes are numbered below [w_next_node], the height of a node is such
    a ranking. *)
Lemma descendants_fuel (d : gmap node element) (rank : node -> nat) :
  (forall n c, In c (el_children (el_at d n)) -> rank c < rank n) ->
  forall f f' n, rank n < f -> rank n < f' -> descendants f d n = descendants f' d n.
Proof.
  intros Hr. induction f as [|f IH]; intros f' n Hf Hf'; [lia|].
  destruct f' as [|f']; [lia|]. cbn. apply flat_map_ext_in. intros c Hc.
  f_equal. specialize (Hr n c Hc). apply IH; lia.
Qed.

Lemma descendants_mono (d : gmap node element) (f f' : nat) :
  f <= f' -> forall n, incl (descendants f d n) (descendants f' d n).
Proof.
  revert f'. induction f as [|f IH]; intros f' Hle n; [intros x []|].
  destruct f' as [|f']; [lia|]. cbn. intros x Hx.
  apply in_flat_map in Hx. destruct Hx as (c & Hc & Hx).
  apply in_flat_map. exists c. split; [assumption|].
  destruct Hx as [->|Hx]; [now left | right]. apply (IH f'); [lia | assumption].
Qed.

Definition without_child (e : node) (el : element) : element :=
  with_children (List.filter (fun c => negb (Nat.eqb c e)) (el_children el)) el.

Lemma el_at_fmap (f : element -> element) (d : gmap node element) (x : node) :
  f blank_element = blank_element -> el_at (f <$> d) x = f (el_at d x).
Proof.
  intros Hb. unfold el_at. rewrite lookup_fmap. now destruct (d !! x).
Qed.

Lemma remove_node_children (e : node) (w : world) (x : node) :
  el_children (el_at (w_dom (remove_node e w)) x)
  = List.filter (fun c => negb (Nat.eqb c e)) (el_children (el_at (w_dom w) x)).
Proof.
  unfold remove_node. cbn [w_dom set_dom].
  now rewrite (el_at_fmap (without_child e)).
Qed.

Lemma In_existsb_eqb (n : node) (l : list node) : existsb (Nat.eqb n) l = true <-> In n l.
Proof.
  rewrite existsb_exists. split.
  - intros (x & Hx & E). apply Nat.eqb_eq in E. now subst.
  - intros H. exists n. split; [assumption | apply Nat.eqb_refl].
Qed.

(** Taking [e] out of its parent: a node within [x] before is within [x]
    after, unless it was within [e]. *)
Lemma descendants_remove (d d' : gmap node element) (e : node) :
  (forall x, el_children (el_at d' x)
             = List.filter (fun c => negb (Nat.eqb c e)) (el_children (el_at d x))) ->
  forall f x n,
    In n (descendants f d x) ->
    In n (descendants f d' x) \/ In n (e :: descendants f d e).
Proof.
  intros Hd. induction f as [|f IH]; intros x n Hn; [destruct Hn|].
  cbn in Hn. apply in_flat_map in Hn. destruct Hn as (c & Hc & Hn).
  destruct (Nat.eq_dec c e) as [->|Hne].
  - right. destruct Hn as [<-|Hn]; [now left | right].
    now apply (descendants_mono d f (S f)); [lia|].
  - assert (Hc' : In c (el_children (el_at d' x))).
    { rewrite Hd. apply List.filter_In. split; [assumption|].
      apply negb_true_iff, Nat.eqb_neq. assumption. }
    destruct Hn as [<-|Hn].
    + left. cbn. apply in_flat_map. exists c. split; [assumption | now left].
    + destruct (IH c n Hn) as [H|[H|H]].
      * left. cbn. apply in_flat_map. exists c. split; [assumption | now right].
      * right. now left.
      * right. right. now apply (descendants_mono d f (S f)); [lia|].
Qed.

Lemma contains_remove (w w1 : world) (e : node) :
  w_next_node w1 = w_next_node w ->
  (forall x, el_children (el_at (w_dom w1) x)
             = List.filter (fun c => negb (Nat.eqb c e)) (el_children (el_at (w_dom w) x))) ->
  forall x n, contains w x n = true -> contains w1 x n = true \/ contains w e n = true.
Proof.
  intros Hn Hd x n. unfold contains, all_descendants. rewrite Hn.
  rewrite !In_existsb_eqb. intros [<-|H]; [left; now left|].
  destruct (descendants_remove _ _ e Hd _ _ _ H) as [H1|H1]; [left; now right | now right].
Qed.

(** *** Reconciliation: removing *)

Definition children_of (w : world) (x : node) : list node := el_children (el_at (w_dom w) x).

(** The keys of the entries the first loop of [reconcile] deletes. *)
Definition gone_keys (keys : list string) (entries : list (string * node)) : list string :=
  map fst (List.filter (fun e => negb (existsb (String.eqb (fst e)) keys)) entries).

Lemma remove_step_gone (c : node) (keys : list string) (w : world) (k : string) (el : node)
      (st : coll) :
  w_colls w !! c = Some st ->
  existsb (String.eqb k) keys = false ->
  let w1 := remove_step c keys w (k, el) in
  w_colls w1 !! c = Some (with_rendered (rendered_delete k (c_rendered st)) st)
  /\ w_subs w1 = List.filter (fun s => negb (inside w el s)) (w_subs w)
  /\ w_next_node w1 = w_next_node w
  /\ st_next (w_store w1) = st_next (w_store w)
  /\ (forall x, children_of w1 x
                = List.filter (fun n => negb (Nat.eqb n el)) (children_of w x)).
Proof.
  intros Hc Hk w1. subst w1. unfold remove_step. rewrite Hk.
  destruct (cleanupWithin_effect el w) as (Hs & _ & Hd & Hn & Hcl & Hsn).
  cbv zeta in *. set (w1 := cleanupWithin el w) in *.
  unfold coll_update. change (w_colls (remove_node el w1)) with (w_colls w1).
  rewrite Hcl, Hc. cbn [w_colls set_colls w_subs w_next_node w_store].
  rewrite lookup_insert_eq.
  change (w_subs (remove_node el w1)) with (w_subs w1).
  change (w_next_node (remove_node el w1)) with (w_next_node w1).
  change (w_store (remove_node el w1)) with (w_store w1).
  repeat split; try assumption.
  intros x. unfold children_of. cbn [w_dom set_colls].
  rewrite remove_node_children. now rewrite Hd.
Qed.

Lemma incl_filter {A : Type} (f : A -> bool) (l : list A) : incl (List.filter f l) l.
Proof. intros x Hx. now apply List.filter_In in Hx. Qed.

(** The first loop of [reconcile], over any entries. *)
Lemma remove_phase (c : node) (keys : list string) (entries : list (string * node)) :
  forall (w : world) (st : coll),
    w_colls w !! c = Some st ->
    let w' := fold_left (remove_step c keys) entries w in
    w_colls w' !! c
    = Some (with_rendered
              (List.filter (fun e => negb (existsb (String.eqb (fst e)) (gone_keys keys entries)))
                           (c_rendered st)) st)
    /\ w_next_node w' = w_next_node w
    /\ st_next (w_store w') = st_next (w_store w)
    /\ (exists keep, w_subs w' = List.filter keep (w_subs w))
    /\ (forall x, incl (children_of w' x) (children_of w x))
    /\ (forall s, In s (w_subs w') ->
                  forall x, contains w x (fst s) = true -> contains w' x (fst s) = true)
    /\ (forall k el,
           In (k, el) entries -> existsb (String.eqb k) keys = false ->
           (forall s, In s (w_subs w') -> contains w el (fst s) = false)
           /\ (forall x, ~ In el (children_of w' x))).
Proof.
  induction entries as [|[k el] rest IH]; intros w st Hc; cbn [fold_left].
  - cbn. rewrite filter_all by reflexivity. destruct st. cbn.
    repeat split; auto using incl_refl; try contradiction.
    exists (fun _ => true). now rewrite filter_all.
  - destruct (existsb (String.eqb k) keys) eqn:Hk.
    + (* the entry stays *)
      assert (Hw : remove_step c keys w (k, el) = w) by (unfold remove_step; now rewrite Hk).
      rewrite Hw. specialize (IH w st Hc). cbv zeta in IH.
      destruct IH as (I1 & I2 & I3 & I4 & I5 & I6 & I7).
      unfold gone_keys in *. cbn [List.filter fst]. rewrite Hk. cbn [negb].
      repeat split; try assumption.
      * destruct H as [E|H]; [congruence|]. now apply (I7 k0 el0).
      * destruct H as [E|H]; [congruence|]. now apply (I7 k0 el0).
    + (* the entry goes *)
      destruct (remove_step_gone c keys w k el st Hc Hk) as (S1 & S2 & S3 & S4 & S5).
      cbv zeta in S1, S2, S3, S4, S5. set (w1 := remove_step c keys w (k, el)) in *.
      specialize (IH w1 _ S1). cbv zeta in IH.
      destruct IH as (I1 & I2 & I3 & (keep & I4) & I5 & I6 & I7).
      set (w' := fold_left (remove_step c keys) rest w1) in *.
      assert (Hsub : forall s, In s (w_subs w') -> In s (w_subs w1)).
      { intros s Hs. rewrite I4 in Hs. now apply incl_filter in Hs. }
      assert (Hstep : forall s, In s (w_subs w1) ->
                                forall x, contains w x (fst s) = true ->
                                          contains w1 x (fst s) = true).
      { intros s Hs x Hx. rewrite S2 in Hs. apply List.filter_In in Hs.
        destruct Hs as [_ Hs]. unfold inside in Hs. apply negb_true_iff in Hs.
        destruct (contains_remove w w1 el S3 S5 x (fst s) Hx); [assumption | congruence]. }
      split; [|split; [|split; [|split; [|split; [|split]]]]].
      * rewrite I1. unfold gone_keys. cbn [List.filter fst]. rewrite Hk. cbn [negb map fst].
        destruct st as [p t r ls]. unfold with_rendered, rendered_delete.
        cbn [c_path c_template c_rendered c_lastKeyStr]. rewrite filter_filter.
        do 2 f_equal. apply List.filter_ext. intros e.
        cbn [existsb]. now rewrite negb_orb.
      * congruence.
      * congruence.
      * exists (fun s => negb (inside w el s) && keep s).
        now rewrite I4, S2, filter_filter.
      * intros x. eapply incl_tran; [apply I5|]. rewrite S5. apply incl_filter.
      * intros s Hs x Hx. apply I6; [assumption|]. apply Hstep; auto.
      * intros k0 el0 [E|Hin] Hk0.
        -- injection E as <- <-. split.
           ++ intros s Hs. apply Hsub in Hs. rewrite S2 in Hs.
              apply List.filter_In in Hs. destruct Hs as [_ Hs].
              unfold inside in Hs. now apply negb_true_iff in Hs.
           ++ intros x Hx. apply I5 in Hx. rewrite S5 in Hx.
              apply List.filter_In in Hx. destruct Hx as [_ Hx].
              apply negb_true_iff, Nat.eqb_neq in Hx. congruence.
        -- destruct (I7 k0 el0 Hin Hk0) as [J1 J2]. split; [|assumption].
           intros s Hs. destruct (contains w el0 (fst s)) eqn:E; [|reflexivity].
           rewrite <- (J1 s Hs). symmetry. apply Hstep; auto.
Qed.

(** *** Reconciliation: new nodes *)

Section MarkupInduction.

Variable P : markup -> Prop.
Hypothesis Hnode : forall e kids, Forall P kids -> P (Markup e kids).

Fixpoint markup_ind' (m : markup) : P m :=
  match m with
  | Markup e kids =>
      Hnode e kids
        ((fix go (l : list markup) : Forall P l :=
            match l with
            | [] => List.Forall_nil P
            | x :: r => @List.Forall_cons _ P x r (markup_ind' x) (go r)
            end) kids)
  end.

End MarkupInduction.

Lemma instantiate_eq (e : element) (kids : list markup) (next : node)
      (d : gmap node element) :
  instantiate (Markup e kids) next d
  = let '(ids, next', d') := instantiate_all kids (S next) d in
    (next, next', <[next := with_children ids e]> d').
Proof. reflexivity. Qed.

(** The children of the nodes numbered from [lo] up to [hi] are numbered
    from [lo] up to [hi]. *)
Definition range_closed (lo hi : node) (d : gmap node element) : Prop :=
  forall x, lo <= x < hi -> forall y, In y (el_children (el_at d x)) -> lo <= y < hi.

(** New nodes are numbered from [next] up to the next free number, are
    closed under children, and leave every other node as it was. *)
Definition fresh_nodes (next next' : node) (d d' : gmap node element) : Prop :=
  next <= next'
  /\ (forall x, x < next \/ next' <= x -> d' !! x = d !! x)
  /\ range_closed next next' d'.

Definition inst_ok (m : markup) : Prop :=
  forall next d i next' d',
    instantiate m next d = (i, next', d') ->
    i = next /\ next < next' /\ fresh_nodes next next' d d'.

Lemma instantiate_all_ok (ms : list markup) :
  Forall inst_ok ms ->
  forall next d ids next' d',
    instantiate_all ms next d = (ids, next', d') ->
    fresh_nodes next next' d d'
    /\ Forall (fun i => next <= i < next') ids
    /\ head ids = match ms with [] => None | _ :: _ => Some next end.
Proof.
  induction 1 as [|m ms Hm _ IH]; intros next d ids next' d' E; cbn in E.
  - injection E as <- <- <-. repeat split; auto; lia.
  - destruct (instantiate m next d) as [[i n1] d1] eqn:Em.
    destruct (instantiate_all ms n1 d1) as [[rest n2] d2] eqn:Er.
    injection E as <- <- <-.
    destruct (Hm _ _ _ _ _ Em) as (-> & Hlt & H1 & F1 & C1).
    destruct (IH _ _ _ _ _ Er) as ((H2 & F2 & C2) & Hids & _).
    split; [|split].
    + split; [lia|]. split.
      * intros x Hx. rewrite F2 by lia. apply F1. lia.
      * intros x Hx y Hy. destruct (Nat.lt_ge_cases x n1) as [Hlo|Hhi].
        -- unfold el_at in Hy. rewrite F2 in Hy by lia.
           specialize (C1 x ltac:(lia) y Hy). lia.
        -- specialize (C2 x ltac:(lia) y Hy). lia.
    + constructor; [lia|]. eapply List.Forall_impl; [|exact Hids]. cbn. intros; lia.
    + reflexivity.
Qed.

Lemma instantiate_ok (m : markup) : inst_ok m.
Proof.
  induction m as [e kids IH] using markup_ind'. intros next d i next' d' E.
  rewrite instantiate_eq in E.
  destruct (instantiate_all kids (S next) d) as [[ids n1] d1] eqn:Ek.
  injection E as <- <- <-.
  destruct (instantiate_all_ok kids IH _ _ _ _ _ Ek) as ((H1 & F1 & C1) & Hids & _).
  split; [reflexivity|]. split; [lia|]. split; [lia|]. split.
  - intros x Hx. rewrite lookup_insert_ne by lia. apply F1. lia.
  - intros x Hx y Hy. rewrite el_at_insert in Hy.
    destruct (decide (next = x)) as [->|Hne].
    + cbn in Hy. rewrite List.Forall_forall in Hids. specialize (Hids y Hy). lia.
    + specialize (C1 x ltac:(lia) y Hy). lia.
Qed.

Lemma instantiate_all_fresh (ms : list markup) (next : node) (d : gmap node element) :
  forall ids next' d',
    instantiate_all ms next d = (ids, next', d') ->
    fresh_nodes next next' d d'
    /\ Forall (fun i => next <= i < next') ids
    /\ head ids = match ms with [] => None | _ :: _ => Some next end.
Proof.
  apply instantiate_all_ok. apply List.Forall_forall. intros m _. apply instantiate_ok.
Qed.

Lemma descendants_in_range (lo hi : node) (d : gmap node element) :
  range_closed lo hi d ->
  forall f x, lo <= x < hi -> forall y, In y (descendants f d x) -> lo <= y < hi.
Proof.
  intros Hc. induction f as [|f IH]; intros x Hx y Hy; [destruct Hy|].
  cbn in Hy. apply in_flat_map in Hy. destruct Hy as (c & Hcx & Hy).
  specialize (Hc x Hx c Hcx). destruct Hy as [<-|Hy]; [assumption|]. now apply (IH c).
Qed.

(** The registry grows at its end, by entries on nodes that satisfy
    [P]. *)
Definition subs_grow (P : node -> Prop) (w w' : world) : Prop :=
  exists l, w_subs w' = w_subs w ++ l /\ Forall (fun s => P (fst s)) l.

Lemma subs_grow_refl (P : node -> Prop) (w w' : world) :
  w_subs w' = w_subs w -> subs_grow P w w'.
Proof. intros H. exists []. split; [now rewrite app_nil_r | constructor]. Qed.

Lemma subs_grow_trans (P : node -> Prop) (w1 w2 w3 : world) :
  subs_grow P w1 w2 -> subs_grow P w2 w3 -> subs_grow P w1 w3.
Proof.
  intros (l1 & E1 & F1) (l2 & E2 & F2). exists (l1 ++ l2).
  split; [now rewrite E2, E1, app_assoc | now apply Forall_app].
Qed.

Lemma subs_grow_impl (P Q : node -> Prop) (w w' : world) :
  (forall n, P n -> Q n) -> subs_grow P w w' -> subs_grow Q w w'.
Proof.
  intros H (l & E & F). exists l. split; [assumption|].
  eapply List.Forall_impl; [|exact F]. cbn. auto.
Qed.

(** An update function writes on the tree, and on its own node, only. *)
Lemma update_effect_fields (n : node) (w w' : world) :
  update_effect n w w' ->
  w_heap w' = w_heap w
  /\ w_store w' = w_store w
  /\ w_subs w' = w_subs w
  /\ w_colls w' = w_colls w
  /\ w_log w' = w_log w
  /\ w_next_node w' = w_next_node w
  /\ (forall x, n <> x -> el_at (w_dom w') x = el_at (w_dom w) x).
Proof.
  intros [|f Hf|]; repeat split; try reflexivity.
  intros x Hne. unfold dom_update. cbn. rewrite el_at_insert.
  destruct (decide (n = x)); [contradiction | reflexivity].
Qed.

Lemma updateFn_subs (b : binding) (v : value) (w : world) :
  w_subs (state_of (updateFn b v w)) = w_subs w.
Proof. now destruct (update_effect_fields _ _ _ (updateFn_effect b v w)) as (_ & _ & H & _). Qed.

Lemma subs_grow_same (P : node -> Prop) (w : world) : subs_grow P w w.
Proof. now apply subs_grow_refl. Qed.

Lemma subs_grow_fold {A : Type} (P : node -> Prop) (f : world -> A -> world) (l : list A) :
  (forall w a, In a l -> subs_grow P w (f w a)) -> forall w, subs_grow P w (fold_left f l w).
Proof.
  induction l as [|a l IH]; intros Hf w; cbn; [now apply subs_grow_refl|].
  eapply subs_grow_trans; [apply Hf; now left|]. apply IH. intros; apply Hf; now right.
Qed.

Lemma scan_node_subs (w : world) (n : node) :
  subs_grow (eq n) w (state_of (scan_node w n)).
Proof.
  apply (scan_node_preserves (subs_grow (eq n)) (subs_grow_same _) (subs_grow_trans _) n).
  - intros w0 w' H. apply subs_grow_refl. now apply (update_effect_fields _ _ _ H).
  - intros p f w0. cbn. exists [(n, st_next (w_store w0))].
    split; [reflexivity | repeat constructor].
  - intros f w0 _. now apply subs_grow_refl.
Qed.

(** A scan adds registry entries on nodes of the subtree scanned only. *)
Lemma scanBindings_subs (el : node) (w : world) :
  subs_grow (fun n => In n (el :: all_descendants w el)) w (state_of (scanBindings el w)).
Proof.
  unfold scanBindings. destruct (el_element _); [|now apply subs_grow_refl].
  apply (for_each_preserves_in _ (subs_grow_same _) (subs_grow_trans _)).
  intros w0 n Hn. eapply subs_grow_impl; [|apply scan_node_subs]. now intros ? <-.
Qed.

Lemma children_dom_update (n : node) (f : element -> element) (w : world) (x : node) :
  children_of (dom_update n f w) x
  = if decide (n = x) then el_children (f (el_at (w_dom w) n)) else children_of w x.
Proof.
  unfold children_of, dom_update. cbn [w_dom set_dom]. rewrite el_at_insert.
  now destruct (decide (n = x)) as [->|].
Qed.

(** Scanning leaves the collections alone. *)
Definition same_colls (w w' : world) : Prop := w_colls w' = w_colls w.

Lemma same_colls_trans (w1 w2 w3 : world) :
  same_colls w1 w2 -> same_colls w2 w3 -> same_colls w1 w3.
Proof. unfold same_colls. congruence. Qed.

Lemma scan_node_colls (w : world) (n : node) :
  w_colls (state_of (scan_node w n)) = w_colls w.
Proof.
  apply (scan_node_preserves same_colls (fun w => eq_refl) same_colls_trans n).
  - intros w0 w' H. now apply (update_effect_fields _ _ _ H).
  - reflexivity.
  - reflexivity.
Qed.

Lemma scanBindings_colls (el : node) (w : world) :
  w_colls (state_of (scanBindings el w)) = w_colls w.
Proof.
  unfold scanBindings.
  apply (for_each_preserves same_colls (fun w => eq_refl) same_colls_trans).
  intros w0 n. apply scan_node_colls.
Qed.

(** Scanning writes on the nodes it visits only. *)
Definition same_node (x : node) (w w' : world) : Prop :=
  el_at (w_dom w') x = el_at (w_dom w) x.

Lemma same_node_trans (x : node) (w1 w2 w3 : world) :
  same_node x w1 w2 -> same_node x w2 w3 -> same_node x w1 w3.
Proof. unfold same_node. congruence. Qed.

Lemma dom_update_frame (n : node) (f : element -> element) (w : world) (x : node) :
  n <> x -> el_at (w_dom (dom_update n f w)) x = el_at (w_dom w) x.
Proof.
  intros Hne. unfold dom_update. cbn. rewrite el_at_insert.
  destruct (decide (n = x)); [contradiction | reflexivity].
Qed.

Lemma updateFn_frame (b : binding) (v : value) (w : world) (x : node) :
  binding_node b <> x -> el_at (w_dom (state_of (updateFn b v w))) x = el_at (w_dom w) x.
Proof.
  intros Hne. now apply (update_effect_fields _ _ _ (updateFn_effect b v w)).
Qed.

Lemma scan_node_frame (w : world) (n x : node) :
  n <> x -> el_at (w_dom (state_of (scan_node w n))) x = el_at (w_dom w) x.
Proof.
  intros Hne.
  apply (scan_node_preserves (same_node x) (fun w => eq_refl) (same_node_trans x) n).
  - intros w0 w' H. now apply (update_effect_fields _ _ _ H).
  - reflexivity.
  - intros f w0 _. now apply dom_update_frame.
Qed.

Lemma scanBindings_frame (el : node) (w : world) (x : node) :
  ~ In x (el :: all_descendants w el) ->
  el_at (w_dom (state_of (scanBindings el w))) x = el_at (w_dom w) x.
Proof.
  intros Hx. unfold scanBindings. destruct (el_element _); [|reflexivity].
  apply (for_each_preserves_in (same_node x) (fun w => eq_refl) (same_node_trans x)).
  intros w0 n Hn. apply scan_node_frame. now intros ->.
Qed.

(** *** Reconciliation: adding *)

(** The root elements the template's markup yields for a key. *)
Definition markup_of (st : coll) (k : string) : list markup :=
  parseFragment (resolve (c_path st) (c_template st) k).

(** The collection state after [add_step]. *)
Definition added_state (w : world) (st : coll) (k : string) : coll :=
  if rendered_has k (c_rendered st) then st
  else
    match markup_of st k with
    | [] => st
    | _ :: _ => with_rendered (rendered_set k (S (w_next_node w)) (c_rendered st)) st
    end.

(** What one pass of the second loop of [reconcile] does: the collection
    state, the registry, the children and the numbering of nodes. *)
Definition add_effect (c : node) (st : coll) (k : string) (w w' : world) : Prop :=
  w_colls w' !! c = Some (added_state w st k)
  /\ w_next_node w <= w_next_node w'
  /\ subs_grow (fun n => w_next_node w <= n) w w'
  /\ (forall x y, In y (children_of w' x) -> In y (children_of w x) \/ w_next_node w <= y)
  /\ (forall x y, x < w_next_node w -> y < w_next_node w ->
                  In y (children_of w x) -> In y (children_of w' x))
  /\ (c < w_next_node w -> rendered_has k (c_rendered st) = false -> markup_of st k <> [] ->
      children_of w' c
      = List.filter (fun n => negb (Nat.eqb n (S (w_next_node w)))) (children_of w c)
        ++ [S (w_next_node w)]
      /\ S (w_next_node w) < w_next_node w').

Lemma add_step_effect (c : node) (w : world) (k : string) (st : coll) :
  w_colls w !! c = Some st -> add_effect c st k w (state_of (add_step c w k)).
Proof.
  intros Hc. unfold add_effect, added_state, add_step. rewrite Hc.
  destruct (rendered_has k (c_rendered st)).
  { cbn [state_of]. repeat split; auto; try discriminate. now apply subs_grow_refl. }
  cbn [createElement]. unfold set_innerHTML.
  set (tmp := w_next_node w).
  set (wc := set_next_node (S tmp) (set_dom _ w)).
  change (w_next_node wc) with (S tmp).
  change (parseFragment (resolve (c_path st) (c_template st) k)) with (markup_of st k).
  destruct (instantiate_all (markup_of st k) (S tmp) (w_dom wc)) as [[ids next] d] eqn:Ei.
  destruct (instantiate_all_fresh _ _ _ _ _ _ Ei) as ((Hle & Hframe & Hclosed) & Hids & Hhead).
  set (w2 := dom_update tmp (with_children ids) _).
  assert (Hch2 : forall x, children_of w2 x
                           = if decide (tmp = x) then ids else el_children (el_at d x)).
  { intros x. subst w2. rewrite children_dom_update. reflexivity. }
  assert (Hold : forall x y, In y (children_of w2 x) -> In y (children_of w x) \/ tmp <= y).
  { intros x y. rewrite Hch2. destruct (decide (tmp = x)) as [<-|Hne].
    - intros Hy. rewrite List.Forall_forall in Hids. specialize (Hids y Hy). right; lia.
    - intros Hy. destruct (Nat.lt_ge_cases x (S tmp)) as [Hlo|Hhi].
      + left. unfold children_of, el_at in *. rewrite Hframe in Hy by lia.
        subst wc. cbn [w_dom set_next_node set_dom] in Hy.
        rewrite lookup_insert_ne in Hy by lia. exact Hy.
      + destruct (Nat.lt_ge_cases x next) as [Hin|Hout].
        * right. specialize (Hclosed x ltac:(lia) y Hy). lia.
        * left. unfold children_of, el_at in *. rewrite Hframe in Hy by lia.
          subst wc. cbn [w_dom set_next_node set_dom] in Hy.
          rewrite lookup_insert_ne in Hy by lia. exact Hy. }
  assert (Hcl2 : range_closed tmp next (w_dom w2)).
  { intros x Hx y Hy. change (In y (children_of w2 x)) in Hy. rewrite Hch2 in Hy.
    destruct (decide (tmp = x)) as [<-|Hne].
    - rewrite List.Forall_forall in Hids. specialize (Hids y Hy). lia.
    - specialize (Hclosed x ltac:(lia) y Hy). lia. }
  unfold firstElementChild. change (el_children (el_at (w_dom w2) tmp)) with (children_of w2 tmp).
  rewrite Hch2. destruct (decide (tmp = tmp)) as [_|]; [|contradiction].
  rewrite Hhead. destruct (markup_of st k) as [|m ms].
  { (* no root element *)
    cbn [state_of]. split; [assumption|]. split; [cbn; lia|]. split; [now apply subs_grow_refl|].
    split; [exact Hold|]. split; [|now intros _ _ []].
    intros x y Hx Hy Hin. rewrite Hch2. destruct (decide (tmp = x)) as [<-|_]; [lia|].
    unfold children_of, el_at in *. rewrite Hframe by lia.
    subst wc. cbn [w_dom set_next_node set_dom].
    rewrite lookup_insert_ne by lia. exact Hin. }
  set (el := S tmp).
  set (w3 := dataset_set el "key" k w2).
  set (w4 := appendChild c el w3).
  set (w5 := coll_update c _ w4).
  assert (Hch3 : forall x, children_of w3 x = children_of w2 x).
  { intros x. subst w3. unfold dataset_set. rewrite children_dom_update.
    destruct (decide _) as [e|]; [subst x|]; reflexivity. }
  assert (Hch4 : forall x, children_of w4 x
                           = if decide (c = x)
                             then List.filter (fun n => negb (Nat.eqb n el)) (children_of w2 c)
                                  ++ [el]
                             else List.filter (fun n => negb (Nat.eqb n el)) (children_of w2 x)).
  { intros x. subst w4. unfold appendChild. rewrite children_dom_update.
    destruct (decide (c = x)) as [<-|].
    - cbn [el_children with_children]. fold (children_of (remove_node el w3) c).
      unfold children_of at 1. now rewrite remove_node_children, <- Hch3.
    - unfold children_of at 1. now rewrite remove_node_children, <- Hch3. }
  assert (Hc5 : w_colls w5 !! c
                = Some (with_rendered (rendered_set k el (c_rendered st)) st)).
  { subst w5. unfold coll_update. change (w_colls w4) with (w_colls w). rewrite Hc.
    cbn. apply lookup_insert_eq. }
  assert (Hdom5 : w_dom w5 = w_dom w4).
  { subst w5. unfold coll_update. now destruct (w_colls w4 !! c). }
  assert (Hn5 : w_next_node w5 = next).
  { subst w5. unfold coll_update. now destruct (w_colls w4 !! c). }
  assert (Hs5 : w_subs w5 = w_subs w).
  { subst w5. unfold coll_update. now destruct (w_colls w4 !! c). }
  assert (Hel : tmp <= el < next).
  { rewrite List.Forall_forall in Hids. destruct ids as [|i ids]; [discriminate|].
    injection Hhead as ->. specialize (Hids (S tmp) (or_introl eq_refl)). subst el. lia. }
  assert (Hcl5 : range_closed tmp next (w_dom w5)).
  { rewrite Hdom5. intros x Hx y Hy. change (In y (children_of w4 x)) in Hy.
    rewrite Hch4 in Hy. destruct (decide (c = x)) as [<-|].
    - apply in_app_or in Hy. destruct Hy as [Hy|[<-|[]]]; [|assumption].
      apply incl_filter in Hy. now apply (Hcl2 c).
    - apply incl_filter in Hy. now apply (Hcl2 x). }
  pose proof (scanBindings_subs el w5) as Hgrow.
  pose proof (scanBindings_le el w5) as Hle5.
  pose proof (scanBindings_colls el w5) as Hcolls.
  split; [now rewrite Hcolls|].
  assert (Hsub : forall n, In n (el :: all_descendants w5 el) -> tmp <= n).
  { intros n [<-|Hn]; [lia|]. unfold all_descendants in Hn.
    specialize (descendants_in_range tmp next _ Hcl5 _ el Hel n Hn). lia. }
  assert (Hfr : forall x, x < tmp ->
                          children_of (state_of (scanBindings el w5)) x = children_of w4 x).
  { intros x Hx. unfold children_of. rewrite scanBindings_frame, Hdom5; [reflexivity|].
    intros Hin. apply Hsub in Hin. lia. }
  assert (Hkeep : forall x y, x < tmp -> y < tmp ->
                              In y (children_of w x) -> In y (children_of w4 x)).
  { intros x y Hx Hy Hin.
    assert (H2 : In y (children_of w2 x)).
    { rewrite Hch2. destruct (decide (tmp = x)) as [<-|_]; [lia|].
      unfold children_of, el_at in *. rewrite Hframe by lia.
      subst wc. cbn [w_dom set_next_node set_dom].
      rewrite lookup_insert_ne by lia. exact Hin. }
    assert (H3 : In y (List.filter (fun n => negb (Nat.eqb n el)) (children_of w2 x))).
    { apply List.filter_In. split; [exact H2|].
      destruct (Nat.eqb_spec y el); [lia | reflexivity]. }
    rewrite Hch4. destruct (decide (c = x)) as [->|_]; [apply in_or_app; now left | exact H3]. }
  destruct Hle5 as [Hd5 Hnn]. split; [rewrite Hnn, Hn5; lia|]. split.
  { eapply subs_grow_trans; [now apply (subs_grow_refl _ w w5)|].
    eapply subs_grow_impl; [|exact Hgrow]. exact Hsub. }
  split.
  { intros x y Hy. destruct (Hd5 x) as (_ & Hincl & _).
    apply Hincl in Hy. rewrite Hdom5 in Hy. change (In y (children_of w4 x)) in Hy.
    rewrite Hch4 in Hy. destruct (decide (c = x)) as [<-|].
    + apply in_app_or in Hy. destruct Hy as [Hy|[<-|[]]]; [|right; lia].
      apply incl_filter in Hy. now apply Hold.
    + apply incl_filter in Hy. now apply Hold. }
  split.
  { intros x y Hx Hy Hin. rewrite Hfr by assumption. now apply Hkeep. }
  intros Hclt _ _. split; [|rewrite Hnn, Hn5; lia].
  rewrite Hfr by assumption. rewrite Hch4.
  destruct (decide (c = c)); [|contradiction]. do 2 f_equal.
  rewrite Hch2. destruct (decide (tmp = c)) as [<-|_]; [lia|].
  unfold children_of, el_at. rewrite Hframe by lia.
  subst wc. cbn [w_dom set_next_node set_dom].
  now rewrite lookup_insert_ne by lia.
Qed.

Lemma rendered_set_fresh (k : string) (el : node) (r : list (string * node)) :
  rendered_has k r = false -> rendered_set k el r = r ++ [(k, el)].
Proof.
  induction r as [|[k' el'] r IH]; cbn; [reflexivity|].
  destruct (String.eqb k' k); cbn; [discriminate|]. intros H. now rewrite IH.
Qed.

Lemma rendered_has_app (k : string) (r1 r2 : list (string * node)) :
  rendered_has k (r1 ++ r2) = rendered_has k r1 || rendered_has k r2.
Proof. unfold rendered_has. apply existsb_app. Qed.

(** Whether the markup of a key yields an element. *)
Definition yields (st : coll) (k : string) : bool :=
  match markup_of st k with
  | [] => false
  | _ :: _ => true
  end.

Lemma added_state_fields (w : world) (st : coll) (k : string) :
  c_path (added_state w st k) = c_path st
  /\ c_template (added_state w st k) = c_template st
  /\ c_lastKeyStr (added_state w st k) = c_lastKeyStr st.
Proof.
  unfold added_state. destruct (rendered_has _ _); [auto|].
  destruct (markup_of st k); auto.
Qed.

Lemma added_state_rendered (w : world) (st : coll) (k : string) :
  c_rendered (added_state w st k)
  = if negb (rendered_has k (c_rendered st)) && yields st k
    then c_rendered st ++ [(k, S (w_next_node w))]
    else c_rendered st.
Proof.
  unfold added_state, yields. destruct (rendered_has _ _) eqn:Hh; [reflexivity|].
  destruct (markup_of st k); [reflexivity|]. cbn. now apply rendered_set_fresh.
Qed.

Lemma markup_of_fields (st st' : coll) (k : string) :
  c_path st' = c_path st -> c_template st' = c_template st ->
  markup_of st' k = markup_of st k.
Proof. unfold markup_of. now intros -> ->. Qed.

(** The keys the second loop of [reconcile] leaves in the mapping when
    it runs to its end. *)
Definition add_target (st : coll) (keys : list string) (k : string) : bool :=
  rendered_has k (c_rendered st) || (existsb (String.eqb k) keys && yields st k).

(** What the second loop of [reconcile] leaves behind, where it returns
    and where a scan throws in it. *)
Definition add_result (c : node) (keys : list string) (w : world) (st : coll) (r : outcome)
  : Prop :=
  let w' := state_of r in
  exists st',
    w_colls w' !! c = Some st'
    /\ c_path st' = c_path st
    /\ c_template st' = c_template st
    /\ c_lastKeyStr st' = c_lastKeyStr st
    /\ (forall k, (rendered_has k (c_rendered st') = true -> add_target st keys k = true)
                  /\ (returns r = true ->
                      rendered_has k (c_rendered st') = add_target st keys k))
    /\ (forall e, In e (c_rendered st) -> In e (c_rendered st'))
    /\ (forall e, In e (c_rendered st') ->
                  In e (c_rendered st)
                  \/ (w_next_node w <= snd e < w_next_node w'
                      /\ In (snd e) (children_of w' c)))
    /\ w_next_node w <= w_next_node w'
    /\ subs_grow (fun n => w_next_node w <= n) w w'
    /\ (forall x y, In y (children_of w' x) ->
                    In y (children_of w x) \/ w_next_node w <= y)
    /\ (forall x y, x < w_next_node w -> y < w_next_node w ->
                    In y (children_of w x) -> In y (children_of w' x)).

Lemma add_result_none (c : node) (keys : list string) (w : world) (st : coll) (r : outcome) :
  w_colls w !! c = Some st -> state_of r = w -> (returns r = true -> keys = []) ->
  add_result c keys w st r.
Proof.
  intros Hc Hr Hret. unfold add_result. rewrite Hr. exists st. repeat split; auto.
  - intros H. unfold add_target. now rewrite H.
  - intros H. rewrite (Hret H). unfold add_target. cbn. now rewrite orb_false_r.
  - now apply subs_grow_refl.
Qed.

Lemma add_result_step (c : node) (k : string) (keys : list string) (w w1 : world)
      (st : coll) (r : outcome) :
  c < w_next_node w ->
  add_effect c st k w w1 ->
  add_result c keys w1 (added_state w st k) r ->
  add_result c (k :: keys) w st r.
Proof.
  intros Hlt (Hc1 & Hn1 & Hs1 & Hold1 & Hkeep1 & Hnew1).
  set (st1 := added_state w st k) in *.
  destruct (added_state_fields w st k) as (Hp1 & Ht1 & Hl1). fold st1 in Hp1, Ht1, Hl1.
  pose proof (added_state_rendered w st k) as Hr1. fold st1 in Hr1.
  intros (st' & Hc' & Hp & Ht & Hl & Hhas & Hmono & Hnew & Hn & Hs & Hold & Hkeep).
  cbv zeta in *. unfold add_result. cbv zeta.
  exists st'. split; [exact Hc'|]. split; [congruence|]. split; [congruence|].
  split; [congruence|].
  assert (Hy : forall k0, yields st1 k0 = yields st k0)
    by (intros; unfold yields; now rewrite (markup_of_fields st st1)).
  assert (F : forall k0, add_target st1 keys k0 = add_target st (k :: keys) k0).
  { intros k0. unfold add_target. rewrite Hy, Hr1. cbn [existsb].
    destruct (rendered_has k (c_rendered st)) eqn:Hk; cbn [negb andb].
    - destruct (String.eqb_spec k0 k) as [->|_]; [now rewrite Hk | reflexivity].
    - destruct (yields st k) eqn:Hyk.
      + rewrite rendered_has_app. cbn. rewrite orb_false_r, (String.eqb_sym k k0).
        destruct (String.eqb_spec k0 k) as [->|_].
        * rewrite Hyk, Hk. now destruct (existsb (String.eqb k) keys).
        * now destruct (rendered_has k0 (c_rendered st)), (existsb (String.eqb k0) keys),
            (yields st k0).
      + destruct (String.eqb_spec k0 k) as [->|_]; [|reflexivity].
        rewrite Hyk, Hk. now destruct (existsb (String.eqb k) keys). }
  split.
  { intros k0. rewrite <- F. apply Hhas. }
  split.
  { intros e He. apply Hmono. rewrite Hr1.
    destruct (_ && _); [apply in_or_app; now left | exact He]. }
  split.
  { intros e He. destruct (Hnew e He) as [H1|(Hrange & Hchild)].
    - rewrite Hr1 in H1. destruct (negb _ && yields st k) eqn:Hadd; [|now left].
      apply in_app_or in H1. destruct H1 as [H1|[<-|[]]]; [now left|]. right.
      apply andb_prop in Hadd. destruct Hadd as [Hnot Hyk].
      destruct Hnew1 as [Hin Hlt1]; [assumption| now destruct (rendered_has _ _) | |].
      { unfold yields in Hyk. now destruct (markup_of st k). }
      cbn [snd]. split; [lia|]. apply Hkeep; [lia | assumption |].
      rewrite Hin. apply in_or_app. right. now left.
    - right. split; [lia | exact Hchild]. }
  split; [lia|]. split.
  { eapply subs_grow_trans; [exact Hs1|].
    eapply subs_grow_impl; [|exact Hs]. intros n Hn'. cbn in *. lia. }
  split.
  { intros x y Hin. destruct (Hold x y Hin) as [H1|H1]; [|right; lia].
    destruct (Hold1 x y H1); [now left | now right]. }
  intros x y Hx Hlty Hin. apply Hkeep; [lia | lia|]. now apply Hkeep1.
Qed.

(** The second loop of [reconcile]. *)
Lemma add_phase (c : node) (keys : list string) :
  forall (w : world) (st : coll),
    w_colls w !! c = Some st ->
    c < w_next_node w ->
    add_result c keys w st (for_each (add_step c) keys w).
Proof.
  induction keys as [|k keys IH]; intros w st Hc Hlt; cbn [for_each].
  { now apply add_result_none. }
  pose proof (add_step_effect c w k st Hc) as He.
  destruct (add_step c w k) as [w1|w1] eqn:E; cbn [and_then state_of] in *.
  - apply (add_result_step c k keys w w1); [assumption | assumption|].
    destruct He as (Hc1 & Hn1 & _). apply IH; [assumption | lia].
  - apply (add_result_step c k keys w w1); [assumption | assumption|].
    destruct He as (Hc1 & _). apply add_result_none; [assumption | reflexivity | discriminate].
Qed.

(** *** Reconciliation: one pass *)

Lemma rendered_has_In (k : string) (r : list (string * node)) :
  rendered_has k r = true <-> exists el, In (k, el) r.
Proof.
  unfold rendered_has. rewrite existsb_exists. split.
  - intros ([k' el] & Hin & E). apply String.eqb_eq in E. cbn in E. subst. now exists el.
  - intros (el & Hin). exists (k, el). split; [assumption | apply String.eqb_refl].
Qed.

(** The entries the first loop leaves in the mapping are those of the
    keys that are present. *)
Lemma kept_entries (keys : list string) (r : list (string * node)) (k : string) (el : node) :
  In (k, el)
     (List.filter (fun e => negb (existsb (String.eqb (fst e)) (gone_keys keys r))) r)
  <-> In (k, el) r /\ existsb (String.eqb k) keys = true.
Proof.
  rewrite List.filter_In. cbn [fst]. split.
  - intros [Hin Hg]. split; [assumption|].
    destruct (existsb (String.eqb k) keys) eqn:Hk; [reflexivity|].
    apply negb_true_iff in Hg. assert (In k (gone_keys keys r)) as Hgone.
    { unfold gone_keys. apply in_map_iff. exists (k, el). split; [reflexivity|].
      apply List.filter_In. cbn [fst]. now rewrite Hk. }
    apply existsb_eqb_In in Hgone. congruence.
  - intros [Hin Hk]. split; [assumption|]. apply negb_true_iff.
    destruct (existsb (String.eqb k) (gone_keys keys r)) eqn:Hg; [|reflexivity].
    apply existsb_eqb_In in Hg. unfold gone_keys in Hg. apply in_map_iff in Hg.
    destruct Hg as ([k' el'] & E & Hg). cbn in E. subst k'.
    apply List.filter_In in Hg. cbn [fst] in Hg. rewrite Hk in Hg. now destruct Hg.
Qed.

Lemma rendered_after_removal (keys : list string) (r : list (string * node)) (k : string) :
  rendered_has k
    (List.filter (fun e => negb (existsb (String.eqb (fst e)) (gone_keys keys r))) r)
  = rendered_has k r && existsb (String.eqb k) keys.
Proof.
  apply Bool.eq_iff_eq_true. rewrite andb_true_iff, !rendered_has_In. split.
  - intros (el & H). apply kept_entries in H. destruct H. split; [now exists el | assumption].
  - intros [(el & H) Hk]. exists el. now apply kept_entries.
Qed.

(** A removal calls the handle of every registry entry inside the
    element. *)
Lemma remove_step_log (c : node) (keys : list string) (w : world) (k : string) (el : node) :
  existsb (String.eqb k) keys = false ->
  w_log (remove_step c keys w (k, el))
  = map (fun s => EUnsub (snd s)) (List.filter (inside w el) (w_subs w)) ++ w_log w.
Proof.
  intros Hk. unfold remove_step. rewrite Hk.
  destruct (cleanupWithin_effect el w) as (_ & Hl & _). cbv zeta in Hl.
  rewrite <- Hl. unfold coll_update. now destruct (w_colls _ !! c).
Qed.

Lemma log_extends (w w' : world) (e : event) :
  reads_only w w' -> In e (w_log w) -> In e (w_log w').
Proof.
  intros (_ & _ & _ & _ & l & Hl & _) Hin. rewrite Hl. apply in_or_app. now right.
Qed.

(** Every registry entry the first loop drops had its handle called. *)
Lemma remove_phase_log (c : node) (keys : list string) (entries : list (string * node)) :
  forall (w : world) (s : node * subid),
    In s (w_subs w) ->
    ~ In s (w_subs (fold_left (remove_step c keys) entries w)) ->
    In (EUnsub (snd s)) (w_log (fold_left (remove_step c keys) entries w)).
Proof.
  induction entries as [|[k el] rest IH]; intros w s Hin Hout; cbn [fold_left] in *.
  { contradiction. }
  set (w1 := remove_step c keys w (k, el)) in *.
  destruct (in_dec (fun a b : node * subid => decide (a = b)) s (w_subs w1)) as [H1|H1].
  { now apply IH. }
  apply (log_extends w1); [apply reads_only_fold; intros; apply remove_step_reads|].
  destruct (existsb (String.eqb k) keys) eqn:Hk.
  { exfalso. apply H1. subst w1. unfold remove_step. now rewrite Hk. }
  subst w1. rewrite remove_step_log by assumption. apply in_or_app. left.
  apply in_map_iff. exists s. split; [reflexivity|]. apply List.filter_In.
  split; [assumption|]. destruct (inside w el s) eqn:Hi; [reflexivity|].
  exfalso. apply H1. unfold remove_step. rewrite Hk.
  destruct (cleanupWithin_effect el w) as (Hs & _). cbv zeta in Hs.
  unfold coll_update.
  assert (E : forall w0, w_subs (match w_colls w0 !! c with
                                 | Some st0 => set_colls (<[c := with_rendered
                                      (rendered_delete k (c_rendered st0)) st0]> (w_colls w0)) w0
                                 | None => w0 end) = w_subs w0)
    by (intros w0; now destruct (w_colls w0 !! c)).
  rewrite E. change (w_subs (remove_node el (cleanupWithin el w)))
    with (w_subs (cleanupWithin el w)).
  rewrite Hs. apply List.filter_In. split; [assumption|]. now rewrite Hi.
Qed.

(** The keys a pass of [reconcile] leaves in the mapping when it runs
    to its end. *)
Definition pass_target (st : coll) (keys : list string) (k : string) : bool :=
  existsb (String.eqb k) keys && (rendered_has k (c_rendered st) || yields st k).

(** What a pass of [reconcile] that is not bailed out leaves behind,
    where it returns and where a scan throws in it. *)
Definition pass_result (c : node) (w : world) (st : coll) (r : outcome) (st' : coll) : Prop :=
  let keys := present_keys (c_path st) w in
  let w' := state_of r in
  w_colls w' !! c = Some st'
  /\ c_path st' = c_path st
  /\ c_template st' = c_template st
  /\ c_lastKeyStr st' = join "," keys
  /\ (forall k, (rendered_has k (c_rendered st') = true -> pass_target st keys k = true)
                /\ (returns r = true ->
                    rendered_has k (c_rendered st') = pass_target st keys k))
  /\ (forall k el, In (k, el) (c_rendered st) -> In k keys -> In (k, el) (c_rendered st'))
  /\ (forall k el, In (k, el) (c_rendered st') ->
                   (In (k, el) (c_rendered st) /\ In k keys)
                   \/ (w_next_node w <= el < w_next_node w' /\ In el (children_of w' c)))
  /\ (forall k el, In (k, el) (c_rendered st) -> ~ In k keys ->
                   (forall x, ~ In el (children_of w' x))
                   /\ (forall s, In s (w_subs w) -> contains w el (fst s) = true ->
                                 In (EUnsub (snd s)) (w_log w')))
  /\ (exists kept added,
         w_subs w' = kept ++ added
         /\ incl kept (w_subs w)
         /\ (forall k el, In (k, el) (c_rendered st) -> ~ In k keys ->
                          forall s, In s kept -> contains w el (fst s) = false)
         /\ Forall (fun s => w_next_node w <= fst s) added).

Lemma reconcile_pass (c : node) (w : world) (st : coll) :
  w_colls w !! c = Some st ->
  String.eqb (join "," (present_keys (c_path st) w)) (c_lastKeyStr st) = false ->
  c < w_next_node w ->
  Forall (fun e => snd e < w_next_node w) (c_rendered st) ->
  exists st', pass_result c w st (reconcile c w) st'.
Proof.
  intros Hc Hsig Hlt Halloc. unfold pass_result, reconcile. rewrite Hc, Hsig. cbv zeta.
  set (keys := present_keys (c_path st) w).
  set (keyStr := join "," keys).
  set (st0 := with_lastKeyStr keyStr st).
  assert (Hw0 : coll_update c (with_lastKeyStr keyStr) w
                = set_colls (<[c := st0]> (w_colls w)) w)
    by (unfold coll_update; now rewrite Hc).
  rewrite Hw0. set (w0 := set_colls _ w).
  assert (Hc0 : w_colls w0 !! c = Some st0) by (subst w0; cbn; apply lookup_insert_eq).
  change (c_rendered st) with (c_rendered st0).
  destruct (remove_phase c keys (c_rendered st0) w0 st0 Hc0)
    as (I1 & I2 & I3 & (keep & I4) & I5 & I6 & I7).
  pose proof (remove_phase_log c keys (c_rendered st0) w0) as Ilog.
  set (w1 := fold_left (remove_step c keys) (c_rendered st0) w0) in *.
  set (st1 := with_rendered _ st0) in *.
  change (w_next_node w0) with (w_next_node w) in I2.
  change (w_subs w0) with (w_subs w) in *.
  destruct (add_phase c keys w1 st1 I1 ltac:(lia))
    as (st' & Hc' & Hp & Ht & Hl & Hhas & Hmono & Hnew & Hn & Hs & Hold & Hkeep).
  cbv zeta in *. set (r := for_each (add_step c) keys w1) in *.
  assert (Hy : forall k, yields st1 k = yields st k) by reflexivity.
  assert (F : forall k, add_target st1 keys k = pass_target st keys k).
  { intros k. unfold add_target, pass_target. rewrite Hy. subst st1.
    cbn [c_rendered with_rendered]. rewrite rendered_after_removal.
    change (c_rendered st0) with (c_rendered st).
    now destruct (rendered_has k (c_rendered st)), (existsb (String.eqb k) keys),
      (yields st k). }
  exists st'. split; [exact Hc'|]. split; [exact Hp|]. split; [exact Ht|].
  split; [exact Hl|]. split.
  { intros k. rewrite <- F. apply Hhas. }
  split.
  { intros k el Hin Hk. apply Hmono. subst st1. cbn [c_rendered with_rendered].
    apply kept_entries. split; [exact Hin | now apply existsb_eqb_In]. }
  split.
  { intros k el Hin. destruct (Hnew _ Hin) as [H1|[H1 H2]].
    - left. subst st1. cbn [c_rendered with_rendered] in H1. apply kept_entries in H1.
      destruct H1 as [H1 H2]. split; [exact H1 | now apply existsb_eqb_In].
    - right. cbn [snd] in *. split; [lia | exact H2]. }
  split.
  { intros k el Hin Hk.
    assert (Hk' : existsb (String.eqb k) keys = false).
    { destruct (existsb (String.eqb k) keys) eqn:E; [|reflexivity].
      now apply existsb_eqb_In in E. }
    destruct (I7 k el Hin Hk') as [J1 J2]. split.
    - intros x Hx. destruct (Hold x el Hx) as [H1|H1]; [now apply (J2 x)|].
      rewrite List.Forall_forall in Halloc. specialize (Halloc (k, el) Hin).
      cbn [snd] in Halloc. lia.
    - intros s Hin0 Hcont. apply (log_extends w1).
      { apply (for_each_preserves reads_only reads_only_refl reads_only_trans),
          add_step_reads. }
      apply Ilog; [exact Hin0|]. intros Hs1. specialize (J1 s Hs1).
      change (contains w0 el (fst s)) with (contains w el (fst s)) in J1. congruence. }
  destruct Hs as (added & Hadd & Hfresh).
  exists (w_subs w1), added. split; [exact Hadd|]. split.
  { rewrite I4. intros s Hin0. now apply incl_filter in Hin0. }
  split.
  { intros k el Hin Hk s Hin0.
    assert (Hk' : existsb (String.eqb k) keys = false).
    { destruct (existsb (String.eqb k) keys) eqn:E; [|reflexivity].
      now apply existsb_eqb_In in E. }
    destruct (I7 k el Hin Hk') as [J1 _]. exact (J1 s Hin0). }
  eapply List.Forall_impl; [|exact Hfresh]. intros s Hin0. cbn beta in Hin0. now rewrite I2 in Hin0.
Qed.



Lemma attr_get_set_eq (name v : string) (attrs : list (string * string)) :
  attr_get name (attr_set name v attrs) = Some v.
Proof.
  induction attrs as [|[k' v'] rest IH]; cbn.
  - now rewrite String.eqb_refl.
  - destruct (String.eqb k' name) eqn:E; cbn; now rewrite E.
Qed.

Lemma remove_node_attrs (e : node) (w : world) (x : node) :
  el_attrs (el_at (w_dom (remove_node e w)) x) = el_attrs (el_at (w_dom w) x).
Proof.
  unfold remove_node. cbn [w_dom set_dom].
  now rewrite (el_at_fmap (without_child e)).
Qed.

(** The world in which the scan of a new element starts: the element
    carries the key in its [data-key] attribute. *)
Lemma add_step_tags (c : node) (w : world) (k : string) (st : coll) :
  w_colls w !! c = Some st ->
  rendered_has k (c_rendered st) = false ->
  markup_of st k <> [] ->
  exists w0,
    add_step c w k = scanBindings (S (w_next_node w)) w0
    /\ attr_get "data-key" (el_attrs (el_at (w_dom w0) (S (w_next_node w)))) = Some k.
Proof.
  intros Hc Hnot Hm. unfold add_step. rewrite Hc, Hnot. cbn [createElement].
  unfold set_innerHTML.
  set (tmp := w_next_node w).
  set (wc := set_next_node (S tmp) (set_dom _ w)).
  change (w_next_node wc) with (S tmp).
  change (parseFragment (resolve (c_path st) (c_template st) k)) with (markup_of st k).
  destruct (instantiate_all (markup_of st k) (S tmp) (w_dom wc)) as [[ids next] d] eqn:Ei.
  destruct (instantiate_all_fresh _ _ _ _ _ _ Ei) as (_ & _ & Hhead).
  unfold firstElementChild, dom_update at 1. cbn [w_dom set_dom set_next_node].
  rewrite el_at_insert. destruct (decide (tmp = tmp)) as [_|]; [|contradiction].
  cbn [el_children with_children]. rewrite Hhead.
  destruct (markup_of st k) as [|m ms]; [contradiction|].
  eexists. split; [reflexivity|].
  unfold coll_update. match goal with |- context [w_colls ?x !! c] =>
    assert (E : w_dom (match w_colls x !! c with
                       | Some st0 => set_colls (<[c := with_rendered
                            (rendered_set k (S tmp) (c_rendered st0)) st0]> (w_colls x)) x
                       | None => x end) = w_dom x) by (now destruct (w_colls x !! c)) end.
  rewrite E. clear E. unfold appendChild, dom_update at 1. cbn [w_dom set_dom].
  rewrite el_at_insert.
  assert (Hk : forall w1, attr_get "data-key"
                 (el_attrs (el_at (w_dom (remove_node (S tmp) (dataset_set (S tmp) "key" k w1)))
                                  (S tmp))) = Some k).
  { intros w1. rewrite remove_node_attrs. unfold dataset_set, dom_update. cbn [w_dom set_dom].
    rewrite el_at_insert, decide_True by reflexivity.
    cbn [el_attrs with_attrs]. apply (attr_get_set_eq "data-key"). }
  destruct (decide (c = S tmp)) as [->|_]; [|apply Hk].
  cbn [el_attrs with_children]. apply Hk.
Qed.

(** C8 (as amended).  For a present key that is not rendered, the first
    root element of the substituted markup decides.  With no root
    element the key is skipped: the step creates the detached scratch
    element and nothing else, and after the pass the key is still out of
    the mapping, so the next pass that is not bailed out tries it again.
    With one root element or more, the first one is tagged with the key
    in its [data-key] attribute, appended to the container and recorded
    for the key, and then scanned; the record and the place among the
    container's children are there after the scan, also where it throws,
    and a pass that returns leaves the key in the mapping.  The container
    and the rendered elements are taken to be nodes of the tree, numbered
    below the next node to be created. *)
Theorem first_root_decides (c : node) (w : world) (k : string) (st : coll) :
  w_colls w !! c = Some st ->
  rendered_has k (c_rendered st) = false ->
  In k (present_keys (c_path st) w) ->
  String.eqb (join "," (present_keys (c_path st) w)) (c_lastKeyStr st) = false ->
  c < w_next_node w ->
  Forall (fun e => snd e < w_next_node w) (c_rendered st) ->
  (markup_of st k = [] ->
   add_step c w k = Returns (snd (createElement "div" w))
   /\ exists st', w_colls (state_of (reconcile c w)) !! c = Some st'
                  /\ rendered_has k (c_rendered st') = false)
  /\ (forall m ms, markup_of st k = m :: ms ->
        let el := S (w_next_node w) in
        let w' := state_of (add_step c w k) in
        (exists w0,
            add_step c w k = scanBindings el w0
            /\ attr_get "data-key" (el_attrs (el_at (w_dom w0) el)) = Some k)
        /\ w_colls w' !! c = Some (with_rendered (c_rendered st ++ [(k, el)]) st)
        /\ children_of w' c
           = List.filter (fun n => negb (Nat.eqb n el)) (children_of w c) ++ [el]
        /\ exists st', w_colls (state_of (reconcile c w)) !! c = Some st'
                       /\ (returns (reconcile c w) = true ->
                           rendered_has k (c_rendered st') = true)).
Proof.
  intros Hc Hnot Hk Hsig Hlt Halloc.
  destruct (reconcile_pass c w st Hc Hsig Hlt Halloc) as (st' & P1 & _ & _ & _ & P5 & _).
  apply existsb_eqb_In in Hk.
  split.
  - intros Hm. split.
    + unfold add_step. rewrite Hc, Hnot. cbn [createElement]. unfold set_innerHTML.
      change (parseFragment (resolve (c_path st) (c_template st) k)) with (markup_of st k).
      rewrite Hm. cbn [instantiate_all]. unfold firstElementChild, dom_update.
      cbn [w_dom set_dom set_next_node snd]. rewrite !el_at_insert.
      destruct (decide (w_next_node w = w_next_node w)); [|contradiction].
      cbn [head with_children el_children el_element el_tag el_attrs el_text el_bound
             el_type el_value el_checked el_inner el_input].
      rewrite insert_insert_eq. now destruct w.
    + exists st'. split; [exact P1|].
      destruct (rendered_has k (c_rendered st')) eqn:E; [|reflexivity].
      destruct (P5 k) as [P _]. specialize (P E). unfold pass_target, yields in P.
      rewrite Hnot, Hm in P. now rewrite andb_false_r in P.
  - intros m ms Hm el w'.
    split; [apply (add_step_tags c w k st Hc Hnot); congruence|].
    destruct (add_step_effect c w k st Hc) as (A1 & _ & _ & _ & _ & A6).
    fold w' in A1, A6. destruct A6 as [A6 _]; [assumption | assumption | congruence |].
    split; [|split; [exact A6|]].
    + rewrite A1. f_equal. unfold added_state. rewrite Hnot, Hm.
      now rewrite rendered_set_fresh.
    + exists st'. split; [exact P1|]. intros Hret. destruct (P5 k) as [_ E].
      rewrite (E Hret). unfold pass_target, yields. now rewrite Hk, Hnot, Hm.
Qed.
(** ** Further properties of the renderer's functions *)

(** *** Strings *)

Lemma sapp_nil (r : string) : ("" ++ r)%string = r.
Proof. reflexivity. Qed.

Lemma sapp_cons (a : ascii) (p r : string) :
  (String a p ++ r)%string = String a (p ++ r).
Proof. reflexivity. Qed.

Lemma strip_prefix_spec (p s r : string) :
  strip_prefix p s = Some r <-> s = (p ++ r)%string.
Proof.
  revert s. induction p as [|a p IH]; intros s; simpl; rewrite ?sapp_nil, ?sapp_cons.
  - split; congruence.
  - destruct s as [|b s]; [split; discriminate|].
    destruct (Ascii.eqb_spec a b) as [->|Hne].
    + rewrite IH. split; congruence.
    + split; [discriminate | congruence].
Qed.

Lemma indexOf_split (c : ascii) (s : string) (i : nat) :
  indexOf c s = Some i ->
  exists a b, s = (a ++ String c b)%string /\ indexOf c a = None /\ String.length a = i.
Proof.
  revert i. induction s as [|x s IH]; intros i; simpl; [discriminate|].
  destruct (Ascii.eqb_spec x c) as [->|Hne].
  - intros [= <-]. now exists "", s.
  - destruct (indexOf c s) as [j|]; [|discriminate]. intros [= <-].
    destruct (IH j eq_refl) as (a & b & -> & Ha & Hl).
    exists (String x a), b. simpl. destruct (Ascii.eqb_spec x c); [contradiction|].
    rewrite Ha. repeat split. now rewrite Hl.
Qed.

Lemma indexOf_none_tail (c : ascii) (p s : string) :
  indexOf c (p ++ s) = None -> indexOf c s = None.
Proof.
  induction p as [|a p IH]; rewrite ?sapp_nil, ?sapp_cons; simpl; [auto|].
  destruct (Ascii.eqb a c); [discriminate|].
  destruct (indexOf c (p ++ s)); [discriminate | auto].
Qed.

Lemma string_app_length (a b : string) :
  String.length (a ++ b) = String.length a + String.length b.
Proof.
  induction a as [|x a IH]; rewrite ?sapp_nil, ?sapp_cons; simpl;
    [reflexivity | now rewrite IH].
Qed.

Lemma string_app_nil_r (a : string) : (a ++ "")%string = a.
Proof.
  induction a as [|x a IH]; rewrite ?sapp_nil, ?sapp_cons; [reflexivity | now rewrite IH].
Qed.

Lemma string_app_assoc (a b c : string) : ((a ++ b) ++ c)%string = (a ++ b ++ c)%string.
Proof.
  induction a as [|x a IH]; rewrite ?sapp_nil, ?sapp_cons; [reflexivity | now rewrite IH].
Qed.

Lemma string_app_inv_tail (a b c : string) :
  (a ++ c)%string = (b ++ c)%string -> a = b.
Proof.
  revert b. induction a as [|x a IH]; intros [|y b]; rewrite ?sapp_nil, ?sapp_cons; intros H.
  - reflexivity.
  - apply (f_equal String.length) in H. simpl in H. rewrite string_app_length in H. lia.
  - apply (f_equal String.length) in H. simpl in H. rewrite string_app_length in H. lia.
  - injection H as -> H. f_equal. now apply IH.
Qed.

(** The match of the pattern of [parsePush]. *)
Lemma match_push_spec (e g : string) :
  match_push e = Some g
  <-> e = ("push(" ++ g ++ ")")%string /\ g <> "" /\ indexOf ")" g = None.
Proof.
  unfold match_push. split.
  - destruct (strip_prefix "push(" e) as [rest|] eqn:Hs; [|discriminate].
    apply strip_prefix_spec in Hs. subst e.
    destruct (indexOf ")" rest) as [[|i]|] eqn:Hi; try discriminate.
    destruct (indexOf_split _ _ _ Hi) as (a & b & -> & Ha & Hl).
    assert (Hsl : slice_to (S i) (a ++ String ")" b) = a)
      by (rewrite <- Hl; apply slice_to_app).
    rewrite Hsl.
    destruct (Nat.eqb_spec (String.length (a ++ String ")" b)) (S (S i))) as [Hlen|];
      [|discriminate].
    intros [= <-]. rewrite string_app_length in Hlen. simpl in Hlen.
    assert (b = "") as -> by (destruct b; [reflexivity | simpl in Hlen; lia]).
    repeat split; [|assumption].
    intros ->. discriminate.
  - intros (-> & Hg & Hn).
    assert (Hs : strip_prefix "push(" ("push(" ++ g ++ ")") = Some (g ++ ")")%string)
      by now apply strip_prefix_spec.
    rewrite Hs. rewrite (indexOf_app ")" g "" Hn).
    destruct g as [|x g]; [contradiction|]. cbn [String.length].
    rewrite string_app_length. cbn [String.length].
    replace (S (String.length g) + 1) with (S (S (String.length g))) by lia.
    rewrite Nat.eqb_refl.
    change (S (String.length g)) with (String.length (String x g)).
    now rewrite slice_to_app.
Qed.

(** X1.  [parsePush] recognises exactly two forms.  The word [push]
    gives a push without a source.  The text [push(], one character or
    more none of which is a closing parenthesis, and [)] gives a push
    whose source is that text, trimmed.  Everything else (an absent or
    empty expression, [push()], text after the closing parenthesis, a
    parenthesis inside the source) is no push. *)
Theorem parsePush_forms (e : string) :
  (parsePush (Some e) = Some (mkPush None) <-> e = "push")
  /\ (forall s, parsePush (Some e) = Some (mkPush (Some s))
                <-> exists g, e = ("push(" ++ g ++ ")")%string /\ g <> ""
                              /\ indexOf ")" g = None /\ s = trim g)
  /\ (parsePush (Some e) = None
      <-> e <> "push"
          /\ forall g, e = ("push(" ++ g ++ ")")%string -> g = "" \/ indexOf ")" g <> None)
  /\ parsePush None = None.
Proof.
  assert (Hpush : match_push "push" = None) by reflexivity.
  assert (Hempty : match_push "" = None) by reflexivity.
  unfold parsePush. split; [|split; [|split; [|reflexivity]]].
  - destruct (String.eqb_spec e "") as [->|He]; [split; discriminate|].
    destruct (String.eqb_spec e "push") as [->|Hp]; [split; reflexivity|].
    destruct (match_push e); split; congruence.
  - intros s.
    destruct (String.eqb_spec e "") as [->|He].
    { split; [discriminate|]. intros (g & Hg & _). destruct g; discriminate. }
    destruct (String.eqb_spec e "push") as [->|Hp].
    { split; [discriminate|]. intros (g & Hg & _). destruct g; discriminate. }
    destruct (match_push e) as [g|] eqn:Hm.
    + apply match_push_spec in Hm. destruct Hm as (-> & Hg & Hn). split.
      * intros [= <-]. now exists g.
      * intros (g' & Heq & _ & _ & ->).
        apply (f_equal (strip_prefix "push(")) in Heq.
        assert (H1 : forall x, strip_prefix "push(" ("push(" ++ x) = Some x)
          by (intros; now apply strip_prefix_spec).
        rewrite !H1 in Heq. injection Heq as Heq.
        now rewrite (string_app_inv_tail _ _ _ Heq).
    + split; [discriminate|]. intros (g & -> & Hg & Hn & _).
      assert (match_push ("push(" ++ g ++ ")") = Some g) by now apply match_push_spec.
      congruence.
  - destruct (String.eqb_spec e "") as [->|He].
    { split; [|reflexivity]. intros _. split; [discriminate|].
      intros g Hg. destruct g; discriminate. }
    destruct (String.eqb_spec e "push") as [->|Hp].
    { split; [discriminate|]. now intros [H _]. }
    destruct (match_push e) as [g|] eqn:Hm.
    + split; [discriminate|]. intros [_ H].
      apply match_push_spec in Hm. destruct Hm as (-> & Hg & Hn).
      destruct (H g eq_refl); contradiction.
    + split; [|reflexivity]. intros _. split; [assumption|]. intros g ->.
      destruct g as [|x g]; [now left|]. right. intros Hn.
      assert (match_push ("push(" ++ String x g ++ ")") = Some (String x g))
        by (apply match_push_spec; repeat split; [discriminate | assumption]).
      congruence.
Qed.

Lemma str_rev_onto_app (s acc1 acc2 : string) :
  str_rev_onto s (acc1 ++ acc2) = (str_rev_onto s acc1 ++ acc2)%string.
Proof.
  revert acc1. induction s as [|x s IH]; intros acc1; simpl; [reflexivity|].
  now rewrite <- IH, sapp_cons.
Qed.

Lemma str_rev_cons (x : ascii) (s : string) :
  str_rev (String x s) = (str_rev s ++ String x "")%string.
Proof.
  unfold str_rev. simpl. now rewrite <- str_rev_onto_app, sapp_nil.
Qed.

Lemma str_rev_app (a b : string) : str_rev (a ++ b) = (str_rev b ++ str_rev a)%string.
Proof.
  induction a as [|x a IH]; rewrite ?sapp_nil, ?sapp_cons.
  - now rewrite string_app_nil_r.
  - now rewrite !str_rev_cons, IH, string_app_assoc.
Qed.

Lemma str_rev_involutive (s : string) : str_rev (str_rev s) = s.
Proof.
  induction s as [|x s IH]; [reflexivity|].
  now rewrite str_rev_cons, str_rev_app, IH.
Qed.

(** What [trimStart] returns is the end of its argument, and what
    [trimEnd] returns is the start of its argument. *)
Lemma trimStart_suffix (s : string) : exists a, s = (a ++ trimStart s)%string.
Proof.
  remember (String.length s) as n eqn:Hn. assert (Hle : String.length s <= n) by lia.
  clear Hn. revert s Hle. induction n as [|n IH]; intros s Hle.
  { destruct s; [now exists "" | simpl in Hle; lia]. }
  destruct s as [|a s1]; [now exists ""|]. simpl in Hle. simpl.
  destruct (ws1 a).
  { destruct (IH s1 ltac:(lia)) as (p & Hp). exists (String a p).
    now rewrite sapp_cons, <- Hp. }
  destruct s1 as [|b s2]; [now exists ""|]. simpl in Hle.
  destruct (ws2 a b).
  { destruct (IH s2 ltac:(lia)) as (p & Hp). exists (String a (String b p)).
    now rewrite !sapp_cons, <- Hp. }
  destruct s2 as [|c s3]; [now exists ""|]. simpl in Hle.
  destruct (ws3 a b c); [|now exists ""].
  destruct (IH s3 ltac:(lia)) as (p & Hp). exists (String a (String b (String c p))).
  now rewrite !sapp_cons, <- Hp.
Qed.

Lemma trimStart_rev_suffix (s : string) : exists a, s = (a ++ trimStart_rev s)%string.
Proof.
  remember (String.length s) as n eqn:Hn. assert (Hle : String.length s <= n) by lia.
  clear Hn. revert s Hle. induction n as [|n IH]; intros s Hle.
  { destruct s; [now exists "" | simpl in Hle; lia]. }
  destruct s as [|a s1]; [now exists ""|]. simpl in Hle. simpl.
  destruct (ws1 a).
  { destruct (IH s1 ltac:(lia)) as (p & Hp). exists (String a p).
    now rewrite sapp_cons, <- Hp. }
  destruct s1 as [|b s2]; [now exists ""|]. simpl in Hle.
  destruct (ws2 b a).
  { destruct (IH s2 ltac:(lia)) as (p & Hp). exists (String a (String b p)).
    now rewrite !sapp_cons, <- Hp. }
  destruct s2 as [|c s3]; [now exists ""|]. simpl in Hle.
  destruct (ws3 c b a); [|now exists ""].
  destruct (IH s3 ltac:(lia)) as (p & Hp). exists (String a (String b (String c p))).
  now rewrite !sapp_cons, <- Hp.
Qed.

Lemma trimEnd_prefix (s : string) : exists b, s = (trimEnd s ++ b)%string.
Proof.
  unfold trimEnd. destruct (trimStart_rev_suffix (str_rev s)) as (a & Ha).
  exists (str_rev a). rewrite <- str_rev_app, <- Ha. now rewrite str_rev_involutive.
Qed.

Lemma trim_infix (s : string) : exists a b, s = (a ++ trim s ++ b)%string.
Proof.
  unfold trim. destruct (trimStart_suffix s) as (a & Ha).
  destruct (trimEnd_prefix (trimStart s)) as (b & Hb).
  exists a, b. now rewrite <- Hb.
Qed.

Lemma indexOf_trim (c : ascii) (s : string) :
  indexOf c s = None -> indexOf c (trim s) = None.
Proof.
  intros H. destruct (trim_infix s) as (a & b & Hs). rewrite Hs in H.
  apply indexOf_none_tail in H. now apply indexOf_none_app in H.
Qed.

Lemma slice_to_indexOf (c : ascii) (s : string) (i : nat) :
  indexOf c s = Some i -> indexOf c (slice_to i s) = None.
Proof.
  intros H. destruct (indexOf_split _ _ _ H) as (a & b & -> & Ha & <-).
  now rewrite slice_to_app.
Qed.

Lemma trimStart_length (s : string) : String.length (trimStart s) <= String.length s.
Proof.
  destruct (trimStart_suffix s) as (a & Ha). rewrite Ha at 2.
  rewrite string_app_length. lia.
Qed.

Lemma trimStart_rev_length (s : string) :
  String.length (trimStart_rev s) <= String.length s.
Proof.
  destruct (trimStart_rev_suffix s) as (a & Ha). rewrite Ha at 2.
  rewrite string_app_length. lia.
Qed.

Lemma trimStart_idem (s : string) : trimStart (trimStart s) = trimStart s.
Proof.
  remember (String.length s) as n eqn:Hn. assert (Hle : String.length s <= n) by lia.
  clear Hn. revert s Hle. induction n as [|n IH]; intros s Hle.
  { destruct s; [reflexivity | simpl in Hle; lia]. }
  destruct s as [|a s1]; [reflexivity|]. simpl in Hle. simpl.
  destruct (ws1 a) eqn:E1; [apply IH; lia|].
  destruct s1 as [|b s2]; [simpl; now rewrite E1|]. simpl in Hle.
  destruct (ws2 a b) eqn:E2; [apply IH; lia|].
  destruct s2 as [|c s3]; [simpl; now rewrite E1, E2|]. simpl in Hle.
  destruct (ws3 a b c) eqn:E3; [apply IH; lia|].
  simpl. now rewrite E1, E2, E3.
Qed.

Lemma trimStart_rev_idem (s : string) : trimStart_rev (trimStart_rev s) = trimStart_rev s.
Proof.
  remember (String.length s) as n eqn:Hn. assert (Hle : String.length s <= n) by lia.
  clear Hn. revert s Hle. induction n as [|n IH]; intros s Hle.
  { destruct s; [reflexivity | simpl in Hle; lia]. }
  destruct s as [|a s1]; [reflexivity|]. simpl in Hle. simpl.
  destruct (ws1 a) eqn:E1; [apply IH; lia|].
  destruct s1 as [|b s2]; [simpl; now rewrite E1|]. simpl in Hle.
  destruct (ws2 b a) eqn:E2; [apply IH; lia|].
  destruct s2 as [|c s3]; [simpl; now rewrite E1, E2|]. simpl in Hle.
  destruct (ws3 c b a) eqn:E3; [apply IH; lia|].
  simpl. now rewrite E1, E2, E3.
Qed.

(** A string with no white space at its start keeps that when it is cut
    short at its end. *)
Lemma trimStart_fixed_prefix (u b : string) :
  trimStart (u ++ b) = (u ++ b)%string -> trimStart u = u.
Proof.
  assert (Hlen : forall x y : string, trimStart x = y -> String.length y <= String.length x)
    by (intros x y <-; apply trimStart_length).
  destruct u as [|a u1]; [reflexivity|]. rewrite sapp_cons. simpl.
  destruct (ws1 a).
  { intros H. apply Hlen in H. simpl in H. lia. }
  destruct u1 as [|b1 u2]; [reflexivity|]. rewrite sapp_cons.
  destruct (ws2 a b1).
  { intros H. apply Hlen in H. simpl in H. lia. }
  destruct u2 as [|c u3]; [reflexivity|]. rewrite sapp_cons.
  destruct (ws3 a b1 c); [|reflexivity].
  intros H. apply Hlen in H. simpl in H. lia.
Qed.

Lemma trimEnd_idem (s : string) : trimEnd (trimEnd s) = trimEnd s.
Proof. unfold trimEnd. now rewrite str_rev_involutive, trimStart_rev_idem. Qed.

(** [trim] leaves a trimmed string as it is. *)
Lemma trim_idem (s : string) : trim (trim s) = trim s.
Proof.
  unfold trim. set (t := trimStart s).
  assert (Ht : trimStart t = t) by apply trimStart_idem.
  destruct (trimEnd_prefix t) as (b & Hb).
  assert (Hu : trimStart (trimEnd t) = trimEnd t).
  { apply (trimStart_fixed_prefix _ b). now rewrite <- Hb. }
  now rewrite Hu, trimEnd_idem.
Qed.

(** X2.  [parseSetExpr] splits at the first colon only: for a text
    [p] without a colon, [p:e] parses to the trimmed [p] and the trimmed
    [e], whatever colons [e] has.  For every raw string the path has no
    colon, and the path and a present expression are already trimmed. *)
Theorem parseSetExpr_first_colon :
  (forall p e, indexOf ":" p = None ->
               parseSetExpr (p ++ ":" ++ e) = mkSetExpr (trim p) (Some (trim e)))
  /\ (forall raw, indexOf ":" (path (parseSetExpr raw)) = None)
  /\ (forall raw, trim (path (parseSetExpr raw)) = path (parseSetExpr raw))
  /\ (forall raw e, expr (parseSetExpr raw) = Some e -> trim e = e).
Proof.
  split; [|split; [|split]].
  - intros p e Hp. exact (parseSetExpr_app p e Hp).
  - intros raw. unfold parseSetExpr. destruct (indexOf ":" raw) as [i|] eqn:Hi; simpl.
    + apply indexOf_trim. now apply slice_to_indexOf.
    + now apply indexOf_trim.
  - intros raw. unfold parseSetExpr. destruct (indexOf ":" raw); simpl; apply trim_idem.
  - intros raw e. unfold parseSetExpr. destruct (indexOf ":" raw); simpl; [|discriminate].
    intros [= <-]. apply trim_idem.
Qed.

(** *** Actions: push *)













Lemma heap_set_prop_ne (l l' : loc) (k : string) (v : value) (h : heap) :
  l' <> l -> heap_set_prop l k v h !! l' = h !! l'.
Proof.
  intros Hne. unfold heap_set_prop. destruct (h !! l); now rewrite lookup_insert_ne.
Qed.



















(** *** Actions that are no push *)

(** One [store.set]: the write is logged once, the heap is the one
    written, and what the notification adds to the log is no write. *)
Lemma store_set_once (p : string) (v : value) (w : world) :
  let w' := state_of (store_set p v w) in
  exists flush,
    w_log w' = flush ++ ESet p v :: w_log w
    /\ Forall (fun e => is_write e = false) flush
    /\ w_heap w' = write_path (st_root (w_store w)) (split_path p) v (w_heap w)
    /\ (st_depth (w_store w) <> 0 -> flush = [] /\ store_set p v w = Returns w').
Proof.
  unfold store_set. destruct (st_depth (w_store w)) as [|d] eqn:Hd; cbv zeta.
  - set (w1 := log_event (ESet p v) _).
    destruct (notify_reads p w1) as (Hh & _ & _ & _ & l & Hl & Hf).
    exists l. split; [exact Hl|]. split; [exact Hf|]. split; [exact Hh|].
    intros H; now elim H.
  - exists []. cbn [state_of]. destruct (existsb _ _); repeat split; constructor.
Qed.

(** X4.  An action that is no push makes at most one call of
    [store.set].  Either the world is as it was (a delete whose path has
    no dot; an increment or a decrement of an object that [Number]
    cannot convert, which throws), or one write is logged, the heap is
    the heap that write leaves (on a heap that only has new objects more
    than the old one), and whatever the notified listeners logged is no
    write; inside a batch no listener is called and the action
    returns. *)
Theorem action_writes_once (now : Z) (raw : string) (w : world) :
  parsePush (expr (parseSetExpr raw)) = None ->
  let w' := state_of (executeSet now raw w) in
  (w' = w
   /\ (executeSet now raw w = Returns w
       \/ (executeSet now raw w = Throws w
           /\ evalExpr (expr (parseSetExpr raw)) (store_get (path (parseSetExpr raw)) w)
                       (w_heap w) = None)))
  \/ exists p v h flush,
      w_log w' = flush ++ ESet p v :: w_log w
      /\ Forall (fun e => is_write e = false) flush
      /\ w_heap w ⊆ h
      /\ w_heap w' = write_path (st_root (w_store w)) (split_path p) v h
      /\ (st_depth (w_store w) <> 0 -> flush = [] /\ executeSet now raw w = Returns w').
Proof.
  intros Hp. unfold executeSet. rewrite Hp.
  destruct (match expr (parseSetExpr raw) with
            | Some e => String.eqb e "delete"
            | None => false
            end).
  - destruct (lastIndexOf "." (path (parseSetExpr raw))) as [dot|]; [|left; auto].
    right. cbv zeta.
    set (h := <[fresh (dom (w_heap w)) := _]> (w_heap w)).
    destruct (store_set_once (slice_to dot (path (parseSetExpr raw)))
                (VRef (fresh (dom (w_heap w)))) (set_heap h w)) as (flush & Hl & Hf & Hh & Hd).
    exists (slice_to dot (path (parseSetExpr raw))), (VRef (fresh (dom (w_heap w)))), h, flush.
    split; [exact Hl|]. split; [exact Hf|]. split; [|split; [exact Hh | exact Hd]].
    apply insert_subseteq, not_elem_of_dom, is_fresh.
  - destruct (evalExpr (expr (parseSetExpr raw))
                (store_get (path (parseSetExpr raw)) w) (w_heap w)) as [[v h]|] eqn:Ev;
      [|left; auto].
    right. cbv zeta.
    destruct (store_set_once (path (parseSetExpr raw)) v (set_heap h w))
      as (flush & Hl & Hf & Hh & Hd).
    exists (path (parseSetExpr raw)), v, h, flush.
    split; [exact Hl|]. split; [exact Hf|]. split; [|split; [exact Hh | exact Hd]].
    unfold evalExpr in Ev. destruct (expr (parseSetExpr raw)) as [e|]; [|now injection Ev as _ <-].
    repeat (destruct (String.eqb e _);
            [first [now injection Ev as _ <-
                   | destruct (Number _ _); [now injection Ev as _ <- | discriminate]]|]).
    destruct (_ && _); [now injection Ev as _ <-|].
    unfold JSON_parse in Ev. destruct (JSON_parse_text e) as [t|]; [|now injection Ev as _ <-].
    injection Ev as Ev.
    now destruct (alloc_json_ok t _ _ _ Ev).
Qed.

(** *** What the mount never does *)

Lemma setupCollection_reads (w : world) (c : node) :
  reads_only w (state_of (setupCollection w c)).
Proof.
  unfold setupCollection.
  destruct (attr_get "each" _) as [p|]; [|apply reads_only_refl].
  destruct (head _) as [tpl|]; [|apply reads_only_refl].
  destruct (String.eqb p ""); [apply reads_only_refl|].
  cbn [store_subscribe]. eapply reads_only_trans; [|apply reconcile_reads].
  repeat split. cbn.
  eexists [_; _]. split; [reflexivity | repeat constructor].
Qed.

Lemma mount_reads (root : node) (w : world) : reads_only w (state_of (mount root w)).
Proof.
  unfold mount. apply (and_then_preserves reads_only reads_only_trans).
  - apply (for_each_preserves reads_only reads_only_refl reads_only_trans).
    intros w0 c. apply setupCollection_reads.
  - intros w0. apply scanBindings_reads.
Qed.

Lemma teardown_reads (w : world) : reads_only w (teardown w).
Proof.
  unfold teardown. apply reads_only_fold. intros w0 s. apply store_unsub_reads.
Qed.

(** X5.  The renderer writes to the store from [executeSet] and from the
    [input] listeners of [bind-value] only.  [mount], the cleanup function
    it returns, [scanBindings], [cleanupWithin], [reconcile] and every
    listener the renderer subscribes (the update function of a binding,
    the [reconcile] of a collection) leave the heap of the store's objects
    and the batch in progress as they are, and none of the calls they
    make on the store is a [set], whether they return or throw. *)
Theorem store_read_only :
  (forall root w, reads_only w (state_of (mount root w)))
  /\ (forall w, reads_only w (teardown w))
  /\ (forall el w, reads_only w (state_of (scanBindings el w)))
  /\ (forall c w, reads_only w (cleanupWithin c w))
  /\ (forall c w, reads_only w (state_of (reconcile c w)))
  /\ (forall f v w, reads_only w (state_of (run_listener f v w))).
Proof.
  split; [exact mount_reads|]. split; [exact teardown_reads|].
  split; [exact scanBindings_reads|]. split; [exact cleanupWithin_reads|].
  split; [exact reconcile_reads|].
  intros [b|c] v w; cbn [run_listener]; [apply updateFn_reads | apply reconcile_reads].
Qed.

(** *** The update functions of the bindings *)

Lemma attr_set_idem (name v : string) (attrs : list (string * string)) :
  attr_set name v (attr_set name v attrs) = attr_set name v attrs.
Proof.
  induction attrs as [|[k v'] rest IH]; cbn.
  - now rewrite String.eqb_refl.
  - destruct (String.eqb k name) eqn:E; cbn; rewrite E; [reflexivity | now rewrite IH].
Qed.

Lemma attr_remove_idem (name : string) (attrs : list (string * string)) :
  attr_remove name (attr_remove name attrs) = attr_remove name attrs.
Proof.
  unfold attr_remove. rewrite filter_filter. apply List.filter_ext.
  intros a. now destruct (negb _).
Qed.

Lemma el_at_dom_update (n : node) (f : element -> element) (w : world) :
  el_at (w_dom (dom_update n f w)) n = f (el_at (w_dom w) n).
Proof.
  unfold dom_update. cbn. rewrite el_at_insert. now destruct (decide (n = n)).
Qed.

Lemma dom_update_idem (n : node) (f : element -> element) (w : world) :
  (forall e, f (f e) = f e) -> dom_update n f (dom_update n f w) = dom_update n f w.
Proof.
  intros Hf. unfold dom_update at 1. rewrite el_at_dom_update, Hf.
  unfold dom_update. cbn. now rewrite insert_insert_eq.
Qed.

(** A change of the attributes, with the [type] property brought in
    line, done twice. *)
Lemma reflect_idem (g : list (string * string) -> list (string * string)) (e : element) :
  (forall l, g (g l) = g l) ->
  let f := fun e => reflect_type (with_attrs (g (el_attrs e)) e) in
  f (f e) = f e.
Proof.
  intros Hg f. subst f. cbv beta. unfold reflect_type.
  cbn [with_attrs el_tag el_attrs].
  destruct (type_property (el_tag e) (g (el_attrs e))) as [t|] eqn:E;
    cbn [with_type with_attrs el_tag el_attrs el_element el_children el_text el_bound
           el_type el_value el_checked el_inner el_input];
    now rewrite Hg, E.
Qed.

(** X6.  The update functions of [bind-text], [bind-value],
    [bind-data-*] and [bind-attr-*] are idempotent: a value delivered
    twice leaves what it left the first time, and ends as it ended the
    first time.  The one of [bind-value] writes nothing at all when the
    control already shows the value, so the value an [input] listener
    has just written comes back from the store without touching the
    control.  The one of [bind-focus] is not idempotent: every truthy
    delivery requests one more frame. *)
Theorem updateFn_idempotent (v : value) (w : world) :
  (forall b, (forall n, b <> BFocus n) ->
             updateFn b v (state_of (updateFn b v w)) = updateFn b v w)
  /\ (forall n,
         let e := el_at (w_dom w) n in
         (if String.eqb (el_type e) "checkbox"
          then Bool.eqb (el_checked e) (truthy v)
          else match text_of (w_heap w) v with
               | Some s => String.eqb (el_value e) s
               | None => true
               end) = true ->
         state_of (updateFn (BValue n) v w) = w
         /\ (is_Some (text_of (w_heap w) v) -> updateFn (BValue n) v w = Returns w))
  /\ (forall n,
         let e := el_at (w_dom w) n in
         updateFn (BValue n)
                  (if String.eqb (el_type e) "checkbox"
                   then VBool (el_checked e) else VStr (el_value e)) w = Returns w)
  /\ (forall n,
         truthy v = true ->
         w_frames (state_of (updateFn (BFocus n) v (state_of (updateFn (BFocus n) v w))))
         = w_frames w ++ [n; n]).
Proof.
  assert (Hecho : forall n x,
             (if String.eqb (el_type (el_at (w_dom w) n)) "checkbox"
              then Bool.eqb (el_checked (el_at (w_dom w) n)) (truthy x)
              else match text_of (w_heap w) x with
                   | Some s => String.eqb (el_value (el_at (w_dom w) n)) s
                   | None => true
                   end) = true ->
             state_of (updateFn (BValue n) x w) = w
             /\ (is_Some (text_of (w_heap w) x) -> updateFn (BValue n) x w = Returns w)).
  { intros n x H. cbn [updateFn]. destruct (text_of (w_heap w) x) as [s|].
    - destruct (String.eqb (el_type _) "checkbox"); rewrite H; now split.
    - split; [reflexivity|]. intros [? ?]; discriminate. }
  split; [|split; [|split]].
  - intros [n|n|n|n d|n a] Hb; cbn [updateFn].
    + destruct (text_of (w_heap w) v) as [s|] eqn:Es; cbn [state_of]; [|now rewrite Es].
      change (w_heap (dom_update n (with_textContent s) w)) with (w_heap w).
      rewrite Es. f_equal. now apply dom_update_idem.
    + destruct (text_of (w_heap w) v) as [s|] eqn:Es; cbn [state_of]; [|now rewrite Es].
      destruct (String.eqb (el_type (el_at (w_dom w) n)) "checkbox") eqn:Et.
      * destruct (Bool.eqb (el_checked (el_at (w_dom w) n)) (truthy v)) eqn:Ec; cbn [negb].
        -- now rewrite Es, Et, Ec.
        -- change (w_heap (dom_update n (with_checked (truthy v)) w)) with (w_heap w).
           rewrite Es, el_at_dom_update. cbn [with_checked el_type el_checked].
           now rewrite Et, Bool.eqb_reflx.
      * destruct (String.eqb (el_value (el_at (w_dom w) n)) s) eqn:Ev; cbn [negb].
        -- now rewrite Es, Et, Ev.
        -- change (w_heap (dom_update n (with_value s) w)) with (w_heap w).
           rewrite Es, el_at_dom_update. cbn [with_value el_type el_value].
           now rewrite Et, String.eqb_refl.
    + now elim (Hb n).
    + destruct (text_of (w_heap w) v) as [s|] eqn:Es; cbn [state_of]; [|now rewrite Es].
      destruct (hyphen_lower d || negb (valid_attribute_name (dataset_attr d))) eqn:Ed;
        cbn [state_of]; rewrite ?Es, ?Ed; [reflexivity|].
      unfold dataset_set. change (w_heap (dom_update n _ w)) with (w_heap w).
      rewrite Es. f_equal. apply dom_update_idem. intros e. cbn. now rewrite attr_set_idem.
    + destruct (negb (is_nullish v)).
      * destruct (String_ (w_heap w) v) as [s|] eqn:Es; cbn [state_of]; [|now rewrite Es].
        destruct (valid_attribute_name a) eqn:Ea; cbn [state_of]; rewrite ?Es, ?Ea;
          [|reflexivity].
        unfold setAttribute. change (w_heap (dom_update n _ w)) with (w_heap w).
        rewrite Es. f_equal. apply dom_update_idem. intros e.
        apply (reflect_idem (attr_set (lower_case a) s)). intros l. apply attr_set_idem.
      * cbn [state_of]. f_equal. unfold removeAttribute. apply dom_update_idem. intros e.
        apply (reflect_idem (attr_remove (lower_case a))). intros l. apply attr_remove_idem.
  - intros n e. apply Hecho.
  - intros n e.
    assert (Ht : is_Some (text_of (w_heap w)
                            (if String.eqb (el_type e) "checkbox"
                             then VBool (el_checked e) else VStr (el_value e)))).
    { unfold text_of, String_. destruct (String.eqb (el_type e) "checkbox"); cbn [is_nullish];
        destruct (size (w_heap w)); cbn [to_string]; try destruct (el_checked e); eauto. }
    apply Hecho; [|exact Ht]. fold e.
    destruct (String.eqb (el_type e) "checkbox"); cbn.
    + apply Bool.eqb_reflx.
    + unfold text_of, String_. cbn [is_nullish].
      destruct (size (w_heap w)); cbn [to_string]; apply String.eqb_refl.
  - intros n Ht. cbn [updateFn]. rewrite Ht. cbn. now rewrite <- app_assoc.
Qed.

Lemma reflect_type_attrs (e : element) : el_attrs (reflect_type e) = el_attrs e.
Proof. unfold reflect_type. now destruct (type_property _ _). Qed.

Lemma update_effect_own (n : node) (w w' : world) :
  update_effect n w w' ->
  w_focus w' = w_focus w
  /\ el_bound (el_at (w_dom w') n) = el_bound (el_at (w_dom w) n)
  /\ el_tag (el_at (w_dom w') n) = el_tag (el_at (w_dom w) n)
  /\ el_input (el_at (w_dom w') n) = el_input (el_at (w_dom w) n).
Proof.
  intros [|f Hf|]; try (repeat split; reflexivity).
  split; [reflexivity|]. rewrite el_at_dom_update.
  destruct (Hf (el_at (w_dom w) n)) as (_ & _ & H1 & H2 & H3). auto.
Qed.

(** X7.  An update function changes the element of its own node and
    nothing else of the tree; it leaves the heap, the store, the
    registry, the collections and the log as they are, and on its node
    the marker, the tag and the listeners.  The [type] of the node stays
    but under [bind-attr-*], where it becomes what the host makes of
    the tag and the attributes written, if it makes something of them.
    Only the one of [bind-focus] queues a frame request, and it changes
    no element.  An update function that throws has changed nothing at
    all. *)
Theorem updateFn_frame_own_node (b : binding) (v : value) (w : world) :
  let w' := state_of (updateFn b v w) in
  let n := binding_node b in
  w_heap w' = w_heap w
  /\ w_store w' = w_store w
  /\ w_subs w' = w_subs w
  /\ w_colls w' = w_colls w
  /\ w_log w' = w_log w
  /\ w_next_node w' = w_next_node w
  /\ w_focus w' = w_focus w
  /\ (forall x, x <> n -> el_at (w_dom w') x = el_at (w_dom w) x)
  /\ el_bound (el_at (w_dom w') n) = el_bound (el_at (w_dom w) n)
  /\ el_tag (el_at (w_dom w') n) = el_tag (el_at (w_dom w) n)
  /\ el_input (el_at (w_dom w') n) = el_input (el_at (w_dom w) n)
  /\ ((forall m a, b <> BAttr m a) ->
      el_type (el_at (w_dom w') n) = el_type (el_at (w_dom w) n))
  /\ (forall m a, b = BAttr m a ->
                  updateFn b v w = Throws w
                  \/ el_type (el_at (w_dom w') n)
                     = default (el_type (el_at (w_dom w) n))
                               (type_property (el_tag (el_at (w_dom w) n))
                                              (el_attrs (el_at (w_dom w') n))))
  /\ ((forall m, b <> BFocus m) -> w_frames w' = w_frames w)
  /\ ((exists m, b = BFocus m) -> w_dom w' = w_dom w)
  /\ (forall w0, updateFn b v w = Throws w0 -> w0 = w).
Proof.
  intros w' n. subst w' n.
  destruct (update_effect_fields _ _ _ (updateFn_effect b v w))
    as (F1 & F2 & F3 & F4 & F5 & F6 & F7).
  destruct (update_effect_own _ _ _ (updateFn_effect b v w)) as (G1 & G2 & G3 & G4).
  do 7 (split; [assumption|]).
  split; [intros x Hx; apply F7; congruence|].
  do 3 (split; [assumption|]).
  assert (Hreflect : forall m g,
             el_type (el_at (w_dom (dom_update m
                        (fun e => reflect_type (with_attrs (g (el_attrs e)) e)) w)) m)
             = default (el_type (el_at (w_dom w) m))
                 (type_property (el_tag (el_at (w_dom w) m))
                    (el_attrs (el_at (w_dom (dom_update m
                        (fun e => reflect_type (with_attrs (g (el_attrs e)) e)) w)) m)))).
  { intros m g. rewrite el_at_dom_update, reflect_type_attrs. unfold reflect_type.
    cbn [with_attrs el_tag el_attrs].
    now destruct (type_property (el_tag (el_at (w_dom w) m)) (g (el_attrs (el_at (w_dom w) m)))). }
  split; [|split; [|split; [|split; [|apply updateFn_throws]]]].
  - intros Hb. destruct b as [m|m|m|m d|m a]; cbn [updateFn binding_node].
    + destruct (text_of _ _); [|reflexivity]. cbn [state_of]. now rewrite el_at_dom_update.
    + destruct (text_of _ _); [|reflexivity]. cbn [state_of].
      destruct (String.eqb _ _); destruct (negb _); try reflexivity;
        now rewrite el_at_dom_update.
    + now destruct (truthy v).
    + destruct (text_of _ _); [|reflexivity]. destruct (_ || _); [reflexivity|].
      cbn [state_of]. unfold dataset_set. now rewrite el_at_dom_update.
    + now elim (Hb m a).
  - intros m a ->. cbn [updateFn binding_node]. destruct (negb _).
    + destruct (String_ _ _) as [s|]; [|now left].
      destruct (valid_attribute_name a); [|now left]. right. cbn [state_of].
      apply (Hreflect m (attr_set (lower_case a) s)).
    + right. cbn [state_of]. apply (Hreflect m (attr_remove (lower_case a))).
  - intros Hb. destruct b as [m|m|m|m d|m a]; cbn [updateFn].
    + now destruct (text_of _ _).
    + destruct (text_of _ _); [|reflexivity]. cbn [state_of].
      now destruct (String.eqb _ _); destruct (negb _).
    + now elim (Hb m).
    + destruct (text_of _ _); [|reflexivity]. now destruct (_ || _).
    + destruct (negb _); [|reflexivity].
      destruct (String_ _ _); [|reflexivity]. now destruct (valid_attribute_name a).
  - intros (m & ->). cbn [updateFn state_of]. now destruct (truthy v).
Qed.

(** *** Revocation, composed *)

Lemma cleanupWithin_inside (c : node) (w : world) (c' : node) (s : node * subid) :
  inside (cleanupWithin c w) c' s = inside w c' s.
Proof.
  unfold inside. apply contains_ext; rewrite cleanupWithin_eq; cbn [w_dom w_next_node set_subs];
    apply revoke_all_dom.
Qed.

Lemma filter_none {A : Type} (f : A -> bool) (l : list A) :
  (forall x, In x l -> f x = false) -> List.filter f l = [].
Proof.
  induction l as [|a l IH]; intros H; simpl; [reflexivity|].
  rewrite (H a (or_introl eq_refl)). apply IH. intros x Hx. apply H. now right.
Qed.

Lemma filter_in_all {A : Type} (f : A -> bool) (l : list A) :
  (forall x, In x l -> f x = true) -> List.filter f l = l.
Proof.
  induction l as [|a l IH]; intros H; simpl; [reflexivity|].
  rewrite (H a (or_introl eq_refl)). f_equal. apply IH. intros x Hx. apply H. now right.
Qed.

Lemma cleanupWithin_nothing (c : node) (w : world) :
  (forall s, In s (w_subs w) -> contains w c (fst s) = false) -> cleanupWithin c w = w.
Proof.
  intros H. rewrite cleanupWithin_eq.
  rewrite (filter_none (inside w c)) by exact H.
  rewrite filter_in_all by (intros s Hs; unfold inside; now rewrite (H s Hs)).
  cbn [revoke_all fold_right]. now destruct w.
Qed.

(** X8.  [cleanupWithin] composes as a filter.  A container that has no
    registry entry within it is left alone: the world does not change.
    Cleaning the same container twice is cleaning it once.  Cleaning two
    containers leaves the same registry in either order: the entries
    within neither. *)
Theorem cleanupWithin_idempotent (c : node) (w : world) :
  ((forall s, In s (w_subs w) -> contains w c (fst s) = false) -> cleanupWithin c w = w)
  /\ cleanupWithin c (cleanupWithin c w) = cleanupWithin c w
  /\ (forall c',
         w_subs (cleanupWithin c' (cleanupWithin c w))
         = List.filter (fun s => negb (inside w c s) && negb (inside w c' s)) (w_subs w)
         /\ w_subs (cleanupWithin c' (cleanupWithin c w))
            = w_subs (cleanupWithin c (cleanupWithin c' w))).
Proof.
  assert (Hsubs : forall a x, w_subs (cleanupWithin a x)
                              = List.filter (fun s => negb (inside x a s)) (w_subs x))
    by (intros a x; now destruct (cleanupWithin_effect a x)).
  assert (Htwo : forall a b,
             w_subs (cleanupWithin b (cleanupWithin a w))
             = List.filter (fun s => negb (inside w a s) && negb (inside w b s)) (w_subs w)).
  { intros a b. rewrite Hsubs, Hsubs, filter_filter. apply List.filter_ext.
    intros s. now rewrite cleanupWithin_inside. }
  split; [apply cleanupWithin_nothing|]. split.
  - apply cleanupWithin_nothing. intros s Hs. rewrite Hsubs in Hs.
    apply List.filter_In in Hs. destruct Hs as [_ Hs].
    apply negb_true_iff in Hs. rewrite <- Hs.
    apply (cleanupWithin_inside c w c s).
  - intros c'. split; [apply Htwo|]. rewrite !Htwo. apply List.filter_ext.
    intros s. apply andb_comm.
Qed.

(** *** The cleanup function of the mount *)

Lemma teardown_fold (l : list (node * subid)) :
  forall w,
    let w' := fold_left (fun w s => store_unsub (snd s) w) l w in
    st_listeners (w_store w')
    = List.filter (fun e => negb (existsb (Nat.eqb (fst (fst e))) (map snd l)))
                  (st_listeners (w_store w))
    /\ w_log w' = rev (map (fun s => EUnsub (snd s)) l) ++ w_log w
    /\ w_subs w' = w_subs w
    /\ w_dom w' = w_dom w
    /\ w_colls w' = w_colls w
    /\ w_heap w' = w_heap w.
Proof.
  induction l as [|[n id] l IH]; intros w; cbn [fold_left].
  - cbn. rewrite filter_all by reflexivity. repeat split.
  - destruct (IH (store_unsub id w)) as (I1 & I2 & I3 & I4 & I5 & I6). cbv zeta.
    cbn [snd] in *. rewrite I1, I2, I3, I4, I5, I6. cbn [store_unsub w_store set_store
      log_event st_listeners w_log w_subs w_dom w_colls w_heap map rev snd].
    rewrite filter_filter, <- app_assoc. repeat split.
    apply List.filter_ext. intros e. cbn [existsb]. now rewrite negb_orb.
Qed.

(** X9.  The cleanup function [mount] returns calls the handle of every
    registry entry, first entry first, and does nothing else: the
    subscriptions whose handle is in the registry leave the store, the
    others stay, and the registry, the tree, the collections and the
    store's objects are as they were (the registry is not emptied, so a
    second call calls every handle again). *)
Theorem teardown_revokes (w : world) :
  let w' := teardown w in
  st_listeners (w_store w')
  = List.filter (fun e => negb (existsb (Nat.eqb (fst (fst e))) (map snd (w_subs w))))
                (st_listeners (w_store w))
  /\ w_log w' = rev (map (fun s => EUnsub (snd s)) (w_subs w)) ++ w_log w
  /\ w_subs w' = w_subs w
  /\ w_dom w' = w_dom w
  /\ w_colls w' = w_colls w
  /\ w_heap w' = w_heap w
  /\ w_log (teardown w')
     = rev (map (fun s => EUnsub (snd s)) (w_subs w)) ++ w_log w'.
Proof.
  intros w'. subst w'. unfold teardown.
  destruct (teardown_fold (w_subs w) w) as (H1 & H2 & H3 & H4 & H5 & H6). cbv zeta in *.
  repeat split; try assumption.
  set (w' := fold_left _ (w_subs w) w) in *.
  destruct (teardown_fold (w_subs w') w') as (_ & K2 & _). cbv zeta in K2.
  now rewrite K2, H3.
Qed.

(** *** Every subscription is in the registry *)

(** Each subscription the store holds has its handle in the registry of
    the mount. *)
Definition registered (w : world) : Prop :=
  forall e, In e (st_listeners (w_store w)) -> exists n, In (n, fst (fst e)) (w_subs w).

Lemma registered_same (w w' : world) :
  st_listeners (w_store w') = st_listeners (w_store w) ->
  w_subs w' = w_subs w ->
  registered w -> registered w'.
Proof. intros Hl Hs H e. rewrite Hl, Hs. apply H. Qed.

Lemma registered_fold {A : Type} (f : world -> A -> world) (l : list A) :
  (forall w a, registered w -> registered (f w a)) ->
  forall w, registered w -> registered (fold_left f l w).
Proof.
  intros Hf. induction l as [|a l IH]; intros w Hw; cbn [fold_left]; [assumption|].
  apply IH, Hf, Hw.
Qed.

(** A step that keeps every subscription registered. *)
Definition keeps_registered (w w' : world) : Prop := registered w -> registered w'.

Lemma keeps_registered_refl (w : world) : keeps_registered w w.
Proof. intros H. exact H. Qed.

Lemma keeps_registered_trans (w1 w2 w3 : world) :
  keeps_registered w1 w2 -> keeps_registered w2 w3 -> keeps_registered w1 w3.
Proof. unfold keeps_registered. auto. Qed.

Lemma updateFn_registered (b : binding) (v : value) (w : world) :
  keeps_registered w (state_of (updateFn b v w)).
Proof.
  destruct (update_effect_fields _ _ _ (updateFn_effect b v w)) as (_ & Hs & Hr & _).
  unfold keeps_registered. apply registered_same; [now rewrite Hs | exact Hr].
Qed.

Lemma subscribe_registered (p : string) (f : listener) (n : node) (w : world) :
  registered w ->
  registered (set_subs (w_subs (snd (store_subscribe p f w))
                        ++ [(n, fst (store_subscribe p f w))])
                       (snd (store_subscribe p f w))).
Proof.
  intros H e He. cbn in *. apply in_app_or in He. destruct He as [He|[<-|[]]].
  - destruct (H e He) as (m & Hm). exists m. apply in_or_app. now left.
  - exists n. apply in_or_app. right. now left.
Qed.

Lemma dom_update_registered (n : node) (f : element -> element) (w : world) :
  registered w -> registered (dom_update n f w).
Proof. now apply (registered_same w). Qed.

Lemma scan_node_registered (w : world) (n : node) :
  keeps_registered w (state_of (scan_node w n)).
Proof.
  apply (scan_node_preserves keeps_registered keeps_registered_refl keeps_registered_trans n).
  - intros w0 w' He. destruct (update_effect_fields _ _ _ He) as (_ & Hs & Hr & _).
    unfold keeps_registered. apply registered_same; [now rewrite Hs | exact Hr].
  - intros p f w0. exact (subscribe_registered p f n w0).
  - intros f w0 _. exact (dom_update_registered n f w0).
Qed.

Lemma scanBindings_registered (el : node) (w : world) :
  keeps_registered w (state_of (scanBindings el w)).
Proof.
  unfold scanBindings.
  apply (for_each_preserves keeps_registered keeps_registered_refl keeps_registered_trans).
  intros w0 n. apply scan_node_registered.
Qed.

Lemma cleanupWithin_registered (c : node) (w : world) :
  registered w -> registered (cleanupWithin c w).
Proof.
  intros H e He. rewrite cleanupWithin_eq in *.
  set (gone := List.filter (inside w c) (w_subs w)) in *.
  destruct (revoke_all_store gone w) as (Hl & _). cbn [w_store set_subs w_subs] in *.
  rewrite Hl in He. apply List.filter_In in He. destruct He as [He Hg].
  destruct (H e He) as (n & Hn). exists n. apply List.filter_In. split; [assumption|].
  destruct (inside w c (n, fst (fst e))) eqn:Hi; [|reflexivity].
  apply negb_true_iff in Hg. exfalso.
  assert (Hex : existsb (Nat.eqb (fst (fst e))) (map snd gone) = true).
  { apply existsb_exists. exists (fst (fst e)). split; [|apply Nat.eqb_refl].
    apply in_map_iff. exists (n, fst (fst e)). split; [reflexivity|].
    apply List.filter_In. now split. }
  discriminate (eq_trans (eq_sym Hex) Hg).
Qed.

Lemma coll_update_registered (c : node) (f : coll -> coll) (w : world) :
  registered w -> registered (coll_update c f w).
Proof. unfold coll_update. destruct (w_colls w !! c); [now apply (registered_same w) | auto]. Qed.

Lemma remove_step_registered (c : node) (keys : list string) (w : world)
      (e : string * node) :
  registered w -> registered (remove_step c keys w e).
Proof.
  intros H. unfold remove_step. destruct e as [k el]. destruct (existsb _ _); [assumption|].
  apply coll_update_registered.
  apply (registered_same (cleanupWithin el w)); [reflexivity | reflexivity|].
  now apply cleanupWithin_registered.
Qed.

Lemma add_step_registered (c : node) (w : world) (k : string) :
  keeps_registered w (state_of (add_step c w k)).
Proof.
  intros H. unfold add_step. destruct (w_colls w !! c) as [st|]; [|assumption].
  destruct (rendered_has _ _); [assumption|]. cbn [createElement]. unfold set_innerHTML.
  destruct (instantiate_all _ _ _) as [[ids next] d].
  set (w2 := dom_update _ _ _).
  assert (H2 : registered w2).
  { subst w2. apply dom_update_registered.
    apply (registered_same w); [reflexivity | reflexivity | assumption]. }
  destruct (firstElementChild w2 _) as [el|]; [|assumption].
  apply scanBindings_registered, coll_update_registered.
  unfold appendChild. apply dom_update_registered.
  apply (registered_same (dataset_set el "key" k w2)); [reflexivity | reflexivity|].
  unfold dataset_set. now apply dom_update_registered.
Qed.

Lemma reconcile_registered (c : node) (w : world) :
  keeps_registered w (state_of (reconcile c w)).
Proof.
  intros H. unfold reconcile. destruct (w_colls w !! c) as [st|]; [|assumption].
  destruct (String.eqb _ _); [assumption|]. cbv zeta.
  apply (for_each_preserves keeps_registered keeps_registered_refl keeps_registered_trans);
    [intros; apply add_step_registered|].
  apply registered_fold; [intros; now apply remove_step_registered|].
  now apply coll_update_registered.
Qed.

Lemma setupCollection_registered (w : world) (c : node) :
  keeps_registered w (state_of (setupCollection w c)).
Proof.
  intros H. unfold setupCollection.
  destruct (attr_get "each" _) as [p|]; [|assumption].
  destruct (head _) as [tpl|]; [|assumption].
  destruct (String.eqb p ""); [assumption|].
  cbn [store_subscribe]. apply reconcile_registered.
  intros e He. cbn in *. rewrite <- app_assoc in He.
  apply in_app_or in He. destruct He as [He|[<-|[<-|[]]]].
  - destruct (H e He) as (n & Hn). exists n. rewrite <- app_assoc. apply in_or_app. now left.
  - exists c. rewrite <- app_assoc. apply in_or_app. right. now left.
  - exists c. rewrite <- app_assoc. apply in_or_app. right. right. now left.
Qed.

Lemma mount_registered (root : node) (w : world) :
  keeps_registered w (state_of (mount root w)).
Proof.
  unfold mount. apply (and_then_preserves keeps_registered keeps_registered_trans).
  - apply (for_each_preserves keeps_registered keeps_registered_refl keeps_registered_trans).
    intros w0 c. apply setupCollection_registered.
  - intros w0. apply scanBindings_registered.
Qed.

Lemma notify_registered (p : string) (w : world) :
  keeps_registered w (state_of (notify p w)).
Proof.
  unfold notify.
  apply (for_each_preserves keeps_registered keeps_registered_refl keeps_registered_trans).
  intros w0 [[id sp] f] H0.
  destruct (subscribed id w0); [|assumption].
  assert (H1 : registered (log_event (ENotify id p) w0)) by now apply (registered_same w0).
  destruct f; cbn [run_listener];
    [now apply updateFn_registered | now apply reconcile_registered].
Qed.

Lemma store_set_registered (p : string) (v : value) (w : world) :
  keeps_registered w (state_of (store_set p v w)).
Proof.
  intros H. unfold store_set. destruct (st_depth (w_store w)).
  - apply notify_registered. now apply (registered_same w).
  - cbn [state_of]. destruct (existsb _ _); now apply (registered_same w).
Qed.

Lemma store_batch_registered (fn : world -> outcome) (w : world) :
  (forall w0, keeps_registered w0 (state_of (fn w0))) ->
  keeps_registered w (state_of (store_batch fn w)).
Proof.
  intros Hfn H. unfold store_batch.
  set (w0 := log_event EBatchEnter _).
  assert (H0 : registered w0) by now apply (registered_same w).
  revert H0. apply (and_then_preserves keeps_registered keeps_registered_trans); [apply Hfn|].
  intros w1 H1.
  assert (H2 : forall s, registered (set_store (with_batch 0 [] (w_store w1))
                                               (log_event EBatchLeave w1)) /\
                         registered (set_store (with_batch s (st_pending (w_store w1))
                                                           (w_store w1))
                                               (log_event EBatchLeave w1)))
    by (intros s; split; now apply (registered_same w1)).
  destruct (st_depth (w_store w1)) as [|[|d]].
  - apply (H2 0).
  - revert H1. intros _.
    apply (for_each_preserves keeps_registered keeps_registered_refl keeps_registered_trans);
      [intros; apply notify_registered | apply (H2 0)].
  - apply (H2 (pred (S (S d)))).
Qed.

Lemma push_body_registered (now : Z) (p sp : string) (src : value) (w : world) :
  keeps_registered w (state_of (push_body now p sp src w)).
Proof.
  intros H. unfold push_body.
  destruct (json_clone _ _) as [[copy h]|]; [|assumption].
  assert (H0 : registered (set_heap h w)) by now apply (registered_same w).
  revert H0. apply (and_then_preserves keeps_registered keeps_registered_trans);
    [apply store_set_registered|].
  intros w1.
  apply (for_each_preserves keeps_registered keeps_registered_refl keeps_registered_trans).
  intros; apply store_set_registered.
Qed.

Lemma executeSet_registered (now : Z) (raw : string) (w : world) :
  keeps_registered w (state_of (executeSet now raw w)).
Proof.
  intros H. unfold executeSet.
  destruct (match expr (parseSetExpr raw) with
            | Some e => String.eqb e "delete"
            | None => false
            end).
  { destruct (lastIndexOf _ _); [|assumption].
    apply store_set_registered. now apply (registered_same w). }
  destruct (parsePush _) as [push|].
  - destruct (source push) as [sp|]; [|assumption].
    destruct (String.eqb sp ""); [assumption|].
    destruct (negb _); [assumption|].
    destruct (typeof _); try assumption.
    revert H. apply store_batch_registered. intros w0. apply push_body_registered.
  - destruct (evalExpr _ _ _) as [[v h]|]; [|assumption].
    apply store_set_registered. now apply (registered_same w).
Qed.

(** X10.  No subscription leaks.  That every subscription of the store
    has its handle in the registry is kept by [mount], by every action
    and by the [input] listeners of [bind-value], whatever the
    listeners notified on the way render or revoke, and also where one
    of them throws; so on a store that had no subscription before the
    mount, the cleanup function leaves none, however many actions ran in
    between. *)
Theorem no_subscription_leaks :
  (forall root w, registered w -> registered (state_of (mount root w)))
  /\ (forall now raw w, registered w -> registered (state_of (executeSet now raw w)))
  /\ (forall n w, registered w -> registered (state_of (on_input n w)))
  /\ (forall w, registered w -> st_listeners (w_store (teardown w)) = [])
  /\ (forall w, st_listeners (w_store w) = [] -> registered w).
Proof.
  split; [exact mount_registered|]. split; [exact executeSet_registered|]. split.
  { intros n w. unfold on_input.
    apply (for_each_preserves keeps_registered keeps_registered_refl keeps_registered_trans).
    intros; apply store_set_registered. }
  split.
  - intros w H. unfold teardown.
    destruct (teardown_fold (w_subs w) w) as (H1 & _). cbv zeta in H1. rewrite H1.
    apply filter_none. intros e He. apply negb_false_iff.
    destruct (H e He) as (n & Hn). apply existsb_exists. exists (fst (fst e)).
    split; [|apply Nat.eqb_refl]. apply in_map_iff. now exists (n, fst (fst e)).
  - intros w Hw e He. rewrite Hw in He. destruct He.
Qed.

(** *** The fast bail of the reconciler *)

Lemma present_keys_reads (p : string) (w w' : world) :
  reads_only w w' -> present_keys p w' = present_keys p w.
Proof.
  intros (Hh & Hr & _). unfold present_keys, store_get. now rewrite Hh, Hr.
Qed.

Lemma add_fold_fields (c : node) (keys : list string) :
  forall (w : world) (st : coll),
    w_colls w !! c = Some st ->
    exists st', w_colls (state_of (for_each (add_step c) keys w)) !! c = Some st'
                /\ c_path st' = c_path st
                /\ c_template st' = c_template st
                /\ c_lastKeyStr st' = c_lastKeyStr st.
Proof.
  induction keys as [|k keys IH]; intros w st Hc; cbn [for_each]; [now exists st|].
  destruct (add_step_effect c w k st Hc) as (Hc1 & _).
  destruct (added_state_fields w st k) as (F1 & F2 & F3).
  destruct (add_step c w k) as [w1|w1]; cbn [and_then state_of] in *.
  - destruct (IH _ _ Hc1) as (st' & Hc' & G1 & G2 & G3).
    exists st'. repeat split; [assumption | congruence | congruence | congruence].
  - eexists. split; [exact Hc1|]. auto.
Qed.

Lemma reconcile_fields (c : node) (w : world) (st : coll) :
  w_colls w !! c = Some st ->
  exists st', w_colls (state_of (reconcile c w)) !! c = Some st'
              /\ c_path st' = c_path st
              /\ c_template st' = c_template st
              /\ c_lastKeyStr st' = join "," (present_keys (c_path st) w).
Proof.
  intros Hc. unfold reconcile. rewrite Hc.
  destruct (String.eqb_spec (join "," (present_keys (c_path st) w)) (c_lastKeyStr st))
    as [E|_].
  { exists st. now rewrite E. }
  cbv zeta. set (keys := present_keys (c_path st) w).
  set (st0 := with_lastKeyStr (join "," keys) st).
  assert (Hc0 : w_colls (coll_update c (with_lastKeyStr (join "," keys)) w) !! c = Some st0).
  { unfold coll_update. rewrite Hc. cbn. apply lookup_insert_eq. }
  destruct (remove_phase c keys (c_rendered st) _ st0 Hc0) as (I1 & _).
  destruct (add_fold_fields c keys _ _ I1) as (st' & Hc' & G1 & G2 & G3).
  exists st'. repeat split; assumption.
Qed.

(** X11.  A call of [reconcile] right after another does nothing: the
    first leaves the signature of the present keys in the cache (also
    where the scan of a new element throws), it writes nothing to the
    store, and so the second is bailed out.  (A write to a key of the
    collection notifies both subscriptions of the container, the exact
    one and the wildcard; the second call is this case.)  The collection
    path and the template captured at setup stay as they are through
    every call. *)
Theorem reconcile_idempotent (c : node) (w : world) :
  reconcile c (state_of (reconcile c w)) = Returns (state_of (reconcile c w))
  /\ (forall st, w_colls w !! c = Some st ->
                 exists st', w_colls (state_of (reconcile c w)) !! c = Some st'
                             /\ c_path st' = c_path st
                             /\ c_template st' = c_template st
                             /\ c_lastKeyStr st'
                                = join "," (present_keys (c_path st)
                                                         (state_of (reconcile c w)))).
Proof.
  assert (Hf : forall st, w_colls w !! c = Some st ->
                          exists st', w_colls (state_of (reconcile c w)) !! c = Some st'
                                      /\ c_path st' = c_path st
                                      /\ c_template st' = c_template st
                                      /\ c_lastKeyStr st'
                                         = join "," (present_keys (c_path st)
                                                                  (state_of (reconcile c w)))).
  { intros st Hc. destruct (reconcile_fields c w st Hc) as (st' & H1 & H2 & H3 & H4).
    exists st'. rewrite (present_keys_reads _ w) by apply reconcile_reads. auto. }
  split; [|exact Hf].
  destruct (w_colls w !! c) as [st|] eqn:Hc.
  - destruct (Hf st eq_refl) as (st' & H1 & H2 & H3 & H4).
    unfold reconcile at 1. rewrite H1, H2, H4. now rewrite String.eqb_refl.
  - assert (E : reconcile c w = Returns w) by (unfold reconcile; now rewrite Hc).
    rewrite !E. cbn [state_of]. exact E.
Qed.

(** *** Event delegation *)





(** *** Placeholder substitution *)

Lemma indexOf_cons_none (c a : ascii) (s : string) :
  indexOf c (String a s) = None -> Ascii.eqb a c = false /\ indexOf c s = None.
Proof.
  simpl. destruct (Ascii.eqb a c); [discriminate|].
  now destruct (indexOf c s).
Qed.

Lemma indexOf_app_none (c : ascii) (a b : string) :
  indexOf c a = None -> indexOf c b = None -> indexOf c (a ++ b) = None.
Proof.
  intros Ha Hb. induction a as [|x a IH]; rewrite ?sapp_nil, ?sapp_cons; [assumption|].
  apply indexOf_cons_none in Ha. destruct Ha as [E Ha]. simpl. rewrite E.
  now rewrite (IH Ha).
Qed.

(** A replacement text without a dollar stands for itself. *)
Lemma expand_plain (r matched before after : string) :
  indexOf "$" r = None -> expand_replacement r matched before after = r.
Proof.
  induction r as [|x r IH]; [reflexivity|]. intros H.
  apply indexOf_cons_none in H. destruct H as [E H].
  destruct (Ascii.eqb_spec x "$") as [->|Hne]; [discriminate|].
  assert (Hx : expand_replacement (String x r) matched before after
               = String x (expand_replacement r matched before after)).
  { destruct x as [[] [] [] [] [] [] [] []]; try reflexivity. now elim Hne. }
  now rewrite Hx, IH.
Qed.

(** With such a replacement text, what has been passed does not
    matter. *)
Lemma replace_all_before (pat repl : string) :
  indexOf "$" repl = None ->
  forall s b1 b2 k, replace_all pat repl b1 k s = replace_all pat repl b2 k s.
Proof.
  intros Hr. induction s as [|x s IH]; intros b1 b2 k; [reflexivity|].
  cbn [replace_all]. destruct k as [|k]; [|apply IH].
  destruct (strip_prefix pat (String x s)).
  - rewrite !expand_plain by assumption. f_equal. apply IH.
  - f_equal. apply IH.
Qed.

(** Text without the first character of the pattern goes through. *)
Lemma replace_all_through (c : ascii) (pat repl a s before : string) :
  indexOf "$" repl = None ->
  indexOf c a = None ->
  replace_all (String c pat) repl before 0 (a ++ s)
  = (a ++ replace_all (String c pat) repl before 0 s)%string.
Proof.
  intros Hr. revert before. induction a as [|x a IH]; intros before Ha;
    rewrite ?sapp_nil, ?sapp_cons; [reflexivity|].
  apply indexOf_cons_none in Ha. destruct Ha as [E Ha].
  cbn [replace_all strip_prefix]. rewrite Ascii.eqb_sym in E. rewrite E.
  f_equal. rewrite (IH _ Ha). f_equal. now apply replace_all_before.
Qed.

Lemma replace_all_none (c : ascii) (pat repl a before : string) :
  indexOf "$" repl = None ->
  indexOf c a = None ->
  replace_all (String c pat) repl before 0 a = a.
Proof.
  intros Hr Ha. rewrite <- (string_app_nil_r a) at 1.
  rewrite replace_all_through by assumption. cbn [replace_all].
  apply string_app_nil_r.
Qed.

Lemma replace_all_miss (pat repl before : string) (x : ascii) (s : string) :
  strip_prefix pat (String x s) = None ->
  replace_all pat repl before 0 (String x s)
  = String x (replace_all pat repl (String x before) 0 s).
Proof. intros H. cbn [replace_all]. now rewrite H. Qed.

(** The characters of a match are passed over. *)
Lemma replace_all_skip (pat repl : string) :
  forall x s before, replace_all pat repl before (String.length x) (x ++ s)
                     = replace_all pat repl (str_rev_onto x before) 0 s.
Proof.
  induction x as [|a x IH]; intros s before; rewrite ?sapp_nil, ?sapp_cons.
  - cbn [String.length str_rev_onto]. destruct s; reflexivity.
  - cbn [String.length replace_all str_rev_onto]. apply IH.
Qed.

(** An occurrence of the pattern is replaced. *)
Lemma replace_all_match (c : ascii) (pat repl s before : string) :
  indexOf "$" repl = None ->
  replace_all (String c pat) repl before 0 (String c pat ++ s)
  = (repl ++ replace_all (String c pat) repl before 0 s)%string.
Proof.
  intros Hr. rewrite sapp_cons. cbn [replace_all].
  assert (Hs : strip_prefix (String c pat) (String c (pat ++ s)) = Some s).
  { apply strip_prefix_spec. now rewrite sapp_cons. }
  rewrite Hs, expand_plain by assumption. f_equal.
  replace (String.length (String c pat) - 1) with (String.length pat)
    by (cbn [String.length]; lia).
  rewrite replace_all_skip. now apply replace_all_before.
Qed.

(** X13.  [resolve] substitutes the placeholders where the key and the
    collection path hold no dollar sign and the key holds no opening
    brace: markup without an opening brace is returned as it is, an
    occurrence of the key placeholder becomes the key and an occurrence
    of the path placeholder becomes the collection path, a dot and the
    key, and what follows is resolved in the same way.  A dollar sign in
    the key is read as a replacement pattern: a key of two dollar signs
    is written as one. *)
Theorem resolve_substitutes (c k : string) :
  indexOf "$" k = None ->
  indexOf "{" k = None ->
  indexOf "$" c = None ->
  (forall a, indexOf "{" a = None -> resolve c a k = a)
  /\ (forall a b, indexOf "{" a = None ->
                  resolve c (a ++ "{_key}" ++ b) k = (a ++ k ++ resolve c b k)%string)
  /\ (forall a b, indexOf "{" a = None ->
                  resolve c (a ++ "{_path}" ++ b) k
                  = (a ++ (c ++ "." ++ k) ++ resolve c b k)%string)
  /\ resolve c "{_key}" "$$" = "$".
Proof.
  intros Hk Hb Hc.
  assert (Hck : indexOf "$" (c ++ "." ++ k) = None).
  { apply indexOf_app_none; [assumption|]. now apply (indexOf_app_none "$" "."). }
  unfold resolve. split; [|split; [|split]].
  - intros a Ha. rewrite (replace_all_none "{" "_key}") by assumption.
    now apply replace_all_none.
  - intros a b Ha.
    rewrite (replace_all_through "{" "_key}") by assumption.
    rewrite (replace_all_match "{" "_key}") by assumption.
    rewrite (replace_all_through "{" "_path}" _ a) by assumption.
    now rewrite (replace_all_through "{" "_path}" _ k) by assumption.
  - intros a b Ha.
    rewrite (replace_all_through "{" "_key}") by assumption.
    assert (H1 : forall before,
               replace_all "{_key}" k before 0 ("{_path}" ++ b)
               = ("{_path}" ++ replace_all "{_key}" k "" 0 b)%string).
    { intros before.
      assert (Hm : strip_prefix "{_key}" (String "{" ("_path}" ++ b)) = None) by reflexivity.
      change ("{_path}" ++ b)%string with (String "{" ("_path}" ++ b)).
      rewrite (replace_all_miss _ _ _ _ _ Hm).
      rewrite (replace_all_through "{" "_key}" k "_path}") by (assumption || reflexivity).
      change ("{_path}" ++ replace_all "{_key}" k "" 0 b)%string
        with (String "{" ("_path}" ++ replace_all "{_key}" k "" 0 b)).
      f_equal. f_equal. now apply replace_all_before. }
    rewrite H1.
    rewrite (replace_all_through "{" "_path}") by assumption.
    now rewrite (replace_all_match "{" "_path}") by assumption.
  - reflexivity.
Qed.

(** *** Setting up a collection, and the mount *)

(** A step that only appends to the registry. *)
Definition appends (w w' : world) : Prop := exists l, w_subs w' = w_subs w ++ l.

Lemma appends_refl (w : world) : appends w w.
Proof. exists []. now rewrite app_nil_r. Qed.

Lemma appends_trans (w1 w2 w3 : world) : appends w1 w2 -> appends w2 w3 -> appends w1 w3.
Proof. intros (l1 & H1) (l2 & H2). exists (l1 ++ l2). now rewrite H2, H1, app_assoc. Qed.

Lemma add_step_appends (c : node) (w : world) (k : string) :
  appends w (state_of (add_step c w k)).
Proof.
  destruct (w_colls w !! c) as [st|] eqn:Hc.
  - destruct (add_step_effect c w k st Hc) as (_ & _ & (l1 & H1 & _) & _). now exists l1.
  - unfold add_step. rewrite Hc. apply appends_refl.
Qed.

(** A call of [reconcile] on a collection that has rendered nothing
    only appends to the registry. *)
Lemma reconcile_fresh_appends (c : node) (w : world) (st : coll) :
  w_colls w !! c = Some st -> c_rendered st = [] ->
  appends w (state_of (reconcile c w)).
Proof.
  intros Hc Hr. unfold reconcile. rewrite Hc, Hr.
  destruct (String.eqb _ _); [apply appends_refl|].
  cbv zeta. cbn [fold_left].
  apply (appends_trans _ (coll_update c (with_lastKeyStr
                                           (join "," (present_keys (c_path st) w))) w)).
  - unfold coll_update. rewrite Hc. exists []. cbn. now rewrite app_nil_r.
  - apply (for_each_preserves appends appends_refl appends_trans). apply add_step_appends.
Qed.

(** The first template element within a container. *)
Definition template_of (w : world) (container : node) : option node :=
  head (List.filter (fun n => String.eqb (el_tag (el_at (w_dom w) n)) "template")
                    (all_descendants w container)).

(** X14.  [setupCollection] ignores a container that has no [each]
    attribute, an empty one, or no template element within it: the world
    is left as it is.  For any other container it keeps the path and the
    trimmed markup of the first template, subscribes the reconciler to
    the path and to the wildcard over its children, records both handles
    in the registry on the container, and runs the first pass, which
    leaves the signature of the present keys in the cache and only
    appends to the registry and to the log, also where the scan of a
    new element throws. *)
Theorem setupCollection_effect (w : world) (c : node) :
  let each := attr_get "each" (el_attrs (el_at (w_dom w) c)) in
  ((each = None \/ each = Some "" \/ template_of w c = None) ->
   setupCollection w c = Returns w)
  /\ (forall p tpl,
         each = Some p -> p <> "" -> template_of w c = Some tpl ->
         let w' := state_of (setupCollection w c) in
         let u1 := st_next (w_store w) in
         exists st' l l',
           w_colls w' !! c = Some st'
           /\ c_path st' = p
           /\ c_template st' = trim (el_inner (el_at (w_dom w) tpl))
           /\ c_lastKeyStr st' = join "," (present_keys p w)
           /\ w_subs w' = w_subs w ++ (c, u1) :: (c, S u1) :: l
           /\ w_log w' = l' ++ ESubscribe (S u1) (p ++ ".*") :: ESubscribe u1 p :: w_log w
           /\ w_heap w' = w_heap w).
Proof.
  intros each. subst each. unfold template_of. split.
  - unfold setupCollection. intros [H|[H|H]]; rewrite H; [reflexivity| |].
    + now destruct (head _).
    + now destruct (attr_get _ _).
  - intros p tpl He Hp Ht. unfold setupCollection. rewrite He, Ht.
    destruct (String.eqb_spec p ""); [contradiction|]. cbn [store_subscribe].
    set (st0 := mkColl p (trim (el_inner (el_at (w_dom w) tpl))) [] "").
    set (w0 := set_subs _ _).
    assert (Hc0 : w_colls w0 !! c = Some st0) by (subst w0; cbn; apply lookup_insert_eq).
    destruct (reconcile_fields c w0 st0 Hc0) as (st' & H1 & H2 & H3 & H4).
    destruct (reconcile_fresh_appends c w0 st0 Hc0 eq_refl) as (l & Hl).
    destruct (reconcile_reads c w0) as (Hh & _ & _ & _ & l' & Hl' & _).
    exists st', l, l'. split; [exact H1|]. split; [exact H2|]. split; [exact H3|].
    split; [exact H4|]. split; [|split; [exact Hl' | exact Hh]].
    rewrite Hl. subst w0. cbn. now rewrite <- !app_assoc.
Qed.



(** *** What a scan subscribes *)

(** Subscriptions numbered from [k] on, one for each path and binding. *)
Fixpoint numbered (k : subid) (l : list (string * binding))
  : list (subid * string * listener) :=
  match l with
  | [] => []
  | (p, b) :: r => (k, p, LUpdate b) :: numbered (S k) r
  end.

Lemma numbered_app (k : subid) (l1 l2 : list (string * binding)) :
  numbered k (l1 ++ l2) = numbered k l1 ++ numbered (k + length l1) l2.
Proof.
  revert k. induction l1 as [|[p b] l1 IH]; intros k; cbn.
  - now rewrite Nat.add_0_r.
  - rewrite IH. do 3 f_equal. lia.
Qed.

(** From [w] to [w'] the bindings [l] were added on node [n], and no
    other subscription or registry entry was made or revoked. *)
Definition adds (n : node) (l : list (string * binding)) (w w' : world) : Prop :=
  st_listeners (w_store w')
  = st_listeners (w_store w) ++ numbered (st_next (w_store w)) l
  /\ st_next (w_store w') = st_next (w_store w) + length l
  /\ w_subs w' = w_subs w ++ map (fun e => (n, fst (fst e))) (numbered (st_next (w_store w)) l).

Lemma adds_nil (n : node) (w w' : world) :
  w_store w' = w_store w -> w_subs w' = w_subs w -> adds n [] w w'.
Proof.
  intros Hs Hr. unfold adds. rewrite Hs, Hr. cbn. now rewrite !app_nil_r, Nat.add_0_r.
Qed.

Lemma adds_trans (n : node) (l1 l2 : list (string * binding)) (w1 w2 w3 : world) :
  adds n l1 w1 w2 -> adds n l2 w2 w3 -> adds n (l1 ++ l2) w1 w3.
Proof.
  intros (A1 & A2 & A3) (B1 & B2 & B3). unfold adds.
  rewrite B1, B2, B3, A1, A2, A3, numbered_app, map_app, length_app, <- !app_assoc.
  repeat split. lia.
Qed.

(** A binding whose first update returns is subscribed and recorded. *)
Lemma addBinding_adds (p : string) (n : node) (b : binding) (w w' : world) :
  addBinding p n b w = Returns w' -> adds n [(p, b)] w w'.
Proof.
  unfold addBinding. intros E. apply and_then_returns in E. destruct E as (w1 & E1 & E2).
  destruct (update_effect_fields (binding_node b) w w1) as (_ & Hs & Hr & _).
  { pose proof (updateFn_effect b (store_get p w) w) as H. now rewrite E1 in H. }
  cbn in E2. injection E2 as <-. unfold adds. cbn. rewrite Hs, Hr.
  repeat split. lia.
Qed.

Lemma attr_get_set_ne (k name v : string) (attrs : list (string * string)) :
  k <> name -> attr_get k (attr_set name v attrs) = attr_get k attrs.
Proof.
  intros Hne. induction attrs as [|[k' v'] rest IH]; cbn.
  - destruct (String.eqb_spec name k); [congruence | reflexivity].
  - destruct (String.eqb_spec k' name) as [->|]; cbn.
    + destruct (String.eqb_spec name k); [congruence | reflexivity].
    + destruct (String.eqb k' k); [reflexivity | exact IH].
Qed.

Lemma attr_get_remove_ne (k name : string) (attrs : list (string * string)) :
  k <> name -> attr_get k (attr_remove name attrs) = attr_get k attrs.
Proof.
  intros Hne. unfold attr_remove. induction attrs as [|[k' v'] rest IH]; cbn; [reflexivity|].
  destruct (String.eqb_spec k' name) as [->|]; cbn.
  - destruct (String.eqb_spec name k); [congruence | exact IH].
  - destruct (String.eqb k' k); [reflexivity | exact IH].
Qed.

Lemma dom_update_attr_get (m : node) (f : element -> element) (w : world) (x : node)
      (k : string) :
  (forall e, attr_get k (el_attrs (f e)) = attr_get k (el_attrs e)) ->
  attr_get k (el_attrs (el_at (w_dom (dom_update m f w)) x))
  = attr_get k (el_attrs (el_at (w_dom w) x)).
Proof.
  intros Hf. unfold dom_update. cbn. rewrite el_at_insert.
  destruct (decide (m = x)) as [->|]; [apply Hf | reflexivity].
Qed.

(** The name of the attribute a binding writes, if it writes one. *)
Definition written_attr (b : binding) : option string :=
  match b with
  | BData _ d => Some (dataset_attr d)
  | BAttr _ a => Some (lower_case a)
  | _ => None
  end.

(** An update function leaves alone every attribute but the one it
    writes. *)
Lemma updateFn_attr_get (b : binding) (v : value) (w : world) (x : node) (k : string) :
  written_attr b <> Some k ->
  attr_get k (el_attrs (el_at (w_dom (state_of (updateFn b v w))) x))
  = attr_get k (el_attrs (el_at (w_dom w) x)).
Proof.
  intros Hk. destruct b as [m|m|m|m d|m a]; cbn [updateFn written_attr] in *.
  - destruct (text_of _ _); [|reflexivity]. now apply dom_update_attr_get.
  - destruct (text_of _ _); [|reflexivity]. cbn [state_of].
    destruct (String.eqb _ _); destruct (negb _); try reflexivity;
      now apply dom_update_attr_get.
  - now destruct (truthy v).
  - destruct (text_of _ _); [|reflexivity]. destruct (_ || _); [reflexivity|].
    cbn [state_of]. unfold dataset_set. apply dom_update_attr_get. intros e. cbn.
    apply attr_get_set_ne. congruence.
  - destruct (negb _).
    + destruct (String_ _ _); [|reflexivity]. destruct (valid_attribute_name a); [|reflexivity].
      cbn [state_of]. unfold setAttribute. apply dom_update_attr_get. intros e.
      rewrite reflect_type_attrs. cbn. apply attr_get_set_ne. congruence.
    + cbn [state_of]. unfold removeAttribute. apply dom_update_attr_get. intros e.
      rewrite reflect_type_attrs. cbn. apply attr_get_remove_ne. congruence.
Qed.

Lemma addBinding_attr_get (p : string) (n : node) (b : binding) (w : world)
      (x : node) (k : string) :
  written_attr b <> Some k ->
  attr_get k (el_attrs (el_at (w_dom (state_of (addBinding p n b w))) x))
  = attr_get k (el_attrs (el_at (w_dom w) x)).
Proof.
  intros Hk. unfold addBinding.
  pose proof (updateFn_attr_get b (store_get p w) w x k Hk) as H.
  destruct (updateFn b (store_get p w) w) as [w1|w1]; exact H.
Qed.

(** The bindings of the attributes [l], for a node whose attributes are
    [attrs]: one for each attribute named [bind-data-*] or
    [bind-attr-*], on the path the node has for that name. *)
Definition family (n : node) (attrs l : list (string * string)) : list (string * binding) :=
  flat_map
    (fun a =>
       let p := default (snd a) (attr_get (fst a) attrs) in
       match strip_prefix "bind-data-" (fst a) with
       | Some d => [(p, BData n d)]
       | None =>
           match strip_prefix "bind-attr-" (fst a) with
           | Some x => [(p, BAttr n x)]
           | None => []
           end
       end) l.

Definition single (n : node) (name : string) (b : binding) (attrs : list (string * string))
  : list (string * binding) :=
  match attr_get name attrs with
  | Some p => [(p, b)]
  | None => []
  end.

(** The bindings the attributes of a node declare, in the order the scan
    makes them. *)
Definition declared (n : node) (attrs : list (string * string)) : list (string * binding) :=
  single n "bind-text" (BText n) attrs
  ++ single n "bind-value" (BValue n) attrs
  ++ single n "bind-focus" (BFocus n) attrs
  ++ family n attrs attrs.

(** No [bind-attr-*] attribute of the list writes an attribute whose
    name begins with [bind-]. *)
Definition no_rebinding (l : list (string * string)) : Prop :=
  forall a x, In a l -> strip_prefix "bind-attr-" (fst a) = Some x ->
              strip_prefix "bind-" (lower_case x) = None.

(** The [bind-] attributes of node [n] are those of [attrs]. *)
Definition same_bindings (n : node) (attrs : list (string * string)) (w : world) : Prop :=
  forall k r, strip_prefix "bind-" k = Some r ->
              attr_get k (el_attrs (el_at (w_dom w) n)) = attr_get k attrs.

Lemma family_adds (n : node) (attrs : list (string * string)) :
  forall l w w',
    no_rebinding l ->
    same_bindings n attrs w ->
    for_each (scan_attr n) l w = Returns w' ->
    adds n (family n attrs l) w w'.
Proof.
  induction l as [|[name v0] l IH]; intros w w' Hno Hinv E; cbn [family flat_map].
  { cbn in E. injection E as <-. now apply adds_nil. }
  apply for_each_cons_returns in E. destruct E as (w1 & E1 & E2).
  assert (Hno' : no_rebinding l) by (intros a x Ha; apply Hno; now right).
  assert (Hstep : forall b r,
             strip_prefix "bind-" name = Some r ->
             (forall k r', strip_prefix "bind-" k = Some r' -> written_attr b <> Some k) ->
             scan_attr n w (name, v0)
             = addBinding (default v0 (attr_get name attrs)) n b w ->
             adds n ([(default v0 (attr_get name attrs), b)] ++ family n attrs l) w w').
  { intros b r Hr Hw Hs. rewrite Hs in E1.
    eapply adds_trans; [exact (addBinding_adds _ _ _ _ _ E1)|].
    apply IH; [assumption| |assumption]. intros k r' Hk.
    pose proof (addBinding_attr_get (default v0 (attr_get name attrs)) n b w n k
                  (Hw k r' Hk)) as Hg.
    rewrite E1 in Hg. cbn [state_of] in Hg. rewrite Hg. now apply (Hinv k r'). }
  cbn [fst snd].
  destruct (strip_prefix "bind-data-" name) as [d|] eqn:Hd.
  - apply strip_prefix_spec in Hd.
    assert (Hr : strip_prefix "bind-" name = Some ("data-" ++ d)%string)
      by (apply strip_prefix_spec; now rewrite Hd).
    apply (Hstep (BData n d) _ Hr).
    + intros k r' Hk. cbn. intros [= <-]. discriminate Hk.
    + unfold scan_attr. cbn [fst snd]. rewrite (proj2 (strip_prefix_spec _ _ _) Hd).
      now rewrite (Hinv name _ Hr).
  - destruct (strip_prefix "bind-attr-" name) as [x|] eqn:Hx.
    + pose proof (Hno (name, v0) x (or_introl eq_refl) Hx) as Hnone.
      apply strip_prefix_spec in Hx.
      assert (Hr : strip_prefix "bind-" name = Some ("attr-" ++ x)%string)
        by (apply strip_prefix_spec; now rewrite Hx).
      apply (Hstep (BAttr n x) _ Hr).
      * intros k r' Hk. cbn. intros [= <-]. congruence.
      * unfold scan_attr. cbn [fst snd]. rewrite Hd.
        rewrite (proj2 (strip_prefix_spec _ _ _) Hx). now rewrite (Hinv name _ Hr).
    + assert (Ew : w1 = w).
      { unfold scan_attr in E1. cbn [fst snd] in E1. rewrite Hd, Hx in E1.
        now injection E1. }
      subst w1. now apply IH.
Qed.

Lemma dom_update_attrs (m : node) (f : element -> element) (w : world) (x : node) :
  (forall e, el_attrs (f e) = el_attrs e) ->
  el_attrs (el_at (w_dom (dom_update m f w)) x) = el_attrs (el_at (w_dom w) x).
Proof.
  intros Hf. unfold dom_update. cbn. rewrite el_at_insert.
  destruct (decide (m = x)) as [->|]; [apply Hf | reflexivity].
Qed.

(** The bindings that write no attribute leave the attributes as they
    are. *)
Lemma addBinding_attrs (p : string) (n : node) (b : binding) (w : world) (x : node) :
  written_attr b = None ->
  el_attrs (el_at (w_dom (state_of (addBinding p n b w))) x) = el_attrs (el_at (w_dom w) x).
Proof.
  intros Hb. unfold addBinding.
  assert (H : el_attrs (el_at (w_dom (state_of (updateFn b (store_get p w) w))) x)
              = el_attrs (el_at (w_dom w) x)).
  { destruct b as [m|m|m|m d|m a]; try discriminate; cbn [updateFn].
    - destruct (text_of _ _); [|reflexivity]. now apply dom_update_attrs.
    - destruct (text_of _ _); [|reflexivity]. cbn [state_of].
      destruct (String.eqb _ _); destruct (negb _); try reflexivity;
        now apply dom_update_attrs.
    - now destruct (truthy _). }
  destruct (updateFn b (store_get p w) w) as [w1|w1]; exact H.
Qed.

(** One of the three single bindings of a scan. *)
Lemma single_adds (n : node) (name : string) (b : binding) (attrs : list (string * string))
      (x x' : world) :
  written_attr b = None ->
  el_attrs (el_at (w_dom x) n) = attrs ->
  (if hasAttribute x n name
   then addBinding (attr_or_empty x n name) n b x else Returns x) = Returns x' ->
  adds n (single n name b attrs) x x'
  /\ el_attrs (el_at (w_dom x') n) = attrs
  /\ (single n name b attrs = [] -> x' = x).
Proof.
  intros Hp Hx. unfold hasAttribute, attr_or_empty, single. rewrite Hx.
  destruct (attr_get name attrs) as [p|]; intros E.
  - split; [exact (addBinding_adds _ _ _ _ _ E)|]. split; [|discriminate].
    pose proof (addBinding_attrs (default "" (Some p)) n b x n Hp) as Hg.
    rewrite E in Hg. cbn [state_of] in Hg. congruence.
  - injection E as <-. split; [now apply adds_nil|]. split; [exact Hx | auto].
Qed.

Lemma family_none (n : node) (attrs : list (string * string)) :
  forall l w, family n attrs l = [] -> for_each (scan_attr n) l w = Returns w.
Proof.
  induction l as [|[name v0] l IH]; intros w N; [reflexivity|].
  cbn [family flat_map fst snd] in N. apply app_eq_nil in N. destruct N as [N N'].
  cbn [for_each]. unfold scan_attr at 1. cbn [fst snd].
  destruct (strip_prefix "bind-data-" name); [discriminate|].
  destruct (strip_prefix "bind-attr-" name); [discriminate|].
  cbn [and_then]. now apply IH.
Qed.

(** X16.  The scan of a node that does not carry the marker, when it
    returns, has made one subscription for each binding the attributes
    of the node declare and no other: [bind-text], [bind-value] and
    [bind-focus] in this order, then the [bind-data-*] and [bind-attr-*]
    attributes in the order the node has them, each on the path its
    attribute holds, each with one registry entry on the node.  (No
    [bind-attr-*] attribute is taken to write an attribute whose name
    begins with [bind-]: that would change what a later binding is bound
    to.)  A node with no such attribute gets the marker and nothing
    else, and its scan returns. *)
Theorem scan_node_declared (w w' : world) (n : node) :
  el_bound (el_at (w_dom w) n) = false ->
  no_rebinding (el_attrs (el_at (w_dom w) n)) ->
  scan_node w n = Returns w' ->
  let l := declared n (el_attrs (el_at (w_dom w) n)) in
  st_listeners (w_store w')
  = st_listeners (w_store w) ++ numbered (st_next (w_store w)) l
  /\ w_subs w'
     = w_subs w ++ map (fun e => (n, fst (fst e))) (numbered (st_next (w_store w)) l)
  /\ el_bound (el_at (w_dom w') n) = true
  /\ (l = [] -> w' = dom_update n (with_bound true) w).
Proof.
  intros Hb Hno E l. subst l. set (attrs := el_attrs (el_at (w_dom w) n)) in *.
  assert (Hmark : el_bound (el_at (w_dom w') n) = true).
  { pose proof (scan_node_marks w n) as H. now rewrite E in H. }
  unfold scan_node in E. rewrite Hb in E.
  set (w0 := dom_update n (with_bound true) w) in *.
  assert (A0 : el_attrs (el_at (w_dom w0) n) = attrs) by now apply dom_update_attrs.
  apply and_then_returns in E. destruct E as (w1 & E1 & E).
  apply and_then_returns in E. destruct E as (w2 & E2 & E).
  apply and_then_returns in E. destruct E as (w3 & E3 & E4).
  destruct (single_adds n "bind-text" (BText n) attrs w0 w1 eq_refl A0 E1)
    as (T1 & T2 & T3).
  assert (V : exists w2',
             (if hasAttribute w1 n "bind-value"
              then addBinding (attr_or_empty w1 n "bind-value") n (BValue n) w1
              else Returns w1) = Returns w2'
             /\ w2 = (if hasAttribute w1 n "bind-value"
                      then dom_update n (fun e => with_input
                             (el_input e ++ [attr_or_empty w1 n "bind-value"]) e) w2'
                      else w2')).
  { unfold scan_value in E2. destruct (hasAttribute w1 n "bind-value").
    - apply and_then_returns in E2. destruct E2 as (w2' & Ea & Eb). injection Eb as <-.
      now exists w2'.
    - injection E2 as <-. now exists w1. }
  destruct V as (w2' & Ev & Hw2).
  destruct (single_adds n "bind-value" (BValue n) attrs w1 w2' eq_refl T2 Ev)
    as (V1 & V2 & V3).
  assert (V1' : adds n (single n "bind-value" (BValue n) attrs) w1 w2).
  { rewrite Hw2. destruct (hasAttribute w1 n "bind-value"); [|assumption].
    destruct V1 as (B1 & B2 & B3). repeat split; assumption. }
  assert (V2' : el_attrs (el_at (w_dom w2) n) = attrs).
  { rewrite Hw2. destruct (hasAttribute w1 n "bind-value"); [|assumption].
    now rewrite dom_update_attrs. }
  destruct (single_adds n "bind-focus" (BFocus n) attrs w2 w3 eq_refl V2' E3)
    as (F1 & F2 & F3).
  unfold scan_family in E4. rewrite F2 in E4.
  assert (Fam : adds n (family n attrs attrs) w3 w').
  { apply family_adds; [assumption | | exact E4]. intros k r _. now rewrite F2. }
  assert (Hall : adds n (declared n attrs) w0 w').
  { unfold declared. eapply adds_trans; [exact T1|]. eapply adds_trans; [exact V1'|].
    eapply adds_trans; [exact F1 | exact Fam]. }
  destruct Hall as (L1 & _ & L3).
  split; [exact L1|]. split; [exact L3|]. split; [exact Hmark|].
  intros Hnil. unfold declared in Hnil.
  apply app_eq_nil in Hnil. destruct Hnil as [N1 Hnil].
  apply app_eq_nil in Hnil. destruct Hnil as [N2 Hnil].
  apply app_eq_nil in Hnil. destruct Hnil as [N3 N4].
  assert (E1' : w1 = w0) by now apply T3.
  assert (E2' : w2 = w1).
  { rewrite Hw2, (V3 N2). unfold single in N2. unfold hasAttribute.
    rewrite T2. now destruct (attr_get "bind-value" attrs). }
  assert (E3' : w3 = w2) by now apply F3.
  rewrite (family_none n attrs attrs w3 N4) in E4. injection E4 as <-.
  congruence.
Qed.

End Renderer.

(** ** The claims on the sample documents *)

(** The sample host: its number formatting, its markup parser, its
    check of attribute names and its [type] property. *)
Definition sample_executeSet : Z -> string -> world -> outcome :=
  executeSet sample_number_to_string sample_parser sample_valid_attribute_name
             sample_type_property.

Definition sample_reconcile : node -> world -> outcome :=
  reconcile sample_number_to_string sample_parser sample_valid_attribute_name
            sample_type_property.

Definition sample_mount : node -> world -> outcome :=
  mount sample_number_to_string sample_parser sample_valid_attribute_name
        sample_type_property.

Definition sample_add_step : node -> world -> string -> outcome :=
  add_step sample_number_to_string sample_parser sample_valid_attribute_name
           sample_type_property.

Definition sample_store_set : string -> value -> world -> outcome :=
  store_set sample_number_to_string sample_parser sample_valid_attribute_name
            sample_type_property.

Definition sample_scanBindings : node -> world -> outcome :=
  scanBindings sample_number_to_string sample_valid_attribute_name sample_type_property.

Definition sample_scan_node : world -> node -> outcome :=
  scan_node sample_number_to_string sample_valid_attribute_name sample_type_property.

(** The todo document, mounted on its body. *)
Definition sample_todos : world := state_of (sample_mount 0 sample_world).



(** The document over [{a: 1, b: 2}] with the collection of the list
    container registered and nothing rendered: the state in which
    [setupCollection] calls [reconcile] for the first time. *)
Definition sample_pending (template : string) : world :=
  set_colls (<[1 := mkColl "todos" template [] ""]> ∅) (sample_world_ab template).











(** C8 on the pending document.  With an empty template the step for
    key [a] creates the scratch element only and the pass leaves [a] out
    of the mapping.  With the item template the first root is node 5: it
    carries [data-key] when its scan starts and after it, it is the last
    child of the container and the element recorded for [a], and the
    pass, which returns, leaves [a] in the mapping. *)
Lemma first_root_decides_sample :
  ((w_colls (sample_pending "") !! 1 = Some (mkColl "todos" "" [] "")
    /\ rendered_has "a" [] = false
    /\ In "a" (present_keys "todos" (sample_pending ""))
    /\ String.eqb (join "," (present_keys "todos" (sample_pending ""))) "" = false
    /\ 1 < w_next_node (sample_pending "")
    /\ Forall (fun e : string * node => snd e < w_next_node (sample_pending "")) []
    /\ markup_of sample_parser (mkColl "todos" "" [] "") "a" = [])
   /\ sample_add_step 1 (sample_pending "") "a"
      = Returns (snd (createElement "div" (sample_pending "")))
   /\ exists st', w_colls (state_of (sample_reconcile 1 (sample_pending ""))) !! 1 = Some st'
                  /\ rendered_has "a" (c_rendered st') = false)
  /\ ((w_colls (sample_pending sample_item) !! 1 = Some (mkColl "todos" sample_item [] "")
       /\ In "a" (present_keys "todos" (sample_pending sample_item))
       /\ String.eqb (join "," (present_keys "todos" (sample_pending sample_item))) "" = false
       /\ 1 < w_next_node (sample_pending sample_item)
       /\ length (markup_of sample_parser (mkColl "todos" sample_item [] "") "a") = 1)
      /\ (let w' := state_of (sample_add_step 1 (sample_pending sample_item) "a") in
          (exists w0,
              sample_add_step 1 (sample_pending sample_item) "a" = sample_scanBindings 5 w0
              /\ attr_get "data-key" (el_attrs (el_at (w_dom w0) 5)) = Some "a")
          /\ attr_get "data-key" (el_attrs (el_at (w_dom w') 5)) = Some "a"
          /\ w_colls w' !! 1 = Some (mkColl "todos" sample_item [("a", 5)] "")
          /\ children_of w' 1 = [2; 5]
          /\ sample_reconcile 1 (sample_pending sample_item)
             = Returns (state_of (sample_reconcile 1 (sample_pending sample_item)))
          /\ exists st',
              w_colls (state_of (sample_reconcile 1 (sample_pending sample_item))) !! 1
              = Some st'
              /\ rendered_has "a" (c_rendered st') = true)).
Proof.
  split.
  - assert (H1 : w_colls (sample_pending "") !! 1 = Some (mkColl "todos" "" [] ""))
      by (vm_compute; reflexivity).
    assert (H2 : rendered_has "a" [] = false) by reflexivity.
    assert (H3 : In "a" (present_keys "todos" (sample_pending "")))
      by (vm_compute; tauto).
    assert (H4 : String.eqb (join "," (present_keys "todos" (sample_pending ""))) "" = false)
      by (vm_compute; reflexivity).
    assert (H5 : 1 < w_next_node (sample_pending "")) by (vm_compute; lia).
    assert (H6 : Forall (fun e : string * node => snd e < w_next_node (sample_pending "")) [])
      by constructor.
    assert (H7 : markup_of sample_parser (mkColl "todos" "" [] "") "a" = [])
      by (vm_compute; reflexivity).
    split; [repeat split; assumption|].
    destruct (first_root_decides sample_number_to_string sample_parser
                sample_valid_attribute_name sample_type_property 1 (sample_pending "")
                "a" _ H1 H2 H3 H4 H5 H6) as [Q _].
    exact (Q H7).
  - assert (H1 : w_colls (sample_pending sample_item) !! 1
                 = Some (mkColl "todos" sample_item [] ""))
      by (vm_compute; reflexivity).
    assert (H3 : In "a" (present_keys "todos" (sample_pending sample_item)))
      by (vm_compute; tauto).
    assert (H4 : String.eqb (join "," (present_keys "todos" (sample_pending sample_item))) ""
                 = false) by (vm_compute; reflexivity).
    assert (H5 : 1 < w_next_node (sample_pending sample_item)) by (vm_compute; lia).
    assert (H6 : Forall (fun e : string * node =>
                           snd e < w_next_node (sample_pending sample_item)) [])
      by constructor.
    assert (H7 : exists m, markup_of sample_parser (mkColl "todos" sample_item [] "") "a"
                           = [m]) by (eexists; vm_compute; reflexivity).
    split; [repeat split; try assumption; vm_compute; reflexivity|].
    destruct H7 as (m & H7).
    destruct (first_root_decides sample_number_to_string sample_parser
                sample_valid_attribute_name sample_type_property 1
                (sample_pending sample_item) "a" _ H1 eq_refl H3 H4 H5 H6) as [_ Q].
    destruct (Q m [] H7) as (Q1 & Q2 & Q3 & st' & Q4 & Q5).
    cbv zeta. split; [exact Q1|]. split; [vm_compute; reflexivity|].
    split; [exact Q2|].
    split; [eapply eq_trans; [exact Q3 | vm_compute; reflexivity]|].
    assert (Hret : sample_reconcile 1 (sample_pending sample_item)
                   = Returns (state_of (sample_reconcile 1 (sample_pending sample_item))))
      by (vm_compute; reflexivity).
    split; [exact Hret|]. exists st'. split; [exact Q4|]. apply Q5.
    unfold sample_reconcile in Hret. now rewrite Hret.
Defined.

(** C8 does not hold of markup with two root elements: with the template
    [li;li] of the sample parser the markup of every key has two roots,
    and the pass renders both keys, each with the first root. *)
Lemma second_root_dropped :
  length (markup_of sample_parser (mkColl "todos" "li;li" [] "") "a") = 2
  /\ exists w',
      sample_reconcile 1 (sample_pending "li;li") = Returns w'
      /\ w_colls w' !! 1 = Some (mkColl "todos" "li;li" [("a", 5); ("b", 8)] "a,b")
      /\ children_of w' 1 = [2; 5; 8]
      /\ el_tag (el_at (w_dom w') 5) = "li".
Proof.
  split; [vm_compute; reflexivity|]. eexists. split; [vm_compute; reflexivity|].
  vm_compute. repeat split; reflexivity.
Qed.

(** C6 on the todo document: a delete with no separator in its path, a
    bare push, a push from an absent source and a push from a source that
    is a string leave the world as it is; a delete under an absent parent
    writes an empty mapping there. *)
Lemma executeSet_noops_sample :
  sample_executeSet 0 "todos:delete" sample_world = Returns sample_world
  /\ sample_executeSet 0 "todos:push" sample_world = Returns sample_world
  /\ sample_executeSet 0 "todos:push(nothing)" sample_world = Returns sample_world
  /\ sample_executeSet 0 "todos:push(draft.text)" sample_world = Returns sample_world
  /\ sample_executeSet 0 "missing.k:delete" sample_world
     = sample_store_set "missing" (VRef 7%positive)
         (set_heap (<[7%positive := mkObject None []]> sample_heap) sample_world).
Proof.
  destruct (executeSet_noops sample_number_to_string sample_parser
              sample_valid_attribute_name sample_type_property 0 sample_world)
    as (N1 & N2 & N3 & N4).
  split; [apply N1; reflexivity|].
  split; [apply N2; reflexivity|].
  split.
  { apply (N3 "todos:push(nothing)" "push(nothing)" "nothing");
      [reflexivity | discriminate | reflexivity|].
    right. left. vm_compute. reflexivity. }
  split.
  { apply (N3 "todos:push(draft.text)" "push(draft.text)" "draft.text");
      [reflexivity | discriminate | reflexivity|].
    right. right. vm_compute. discriminate. }
  apply (N4 "missing.k:delete" "missing" "k"); [reflexivity | reflexivity|].
  vm_compute. reflexivity.
Defined.

(** C6 does not hold of a delete whose parent path is absent: on the
    todo document, where nothing is stored at [missing], the action
    [missing.k:delete] performs a write, after which an empty mapping is
    stored there. *)
Lemma delete_under_absent_parent_writes :
  store_get "missing" sample_world = VUndef
  /\ exists w',
      sample_executeSet 0 "missing.k:delete" sample_world = Returns w'
      /\ w_log w' = [ESet "missing" (VRef 7%positive)]
      /\ store_get "missing" w' = VRef 7%positive
      /\ w_heap w' !! 7%positive = Some (mkObject None [])
      /\ w' <> sample_world.
Proof.
  split; [vm_compute; reflexivity|]. eexists. split; [vm_compute; reflexivity|].
  split; [reflexivity|]. split; [vm_compute; reflexivity|].
  split; [vm_compute; reflexivity|]. intros H. apply (f_equal w_log) in H. discriminate H.
Qed.





(** C9 on the todo document: the key is the clock reading behind [t_];
    two readings give the same key only if they are the same. *)
Lemma push_key_by_clock_sample :
  push_key 5 = "t_5"
  /\ push_key 5 <> push_key 6
  /\ sample_executeSet 5 "todos:push(draft)" sample_world
     = store_batch sample_number_to_string sample_parser sample_valid_attribute_name
         sample_type_property
         (push_body sample_number_to_string sample_parser sample_valid_attribute_name
                    sample_type_property 5 "todos" "draft" (VRef 2%positive))
         sample_world.
Proof.
  destruct (push_key_by_clock sample_number_to_string sample_parser
              sample_valid_attribute_name sample_type_property) as (K1 & K2 & _).
  split; [reflexivity|]. split.
  - intros H. apply K1 in H. discriminate H.
  - apply (K2 5%Z "todos:push(draft)" "push(draft)" "draft" sample_world);
      try reflexivity; try discriminate; vm_compute; reflexivity.
Defined.

(** C9 does not hold of two pushes at the same clock reading: on the
    todo document a push at reading 5, a change of the draft's text and a
    second push at reading 5 leave one new entry, [t_5], and the copy the
    first push wrote there (text [X]) is overwritten by the second
    (text [Y]). *)
Lemma same_instant_push_overwrites :
  exists w1 w2 w3,
    sample_executeSet 5 "todos:push(draft)" sample_world = Returns w1
    /\ sample_executeSet 5 "draft.text:Y" w1 = Returns w2
    /\ sample_executeSet 5 "todos:push(draft)" w2 = Returns w3
    /\ js_keys (w_heap w1) (store_get "todos" w1) = ["t1"; "t2"; "t3"; "t_5"]
    /\ store_get "todos.t_5.text" w1 = VStr "X"
    /\ js_keys (w_heap w3) (store_get "todos" w3) = ["t1"; "t2"; "t3"; "t_5"]
    /\ store_get "todos.t_5.text" w3 = VStr "Y"
    /\ store_get "todos.t_5" w1 <> store_get "todos.t_5" w3.
Proof.
  eexists. eexists. eexists.
  split; [vm_compute; reflexivity|]. split; [vm_compute; reflexivity|].
  split; [vm_compute; reflexivity|]. vm_compute. repeat split; try reflexivity.
  discriminate.
Qed.

(** C10 at the action [count:]: the expression is the empty string, its
    value is the empty string, and the action writes it. *)
Lemma trailing_separator_sample :
  indexOf ":" "count" = None
  /\ parseSetExpr "count:" = mkSetExpr "count" (Some "")
  /\ evalExpr (Some "") (VNum 3) sample_heap = Some (VStr "", sample_heap)
  /\ sample_executeSet 0 "count:" sample_world
     = sample_store_set "count" (VStr "") sample_world
  /\ (expr (parseSetExpr "count") = None <-> indexOf ":" "count" = None).
Proof.
  destruct (trailing_separator_sets_empty sample_number_to_string sample_parser
              sample_valid_attribute_name sample_type_property)
    as (T1 & T2 & T3 & T4).
  assert (H : indexOf ":" "count" = None) by reflexivity.
  split; [exact H|]. split; [exact (T2 "count" H)|]. split; [apply T3|].
  split; [exact (T4 0%Z "count" sample_world H) | apply T1].
Defined.

(** C10 does not hold of every raw string that ends with the separator:
    in [a:b:] the first separator is not the last character, and the
    expression is [b:], which is written as it is. *)
Lemma later_separator_not_empty :
  parseSetExpr "a:b:" = mkSetExpr "a" (Some "b:")
  /\ fst <$> evalExpr (Some "b:") VNull sample_heap = Some (VStr "b:")
  /\ ~ (forall p, expr (parseSetExpr (p ++ ":")) = Some "").
Proof.
  split; [reflexivity|]. split; [vm_compute; reflexivity|].
  intros H. specialize (H "a:b"). discriminate H.
Qed.

(** C3 on the todo document: the mount returns; it has scanned the
    body's subtree, and the reconciler the items it rendered; scanning
    the body, or the first rendered item, once more leaves the world,
    with its registry of nine entries, as it is. *)
Lemma scanBindings_idempotent_sample :
  sample_mount 0 sample_world = Returns sample_todos
  /\ length (w_subs sample_todos) = 9
  /\ sample_scanBindings 0 sample_todos = Returns sample_todos
  /\ sample_scanBindings 5 sample_todos = Returns sample_todos
  /\ (forall w1, sample_scanBindings 0 sample_world = Returns w1 ->
                 sample_scanBindings 0 w1 = Returns w1).
Proof.
  destruct (scanBindings_idempotent sample_number_to_string sample_valid_attribute_name
              sample_type_property 0 sample_todos)
    as (_ & _ & _ & _ & _ & H).
  destruct (scanBindings_idempotent sample_number_to_string sample_valid_attribute_name
              sample_type_property 0 sample_world)
    as (H0 & _).
  split; [vm_compute; reflexivity|].
  split; [vm_compute; reflexivity|]. split; [|split].
  - apply H. vm_compute. intuition (subst; reflexivity).
  - apply (proj2 (proj2 (proj2 (proj2 (proj2
             (scanBindings_idempotent sample_number_to_string sample_valid_attribute_name
                sample_type_property 5 sample_todos)))))).
    vm_compute. intuition (subst; reflexivity).
  - intros w1 E. now apply H0.
Defined.

(** A body with two spans: the first has a [bind-data-*] attribute
    whose name the setter of [dataset] refuses, the second is bound to
    the draft's text. *)
Definition sample_world_refused : world :=
  mkWorld sample_heap (mkStore 1%positive [] 0 0 [])
          (<[0 := sample_el "body" [] [1; 2] ""]>
           (<[1 := sample_el "span" [("bind-data--x", "draft.text")] [] ""]>
            (<[2 := sample_el "span" [("bind-text", "draft.text")] [] ""]> ∅)))
          3 [] ∅ [] None [].

(** C3 does not hold of a second scan after a scan that threw.  The scan
    of the body throws at the first span, whose update function throws
    on its first delivery: the span has the marker and no binding, the
    second span has not been visited.  A second scan of the body passes
    over the first span and binds the second: it makes one subscription
    more. *)
Lemma rescan_after_throw_binds :
  exists w1 w2,
    sample_scanBindings 0 sample_world_refused = Throws w1
    /\ w_subs w1 = []
    /\ st_listeners (w_store w1) = []
    /\ el_bound (el_at (w_dom w1) 1) = true
    /\ el_bound (el_at (w_dom w1) 2) = false
    /\ sample_scanBindings 0 w1 = Returns w2
    /\ w_subs w2 = [(2, 0)]
    /\ st_listeners (w_store w2) = [(0, "draft.text", LUpdate (BText 2))]
    /\ w2 <> w1.
Proof.
  eexists. eexists. split; [vm_compute; reflexivity|].
  split; [reflexivity|]. split; [reflexivity|].
  split; [vm_compute; reflexivity|]. split; [vm_compute; reflexivity|].
  split; [vm_compute; reflexivity|]. split; [reflexivity|]. split; [reflexivity|].
  intros H. apply (f_equal w_subs) in H. discriminate H.
Qed.

(** ** The further properties on the sample documents *)

(** The todo document whose span is a control bound three ways. *)
Definition sample_control : world :=
  dom_update 3 (with_attrs [("bind-value", "draft.text"); ("bind-attr-title", "draft.text");
                            ("class", "field"); ("bind-data-done", "draft.done")])
             sample_world.

(** X4 on the mounted todo document: writing the draft's text is one
    write, followed by the notification of the span bound to it. *)
Lemma action_writes_once_sample :
  parsePush (expr (parseSetExpr "draft.text:hello")) = None
  /\ (let w' := state_of (sample_executeSet 0 "draft.text:hello" sample_todos) in
      sample_executeSet 0 "draft.text:hello" sample_todos = Returns w'
      /\ w' <> sample_todos
      /\ w_log w'
         = [ENotify 8 "draft.text"; ESet "draft.text" (VStr "hello")] ++ w_log sample_todos
      /\ store_get "draft.text" w' = VStr "hello").
Proof.
  assert (H : parsePush (expr (parseSetExpr "draft.text:hello")) = None) by reflexivity.
  split; [exact H|].
  assert (Hl : w_log (state_of (sample_executeSet 0 "draft.text:hello" sample_todos))
               = [ENotify 8 "draft.text"; ESet "draft.text" (VStr "hello")]
                   ++ w_log sample_todos) by (vm_compute; reflexivity).
  cbv zeta. split; [vm_compute; reflexivity|]. split.
  - destruct (action_writes_once sample_number_to_string sample_parser
                sample_valid_attribute_name sample_type_property 0 "draft.text:hello"
                sample_todos H) as [[E _]|(p & v & h & flush & L & _)].
    + intros _. unfold sample_executeSet in Hl. rewrite E in Hl.
      apply (f_equal (@length event)) in Hl. rewrite length_app in Hl. cbn in Hl. lia.
    + intros E. unfold sample_executeSet in E. rewrite E in L.
      apply (f_equal (@length event)) in L. rewrite length_app in L. cbn in L. lia.
  - split; [exact Hl | vm_compute; reflexivity].
Defined.

(** X10 on the mounted todo document: every one of its nine
    subscriptions is in the registry, and the cleanup leaves the store
    without a listener. *)
Lemma no_subscription_leaks_sample :
  st_listeners (w_store sample_world) = []
  /\ length (st_listeners (w_store sample_todos)) = 9
  /\ registered sample_todos
  /\ st_listeners (w_store (teardown sample_todos)) = [].
Proof.
  destruct (no_subscription_leaks sample_number_to_string sample_parser
              sample_valid_attribute_name sample_type_property)
    as (Hm & _ & _ & Ht & H0).
  assert (H : st_listeners (w_store sample_world) = []) by reflexivity.
  assert (Hr : registered sample_todos) by (apply Hm, H0, H).
  split; [exact H|]. split; [vm_compute; reflexivity|]. split; [exact Hr|].
  apply Ht, Hr.
Defined.

(** X13 on the item template of the todo document. *)
Lemma resolve_substitutes_sample :
  (indexOf "$" "t1" = None /\ indexOf "{" "t1" = None /\ indexOf "$" "todos" = None)
  /\ resolve "todos" sample_item "t1"
     = "li bind-text=todos.t1.text bind-data-done=todos.t1.done"
  /\ resolve "todos" "li data-key={_key}" "t1" = "li data-key=t1".
Proof.
  destruct (resolve_substitutes "todos" "t1" eq_refl eq_refl eq_refl) as (_ & Hk & Hp & _).
  split; [repeat split|]. split.
  - eapply eq_trans;
      [exact (Hp "li bind-text=" ".text bind-data-done={_path}.done" eq_refl)|].
    vm_compute. reflexivity.
  - eapply eq_trans; [exact (Hk "li data-key=" "" eq_refl)|]. vm_compute. reflexivity.
Defined.

(** X14 on the list container of the todo document: its collection is
    on [todos], the first two handles are the container's, and the items
    rendered for the three keys follow. *)
Lemma setupCollection_effect_sample :
  (attr_get "each" (el_attrs (el_at (w_dom sample_world) 1)) = Some "todos"
   /\ "todos" <> ""
   /\ template_of sample_world 1 = Some 2)
  /\ (let w' := state_of (setupCollection sample_number_to_string sample_parser
                            sample_valid_attribute_name sample_type_property
                            sample_world 1) in
      exists st',
        w_colls w' !! 1 = Some st'
        /\ c_path st' = "todos"
        /\ c_template st' = sample_item
        /\ c_lastKeyStr st' = "t1,t2,t3"
        /\ w_subs w' = [(1, 0); (1, 1); (5, 2); (5, 3); (7, 4); (7, 5); (9, 6); (9, 7)]).
Proof.
  assert (H1 : attr_get "each" (el_attrs (el_at (w_dom sample_world) 1)) = Some "todos")
    by (vm_compute; reflexivity).
  assert (H2 : "todos" <> "") by discriminate.
  assert (H3 : template_of sample_world 1 = Some 2) by (vm_compute; reflexivity).
  split; [repeat split; assumption|].
  destruct (setupCollection_effect sample_number_to_string sample_parser
              sample_valid_attribute_name sample_type_property sample_world 1)
    as (_ & P).
  destruct (P "todos" 2 H1 H2 H3) as (st' & l & l' & A & B & C & D & _).
  cbv zeta. exists st'. split; [exact A|]. split; [exact B|].
  split; [rewrite C; vm_compute; reflexivity|].
  split; [rewrite D; vm_compute; reflexivity|].
  vm_compute. reflexivity.
Defined.

(** X16 on the control: its scan returns; its three bindings are made
    in the order value, title, flag, and the attributes the updates
    write are not scanned. *)
Lemma scan_node_declared_sample :
  (el_bound (el_at (w_dom sample_control) 3) = false
   /\ no_rebinding (el_attrs (el_at (w_dom sample_control) 3))
   /\ sample_scan_node sample_control 3
      = Returns (state_of (sample_scan_node sample_control 3)))
  /\ (let w' := state_of (sample_scan_node sample_control 3) in
      st_listeners (w_store w')
      = [(0, "draft.text", LUpdate (BValue 3));
         (1, "draft.text", LUpdate (BAttr 3 "title"));
         (2, "draft.done", LUpdate (BData 3 "done"))]
      /\ w_subs w' = [(3, 0); (3, 1); (3, 2)]
      /\ el_bound (el_at (w_dom w') 3) = true
      /\ el_attrs (el_at (w_dom w') 3)
         = [("bind-value", "draft.text"); ("bind-attr-title", "draft.text");
            ("class", "field"); ("bind-data-done", "draft.done");
            ("title", "X"); ("data-done", "true")]).
Proof.
  assert (H1 : el_bound (el_at (w_dom sample_control) 3) = false)
    by (vm_compute; reflexivity).
  assert (H2 : no_rebinding (el_attrs (el_at (w_dom sample_control) 3))).
  { intros a x Ha Hx. vm_compute in Ha.
    destruct Ha as [<-|[<-|[<-|[<-|[]]]]]; vm_compute in Hx; try discriminate Hx.
    injection Hx as <-. reflexivity. }
  assert (H3 : sample_scan_node sample_control 3
               = Returns (state_of (sample_scan_node sample_control 3)))
    by (vm_compute; reflexivity).
  split; [split; [exact H1 | split; [exact H2 | exact H3]]|].
  unfold sample_scan_node in *.
  set (w' := state_of (scan_node sample_number_to_string sample_valid_attribute_name
                         sample_type_property sample_control 3)) in *.
  pose proof (scan_node_declared sample_number_to_string sample_valid_attribute_name
                sample_type_property sample_control w' 3 H1 H2 H3) as P.
  cbv zeta in P. destruct P as (L & S & B & _).
  cbv zeta. split; [rewrite L; vm_compute; reflexivity|].
  split; [rewrite S; vm_compute; reflexivity|].
  split; [exact B|].
  vm_compute. reflexivity.
Defined.
